(** * Spartan AUM: the rate-limited ingestion engine ([SolanaService])

    A shallow embedding of [SolanaService] (retry wrapper, fetch queue,
    balance and token fetchers, metadata and price resolvers, wallet
    pipeline and batch orchestrator) and the properties its specification
    states about it, followed by the rest of the service (address
    validation, refresh of stale prices) and the routes of [routes/api.ts]
    that serve what the engine stored, with further properties of both.

    Conventions of the embedding.
    - A JavaScript [number] holding a balance, an amount or a price is an
      exact rational ([Qc]); rounding, NaN and infinities are outside the
      model.  Times are integers of milliseconds ([Z]).
    - An [async] method is a state-passing computation [M A] over a [World]:
      the cache store, the state of everything outside the process (the RPC
      and HTTP providers, the clock) and the trace of what the engine asked
      of the outside.  A rejected promise or a thrown exception is [Throw].
    - [Promise.all] and the promises of one chunk are run left to right;
      every one of them runs to completion (all its effects happen), and
      the combined promise rejects with the leftmost failure. *)

From Stdlib Require Import ZArith QArith Qcanon List Bool Lia Sorted.
From stdpp Require Import gmap strings list pretty.

Local Open Scope Z_scope.
Local Open Scope nat_scope.

(** ** Values *)

(** What a [catch] clause receives: an [Error] object with its message, or
    any other thrown value. *)
Inductive exn : Type :=
  | ErrorObj (message : string)
  | Thrown (value : string).

(** [error instanceof Error ? error.message : "Unknown error"] *)
Definition error_message (error : exn) : string :=
  match error with
  | ErrorObj message => message
  | Thrown _ => "Unknown error"
  end.

Inductive Result (A : Type) : Type :=
  | Ok (value : A)
  | Throw (error : exn).
Arguments Ok {A} value.
Arguments Throw {A} error.

Definition is_throw {A} (r : Result A) : bool :=
  match r with Ok _ => false | Throw _ => true end.

(** [x || d] on numbers: [0] is falsy. *)
Definition num_or (x d : Qc) : Qc := if decide (x = 0%Qc) then d else x.

(** [s || d] on strings that may be missing: [undefined], [null] and the
    empty string are falsy. *)
Definition str_or (s : option string) (d : string) : string :=
  match s with
  | Some v => if decide (v = "") then d else v
  | None => d
  end.

(** ** The cache store *)

Inductive FetchStatus : Type := StatusSuccess | StatusError | StatusPending.

Record TokenAccount : Type := {
  ta_mint : string;
  ta_amount : Qc;
  ta_decimals : Z;
  ta_symbol : option string;
  ta_name : option string;
  ta_usdValue : option Qc
}.

Record WalletBalance : Type := {
  wb_wallet_address : string;
  wb_wallet_id : string;
  wb_sol_balance : Qc;
  wb_tokens : list TokenAccount;
  wb_last_updated : Z;
  wb_fetch_status : FetchStatus;
  wb_error_message : option string;
  wb_retry_count : Z
}.

Record TokenPrice : Type := {
  tp_mint : string;
  tp_symbol : string;
  tp_name : string;
  tp_price : Qc;
  tp_price_change_24h : option Qc;
  tp_market_cap : option Qc;
  tp_image_url : option string;
  tp_last_updated : Z;
  tp_source : string
}.

Record FetchLog : Type := {
  fl_wallet_address : string;
  fl_timestamp : Z;
  fl_operation : string;
  fl_status : FetchStatus;
  fl_error_details : option string;
  fl_response_time_ms : Z
}.

Record Db : Type := {
  wallet_balances : gmap string WalletBalance;
  token_prices : list TokenPrice;
  fetch_logs : list FetchLog
}.

(** Modelled from the spec: the cache store ([./database], [db]) is not part
    of the sources.  The spec gives its contract: one WalletRecord per
    address and one TokenPrice per mint, both written by upsert on the
    natural key (last writer wins), and an append-only log of
    FetchLogEntry.  This is [upsertWalletBalance(WalletRecord)].  The
    [tokens] column, in the source the JSON text of the holdings, is kept
    as the list it serialises. *)
Definition upsertWalletBalance (row : WalletBalance) (d : Db) : Db :=
  {| wallet_balances := <[wb_wallet_address row := row]> (wallet_balances d);
     token_prices := token_prices d;
     fetch_logs := fetch_logs d |}.

(** Modelled from the spec: [getWalletBalance(address) → WalletRecord?] of
    the missing cache store, the record kept for the address. *)
Definition getWalletBalance (address : string) (d : Db) : option WalletBalance :=
  wallet_balances d !! address.

(** Modelled from the spec: the upsert of the missing cache store on the
    price table, "keyed by mint; at most one row per mint", last writer
    wins: the row of the mint is replaced where it stands, a new mint is
    added at the end. *)
Fixpoint upsert_price (row : TokenPrice) (rows : list TokenPrice) : list TokenPrice :=
  match rows with
  | [] => [row]
  | r :: rest =>
      if decide (tp_mint r = tp_mint row) then row :: rest
      else r :: upsert_price row rest
  end.

(** Modelled from the spec: [upsertTokenPrice(TokenPrice)] of the missing
    cache store. *)
Definition upsertTokenPrice (row : TokenPrice) (d : Db) : Db :=
  {| wallet_balances := wallet_balances d;
     token_prices := upsert_price row (token_prices d);
     fetch_logs := fetch_logs d |}.

(** Modelled from the spec: [getAllTokenPrices() → TokenPrice[]] of the
    missing cache store. *)
Definition getAllTokenPrices (d : Db) : list TokenPrice := token_prices d.

(** Modelled from the spec: [insertFetchLog(FetchLogEntry)] of the missing
    cache store, an append to the "append-only audit record". *)
Definition insertFetchLog (entry : FetchLog) (d : Db) : Db :=
  {| wallet_balances := wallet_balances d;
     token_prices := token_prices d;
     fetch_logs := fetch_logs d ++ [entry] |}.

(** ** The outside world *)

Inductive Connection : Type := Primary | Fallback.

Inductive ProgramId : Type := TOKEN_PROGRAM_ID | TOKEN_2022_PROGRAM_ID.

(** [accountInfo.account.data.parsed?.info], with the three fields read. *)
Record ParsedInfo : Type := {
  pi_mint : string;
  pi_uiAmount : Qc;
  pi_decimals : Z
}.

Record AccountInfo : Type := { parsed_info : option ParsedInfo }.

(** An entry of the token catalog, as the JSON carries it. *)
Record CatalogToken : Type := {
  ct_address : string;
  ct_symbol : option string;
  ct_name : option string;
  ct_logoURI : option string
}.

(** [fetch]'s response: [ok], [status], and [json()] which may throw. *)
Record Response (A : Type) : Type := {
  resp_ok : bool;
  resp_status : string;
  resp_json : Result A
}.
Arguments resp_ok {A} _.
Arguments resp_status {A} _.
Arguments resp_json {A} _.

(** The price API's body: [data], an object from mint to an entry.  An
    entry is [null] ([None]: the provider has no price for the mint) or an
    object whose [price] may be missing ([Some price]);
    [parseFloat(info.price || "0")] reads the price of an object.  A body
    that is not an object is a [json()] that did not deliver one. *)
Record PriceBody : Type := { pb_data : option (list (string * option (option Qc))) }.

(** Everything outside the process, as transitions of an environment
    [Env]: the two RPC connections, the token catalog and price endpoints,
    the clock and the timers.  [PublicKey_valid] is the check that
    [new PublicKey(address)] makes. *)
Class Provider (Env : Type) : Type := {
  Date_now : Env → Z;
  setTimeout : Z → Env → Env;
  PublicKey_valid : string → bool;
  rpc_getBalance : Connection → string → Env → Result Z * Env;
  rpc_getParsedTokenAccountsByOwner :
    Connection → string → ProgramId → Env → Result (list AccountInfo) * Env;
  fetch_token_list : string → Env → Result (Response (list CatalogToken)) * Env;
  fetch_token : string → Env → Result (Response CatalogToken) * Env;
  fetch_price : string → Env → Result (Response PriceBody) * Env
}.

(** What the engine asked of the outside, in order: timers, RPC calls, and
    [fetch(url)] by the endpoint it addresses. *)
Inductive Event : Type :=
  | EvTimeout (ms : Z)
  | EvGetBalance (c : Connection) (publicKey : string)
  | EvGetTokenAccounts (c : Connection) (publicKey : string) (programId : ProgramId)
  | EvFetchTokenList (url : string)
  | EvFetchToken (url : string)
  | EvFetchPrice (url : string).

Record World (Env : Type) : Type := {
  db : Db;
  env : Env;
  trace : list Event
}.
Arguments db {Env} _.
Arguments env {Env} _.
Arguments trace {Env} _.
Arguments Build_World {Env} _ _ _.

(** The timers awaited so far. *)
Fixpoint delays_of (t : list Event) : list Z :=
  match t with
  | [] => []
  | EvTimeout ms :: rest => ms :: delays_of rest
  | _ :: rest => delays_of rest
  end.

Definition delays {Env} (w : World Env) : list Z := delays_of (trace w).

(** ** Asynchronous computations *)

Definition M (Env A : Type) : Type := World Env → Result A * World Env.

Definition ret {Env A} (a : A) : M Env A := fun w => (Ok a, w).

Definition throw {Env A} (error : exn) : M Env A := fun w => (Throw error, w).

Definition bind {Env A B} (m : M Env A) (k : A → M Env B) : M Env B :=
  fun w =>
    match m w with
    | (Ok a, w') => k a w'
    | (Throw error, w') => (Throw error, w')
    end.

(** [try { m } catch (error) { handler }] *)
Definition try_catch {Env A} (m : M Env A) (handler : exn → M Env A) : M Env A :=
  fun w =>
    match m w with
    | (Ok a, w') => (Ok a, w')
    | (Throw error, w') => handler error w'
    end.

(** [await Promise.all([a, b])]: both run; the leftmost failure wins. *)
Definition promise_all2 {Env A B} (a : M Env A) (b : M Env B) : M Env (A * B) :=
  fun w =>
    let (ra, w1) := a w in
    let (rb, w2) := b w1 in
    match ra, rb with
    | Ok x, Ok y => (Ok (x, y), w2)
    | Throw error, _ => (Throw error, w2)
    | Ok _, Throw error => (Throw error, w2)
    end.

Declare Scope async_scope.
Delimit Scope async_scope with async.
Notation "x <- m ;; k" := (bind m (fun x => k))
  (at level 100, m at next level, right associativity) : async_scope.
Notation "m ;;; k" := (bind m (fun _ => k))
  (at level 100, right associativity) : async_scope.
Local Open Scope async_scope.

(** A [fetch] that did not deliver a body: it rejected, the status was not
    OK, or [json()] threw. *)
Definition response_failed {A} (r : Result (Response A)) : bool :=
  match r with
  | Throw _ => true
  | Ok response => negb (resp_ok response) || is_throw (resp_json response)
  end.

(** The fields of [SolanaService] set by the constructor or by their
    initialisers. *)
Record Config : Type := {
  jupiterApiUrl : string;
  jupiterTokensApiUrl : string;
  rateLimitDelay : Z;
  maxRetries : nat
}.

Definition default_config : Config :=
  {| jupiterApiUrl := "https://lite-api.jup.ag/price/v2";
     jupiterTokensApiUrl := "https://lite-api.jup.ag/tokens/v1";
     rateLimitDelay := 100;
     maxRetries := 3 |}.

Definition SOL_MINT : string := "So11111111111111111111111111111111111111112".

(** [array.slice(i, j)] for [0 <= i <= j]. *)
Definition slice {A} (i j : nat) (l : list A) : list A := take (j - i) (drop i l).

(** [[...new Set(l)]]: the distinct elements, in order of first occurrence. *)
Fixpoint uniq (l : list string) : list string :=
  match l with
  | [] => []
  | x :: rest => x :: filter (fun y => y ≠ x) (uniq rest)
  end.

(** [l.join(sep)] *)
Fixpoint join (sep : string) (l : list string) : string :=
  match l with
  | [] => ""
  | [x] => x
  | x :: rest => x +:+ sep +:+ join sep rest
  end.

(** The value of a metadata object: [{ symbol, name, logoURI }]. *)
Record TokenMetadata : Type := {
  md_symbol : string;
  md_name : string;
  md_logoURI : option string
}.

(** The value of a [PriceData] object. *)
Record PriceEntry : Type := {
  pe_price : Qc;
  pe_symbol : string;
  pe_name : string;
  pe_change24h : option Qc;
  pe_marketCap : option Qc
}.

Record WalletData : Type := {
  wd_address : string;
  wd_solBalance : Qc;
  wd_tokens : list TokenAccount;
  wd_totalUsdValue : Qc;
  wd_lastUpdated : Z
}.

Record Wallet : Type := { wallet_id : string; wallet_address : string }.

Record BatchResults : Type := {
  successful : nat;
  failed : nat;
  errors : list string
}.

Section Engine.

Context {Env : Type} {provider : Provider Env}.
Variable cfg : Config.

(** A call to the outside: the request is traced, the environment moves. *)
Definition call {A} (e : Event) (f : Env → Result A * Env) : M Env A :=
  fun w =>
    let (r, env') := f (env w) in
    (r, Build_World (db w) env' (trace w ++ [e])).

(** [await new Promise((resolve) => setTimeout(resolve, ms))] *)
Definition sleep (ms : Z) : M Env unit :=
  fun w => (Ok tt, Build_World (db w) (setTimeout ms (env w)) (trace w ++ [EvTimeout ms])).

(** [Date.now()], [new Date().toISOString()] *)
Definition now : M Env Z := fun w => (Ok (Date_now (env w)), w).

(** A write to the cache store. *)
Definition db_write (f : Db → Db) : M Env unit :=
  fun w => (Ok tt, Build_World (f (db w)) (env w) (trace w)).

Definition db_read {A} (f : Db → A) : M Env A := fun w => (Ok (f (db w)), w).

(** [await response.json()] and other results already in hand. *)
Definition lift {A} (r : Result A) : M Env A := fun w => (r, w).

(** [await Promise.allSettled(promises)]: every promise runs, none stops the
    others, and the outcomes come back in the order of the array. *)
Fixpoint all_settled {A} (promises : list (M Env A)) : M Env (list (Result A)) :=
  match promises with
  | [] => ret []
  | p :: rest =>
      fun w =>
        let (r, w1) := p w in
        match all_settled rest w1 with
        | (Ok rs, w2) => (Ok (r :: rs), w2)
        | (Throw error, w2) => (Throw error, w2)
        end
  end.

(** ** Retry Executor *)

(** The [for] loop of [withRetry]; [remaining] is [maxRetries - attempt]. *)
Fixpoint withRetry_loop {T} (operation : M Env T) (maxRetries : nat) (baseDelay : Z)
    (remaining attempt : nat) : M Env T :=
  match remaining with
  | O => throw (ErrorObj "All retry attempts failed")
  | S remaining' =>
      try_catch operation (fun error =>
        if attempt =? maxRetries - 1 then throw error
        else
          let delay := (baseDelay * 2 ^ Z.of_nat attempt)%Z in
          sleep delay ;;; withRetry_loop operation maxRetries baseDelay remaining' (S attempt))
  end.

Definition withRetry {T} (operation : M Env T) (maxRetries : nat) (baseDelay : Z) : M Env T :=
  withRetry_loop operation maxRetries baseDelay maxRetries 0.

(** The world in which attempt number [first + i] starts when the attempts
    [first .. first + i - 1] all failed: the operation has run [i] times
    from [w], each run followed by its backoff timer. *)
Fixpoint attempt_world {T} (operation : M Env T) (baseDelay : Z) (first : nat)
    (w : World Env) (i : nat) : World Env :=
  match i with
  | O => w
  | S j =>
      attempt_world operation baseDelay (S first)
        (snd (sleep (baseDelay * 2 ^ Z.of_nat first)%Z (snd (operation w)))) j
  end.

(** The backoff schedule: [baseDelay * 2^i] for [i = first .. first + k - 1]. *)
Definition backoff (baseDelay : Z) (first k : nat) : list Z :=
  map (fun i => (baseDelay * 2 ^ Z.of_nat i)%Z) (seq first k).

(** ** Fetch Queue, as one pipeline sees it

    [addToQueue] pushes a wrapper of the operation on [requestQueue] and
    returns a promise that the wrapper settles with the operation's own
    outcome.  This definition is the view of one caller on an idle queue:
    the wrapper is started at once, and what the caller awaits is the
    operation, with its outcome.  On a queue that is busy the wrapper first
    waits behind the operations ahead of it and behind the pacing timer of
    [processQueue] ([rateLimitDelay] between two operations); that wait is
    not in this definition.  It is the subject of [FetchQueue] below, and
    the properties on timers and on exact requests are stated on the
    operation that is handed to the queue, from the world in which the
    queue starts it. *)
Definition addToQueue {T} (operation : M Env T) : M Env T :=
  try_catch (result <- operation ;; ret result) (fun error => throw error).

(** ** Balance Fetcher *)

(** [new PublicKey(address)] *)
Definition new_PublicKey (address : string) : M Env string :=
  if PublicKey_valid address then ret address
  else throw (ErrorObj "Invalid public key input").

(** [balance / 1e9] *)
Definition lamports_to_sol (balance : Z) : Qc :=
  (Qc_of_Z balance / Qc_of_Z 1000000000)%Qc.

Definition fetch_log (address operation : string) (status : FetchStatus)
    (details : option string) (startTime t : Z) : FetchLog :=
  {| fl_wallet_address := address;
     fl_timestamp := t;
     fl_operation := operation;
     fl_status := status;
     fl_error_details := details;
     fl_response_time_ms := (t - startTime)%Z |}.

(** The [try] block of [getSOLBalance] up to the log. *)
Definition getSOLBalance_fetch (address : string) : M Env Z :=
  publicKey <- new_PublicKey address ;;
  addToQueue
    (withRetry
       (try_catch
          (call (EvGetBalance Primary publicKey) (rpc_getBalance Primary publicKey))
          (fun _ =>
             call (EvGetBalance Fallback publicKey) (rpc_getBalance Fallback publicKey)))
       (maxRetries cfg) 1000).

Definition getSOLBalance (address : string) : M Env Qc :=
  startTime <- now ;;
  try_catch
    (balance <- getSOLBalance_fetch address ;;
     let solBalance := lamports_to_sol balance in
     t <- now ;;
     db_write (insertFetchLog (fetch_log address "balance" StatusSuccess None startTime t)) ;;;
     ret solBalance)
    (fun error =>
       t <- now ;;
       db_write (insertFetchLog
         (fetch_log address "balance" StatusError (Some (error_message error)) startTime t)) ;;;
       throw error).

(** Both token programs on one connection, [[...splTokens.value, ...token2022s.value]]. *)
Definition token_accounts_on (c : Connection) (publicKey : string)
    : M Env (list AccountInfo) :=
  both <- promise_all2
    (call (EvGetTokenAccounts c publicKey TOKEN_PROGRAM_ID)
       (rpc_getParsedTokenAccountsByOwner c publicKey TOKEN_PROGRAM_ID))
    (call (EvGetTokenAccounts c publicKey TOKEN_2022_PROGRAM_ID)
       (rpc_getParsedTokenAccountsByOwner c publicKey TOKEN_2022_PROGRAM_ID)) ;;
  ret (fst both ++ snd both).

(** The loop over the token accounts: those with a positive [uiAmount]. *)
Fixpoint token_rows (tokenAccounts : list AccountInfo) : list TokenAccount :=
  match tokenAccounts with
  | [] => []
  | accountInfo :: rest =>
      match parsed_info accountInfo with
      | Some parsedInfo =>
          if decide (0 < pi_uiAmount parsedInfo)%Qc then
            {| ta_mint := pi_mint parsedInfo;
               ta_amount := pi_uiAmount parsedInfo;
               ta_decimals := pi_decimals parsedInfo;
               ta_symbol := None; ta_name := None; ta_usdValue := None |}
            :: token_rows rest
          else token_rows rest
      | None => token_rows rest
      end
  end.

Definition getTokenAccounts_fetch (address : string) : M Env (list AccountInfo) :=
  publicKey <- new_PublicKey address ;;
  addToQueue
    (withRetry
       (try_catch (token_accounts_on Primary publicKey)
          (fun _ => token_accounts_on Fallback publicKey))
       (maxRetries cfg) 1000).

Definition getTokenAccounts (address : string) : M Env (list TokenAccount) :=
  startTime <- now ;;
  try_catch
    (tokenAccounts <- getTokenAccounts_fetch address ;;
     let tokens := token_rows tokenAccounts in
     t <- now ;;
     db_write (insertFetchLog (fetch_log address "tokens" StatusSuccess None startTime t)) ;;;
     ret tokens)
    (fun error =>
       t <- now ;;
       db_write (insertFetchLog
         (fetch_log address "tokens" StatusError (Some (error_message error)) startTime t)) ;;;
       throw error).

(** ** Metadata Resolver *)

(** [x || null] on an optional string. *)
Definition str_or_null (s : option string) : option string :=
  match s with
  | Some v => if decide (v = "") then None else Some v
  | None => None
  end.

Definition metadata_of (token : CatalogToken) : TokenMetadata :=
  {| md_symbol := str_or (ct_symbol token) "Unknown";
     md_name := str_or (ct_name token) "Unknown Token";
     md_logoURI := str_or_null (ct_logoURI token) |}.

Definition unknown_metadata : TokenMetadata :=
  {| md_symbol := "Unknown"; md_name := "Unknown Token"; md_logoURI := None |}.

(** [tokenMap]: the catalog by address, a later entry replacing an earlier one. *)
Definition token_map (allTokens : list CatalogToken) : gmap string TokenMetadata :=
  fold_left (fun m token => <[ct_address token := metadata_of token]> m) allTokens ∅.

(** The loop over the requested mints, on the bulk path. *)
Definition metadata_from_map (tokenMap : gmap string TokenMetadata) (mints : list string)
    (metadata : gmap string TokenMetadata) : gmap string TokenMetadata :=
  fold_left
    (fun md mint =>
       match tokenMap !! mint with
       | Some tokenData => <[mint := tokenData]> md
       | None => <[mint := unknown_metadata]> md
       end)
    mints metadata.

(** The first [try] block: [Some metadata] when it returns from the method,
    [None] when control falls through to the fallback. *)
Definition metadata_bulk (mints : list string) : M Env (option (gmap string TokenMetadata)) :=
  try_catch
    (response <- call (EvFetchTokenList (jupiterTokensApiUrl cfg))
                   (fetch_token_list (jupiterTokensApiUrl cfg)) ;;
     if resp_ok response then
       allTokens <- lift (resp_json response) ;;
       ret (Some (metadata_from_map (token_map allTokens) mints ∅))
     else ret None)
    (fun _ => ret None).

(** One promise of the fallback: [{ mint, data }], [data] null on any failure. *)
Definition metadata_one (mint : string) : M Env (string * option TokenMetadata) :=
  let url := jupiterTokensApiUrl cfg +:+ "/token/" +:+ mint in
  try_catch
    (response <- call (EvFetchToken url) (fetch_token url) ;;
     if negb (resp_ok response) then ret (mint, None)
     else
       data <- lift (resp_json response) ;;
       ret (mint, Some (metadata_of data)))
    (fun _ => ret (mint, None)).

(** [results.forEach(...)] *)
Definition record_results (results : list (Result (string * option TokenMetadata)))
    (metadata : gmap string TokenMetadata) : gmap string TokenMetadata :=
  fold_left
    (fun md result =>
       match result with
       | Ok (mint, Some data) => <[mint := data]> md
       | _ => md
       end)
    results metadata.

(** The fallback's [for (let i = 0; i < mints.length; i += batchSize)].  The
    loop advances [i] by 10, so [length mints] rounds of [fuel] are never
    used up. *)
Fixpoint metadata_fallback (fuel : nat) (mints : list string) (i : nat)
    (metadata : gmap string TokenMetadata) : M Env (gmap string TokenMetadata) :=
  let batchSize := 10 in
  match fuel with
  | O => ret metadata
  | S fuel' =>
      if i <? length mints then
        let batch := slice i (i + batchSize) mints in
        results <- all_settled (map metadata_one batch) ;;
        let metadata' := record_results results metadata in
        (if i + batchSize <? length mints then sleep 100 else ret tt) ;;;
        metadata_fallback fuel' mints (i + batchSize) metadata'
      else ret metadata
  end.

Definition getTokenMetadata (mints : list string) : M Env (gmap string TokenMetadata) :=
  if length mints =? 0 then ret ∅
  else
    bulk <- metadata_bulk mints ;;
    match bulk with
    | Some metadata => ret metadata
    | None => metadata_fallback (length mints) mints 0 ∅
    end.

(** ** Price Resolver *)

(** [data[mint]] on the parsed [data] object. *)
Fixpoint price_lookup (mint : string) (data : list (string * option (option Qc)))
    : option (option (option Qc)) :=
  match data with
  | [] => None
  | (m, info) :: rest => if decide (m = mint) then Some info else price_lookup mint rest
  end.

(** [parseFloat(price || "0")] *)
Definition parse_price (price : option Qc) : Qc :=
  match price with Some p => p | None => 0%Qc end.

(** [parseFloat(data.data?.[SOL_MINT]?.price || "0")] *)
Definition sol_price_of (body : PriceBody) : Qc :=
  match pb_data body with
  | Some data =>
      match price_lookup SOL_MINT data with
      | Some (Some price) => parse_price price
      | Some None | None => 0%Qc
      end
  | None => 0%Qc
  end.

Definition SOL_LOGO : string :=
  "https://raw.githubusercontent.com/solana-labs/token-list/main/assets/mainnet/So11111111111111111111111111111111111111112/logo.png".

Definition sol_price_row (solPrice : Qc) (t : Z) : TokenPrice :=
  {| tp_mint := SOL_MINT;
     tp_symbol := "SOL";
     tp_name := "Solana";
     tp_price := solPrice;
     tp_price_change_24h := None;
     tp_market_cap := None;
     tp_image_url := Some SOL_LOGO;
     tp_last_updated := t;
     tp_source := "jupiter" |}.

(** [db.getAllTokenPrices().find(p => p.mint === SOL_MINT)] *)
Definition cached_sol (d : Db) : option TokenPrice :=
  List.find (fun p => bool_decide (tp_mint p = SOL_MINT)) (getAllTokenPrices d).

(** [cached?.price || 150] *)
Definition cached_or_default (cached : option TokenPrice) : Qc :=
  match cached with
  | Some p => num_or (tp_price p) (Qc_of_Z 150)
  | None => Qc_of_Z 150
  end.

Definition sol_price_url : string := jupiterApiUrl cfg +:+ "?ids=" +:+ SOL_MINT.

(** The [try] block of [getSOLPrice]. *)
Definition getSOLPrice_fetch : M Env Qc :=
  let url := sol_price_url in
  response <- call (EvFetchPrice url) (fetch_price url) ;;
  if negb (resp_ok response) then
    throw (ErrorObj ("Jupiter API error: " +:+ resp_status response))
  else
    data <- lift (resp_json response) ;;
    let solPrice := sol_price_of data in
    (if decide (0 < solPrice)%Qc then
       t <- now ;; db_write (upsertTokenPrice (sol_price_row solPrice t))
     else ret tt) ;;;
    ret solPrice.

Definition getSOLPrice : M Env Qc :=
  try_catch getSOLPrice_fetch
    (fun _ =>
       cached <- db_read cached_sol ;;
       ret (cached_or_default cached)).

(** [metadata[mint] || { symbol: mint === SOL_MINT ? "SOL" : "Unknown", ... }] *)
Definition metadata_or_default (metadata : gmap string TokenMetadata) (mint : string)
    : TokenMetadata :=
  match metadata !! mint with
  | Some tokenMetadata => tokenMetadata
  | None =>
      {| md_symbol := if decide (mint = SOL_MINT) then "SOL" else "Unknown";
         md_name := if decide (mint = SOL_MINT) then "Solana" else "Unknown Token";
         md_logoURI := None |}
  end.

Definition price_entry (tokenMetadata : TokenMetadata) (info : option Qc) : PriceEntry :=
  {| pe_price := parse_price info;
     pe_symbol := md_symbol tokenMetadata;
     pe_name := md_name tokenMetadata;
     pe_change24h := None;
     pe_marketCap := None |}.

Definition price_row (mint : string) (tokenMetadata : TokenMetadata) (info : option Qc)
    (t : Z) : TokenPrice :=
  {| tp_mint := mint;
     tp_symbol := md_symbol tokenMetadata;
     tp_name := md_name tokenMetadata;
     tp_price := parse_price info;
     tp_price_change_24h := None;
     tp_market_cap := None;
     tp_image_url := md_logoURI tokenMetadata;
     tp_last_updated := t;
     tp_source := "jupiter" |}.

(** The [TypeError] of reading [info.price] on an entry that is [null]; the
    text of its message is the runtime's. *)
Definition null_price_error : exn :=
  ErrorObj "null is not an object (evaluating 'info.price')".

(** [for (const [mint, priceInfo] of Object.entries(pricesData.data || {}))]:
    [info.price] is read with no guard, so a [null] entry raises before
    anything is written for its mint; what was written for the entries
    before it stays. *)
Fixpoint store_prices (entries : list (string * option (option Qc)))
    (metadata : gmap string TokenMetadata) (prices : gmap string PriceEntry)
    : M Env (gmap string PriceEntry) :=
  match entries with
  | [] => ret prices
  | (mint, priceInfo) :: rest =>
      let tokenMetadata := metadata_or_default metadata mint in
      match priceInfo with
      | None => throw null_price_error
      | Some info =>
          t <- now ;;
          db_write (upsertTokenPrice (price_row mint tokenMetadata info t)) ;;;
          store_prices rest metadata (<[mint := price_entry tokenMetadata info]> prices)
      end
  end.

Definition mintsWithSol (mints : list string) : list string := uniq (mints ++ [SOL_MINT]).

Definition price_url (mints : list string) : string :=
  jupiterApiUrl cfg +:+ "?ids=" +:+ join "," (mintsWithSol mints).

(** The [try] block of [getTokenPrices] up to the log. *)
Definition getTokenPrices_fetch (mints : list string) : M Env (gmap string PriceEntry) :=
  both <- promise_all2
    (call (EvFetchPrice (price_url mints)) (fetch_price (price_url mints)))
    (getTokenMetadata (mintsWithSol mints)) ;;
  let pricesResponse := fst both in
  let metadata := snd both in
  if negb (resp_ok pricesResponse) then
    throw (ErrorObj ("Jupiter API error: " +:+ resp_status pricesResponse))
  else
    pricesData <- lift (resp_json pricesResponse) ;;
    store_prices (default [] (pb_data pricesData)) metadata ∅.

Definition getTokenPrices (mints : list string) : M Env (gmap string PriceEntry) :=
  if length mints =? 0 then ret ∅
  else
    startTime <- now ;;
    try_catch
      (prices <- getTokenPrices_fetch mints ;;
       t <- now ;;
       db_write (insertFetchLog (fetch_log "system" "prices" StatusSuccess None startTime t)) ;;;
       ret prices)
      (fun error =>
         t <- now ;;
         db_write (insertFetchLog
           (fetch_log "system" "prices" StatusError (Some (error_message error)) startTime t)) ;;;
         throw error).

(** ** Wallet pipeline *)

(** The callback of [tokenAccounts.map] in [getWalletData]. *)
Definition enhance (metadata : gmap string TokenMetadata) (prices : gmap string PriceEntry)
    (token : TokenAccount) : TokenAccount :=
  let tokenMetadata := metadata !! ta_mint token in
  let priceData := prices !! ta_mint token in
  {| ta_mint := ta_mint token;
     ta_amount := ta_amount token;
     ta_decimals := ta_decimals token;
     ta_symbol :=
       Some (str_or (md_symbol <$> tokenMetadata)
               (str_or (pe_symbol <$> priceData) "Unknown"));
     ta_name :=
       Some (str_or (md_name <$> tokenMetadata)
               (str_or (pe_name <$> priceData) "Unknown Token"));
     ta_usdValue :=
       Some (match priceData with
             | Some pd => (ta_amount token * pe_price pd)%Qc
             | None => 0%Qc
             end) |}.

(** [token.usdValue || 0] *)
Definition usd_or_zero (token : TokenAccount) : Qc :=
  match ta_usdValue token with
  | Some v => num_or v 0%Qc
  | None => 0%Qc
  end.

(** [enhancedTokens.reduce((sum, token) => sum + (token.usdValue || 0), 0)] *)
Definition total_usd (enhancedTokens : list TokenAccount) : Qc :=
  fold_left (fun sum token => (sum + usd_or_zero token)%Qc) enhancedTokens 0%Qc.

Definition success_row (address walletId : string) (solBalance : Qc)
    (enhancedTokens : list TokenAccount) (t : Z) : WalletBalance :=
  {| wb_wallet_address := address;
     wb_wallet_id := walletId;
     wb_sol_balance := solBalance;
     wb_tokens := enhancedTokens;
     wb_last_updated := t;
     wb_fetch_status := StatusSuccess;
     wb_error_message := None;
     wb_retry_count := 0 |}.

Definition error_row (address walletId : string) (error : exn) (t : Z) : WalletBalance :=
  {| wb_wallet_address := address;
     wb_wallet_id := walletId;
     wb_sol_balance := 0%Qc;
     wb_tokens := [];
     wb_last_updated := t;
     wb_fetch_status := StatusError;
     wb_error_message := Some (error_message error);
     wb_retry_count := 0 |}.

(** The [try] block of [getWalletData]. *)
Definition getWalletData_try (address walletId : string) : M Env WalletData :=
  fetched <- promise_all2 (getSOLBalance address) (getTokenAccounts address) ;;
  let solBalance := fst fetched in
  let tokenAccounts := snd fetched in
  let mints := map ta_mint tokenAccounts in
  resolved <- promise_all2 (getTokenMetadata mints) (getTokenPrices mints) ;;
  let metadata := fst resolved in
  let prices := snd resolved in
  let enhancedTokens := map (enhance metadata prices) tokenAccounts in
  let totalUsdValue := total_usd enhancedTokens in
  t <- now ;;
  let walletData :=
    {| wd_address := address;
       wd_solBalance := solBalance;
       wd_tokens := enhancedTokens;
       wd_totalUsdValue := totalUsdValue;
       wd_lastUpdated := t |} in
  db_write (upsertWalletBalance (success_row address walletId solBalance enhancedTokens t)) ;;;
  ret walletData.

Definition getWalletData (address walletId : string) : M Env WalletData :=
  try_catch (getWalletData_try address walletId)
    (fun error =>
       t <- now ;;
       db_write (upsertWalletBalance (error_row address walletId error t)) ;;;
       throw error).

(** ** Batch Orchestrator *)

(** One promise of a chunk: the callback of [batch.map], acting on the
    shared [results]. *)
Definition process_wallet (wallet : Wallet) (results : BatchResults) : M Env BatchResults :=
  try_catch
    (getWalletData (wallet_address wallet) (wallet_id wallet) ;;;
     ret {| successful := S (successful results);
            failed := failed results;
            errors := errors results |})
    (fun error =>
       ret {| successful := successful results;
              failed := S (failed results);
              errors := errors results
                        ++ [wallet_address wallet +:+ ": " +:+ error_message error] |}).

(** [await Promise.allSettled(promises)] over one chunk. *)
Fixpoint process_chunk (batch : list Wallet) (results : BatchResults) : M Env BatchResults :=
  match batch with
  | [] => ret results
  | wallet :: rest =>
      results' <- process_wallet wallet results ;;
      process_chunk rest results'
  end.

(** [for (let i = 0; i < wallets.length; i += batchSize)].  The loop need
    not end ([batchSize] may be 0): [None] is a run that used up [fuel]
    rounds without leaving the loop. *)
Fixpoint batch_loop (fuel : nat) (wallets : list Wallet) (batchSize i : nat)
    (results : BatchResults) : M Env (option BatchResults) :=
  match fuel with
  | O => ret None
  | S fuel' =>
      if i <? length wallets then
        let batch := slice i (i + batchSize) wallets in
        results' <- process_chunk batch results ;;
        (if i + batchSize <? length wallets then sleep 2000 else ret tt) ;;;
        batch_loop fuel' wallets batchSize (i + batchSize) results'
      else ret (Some results)
  end.

Definition processWalletBatch (fuel : nat) (wallets : list Wallet) (batchSize : nat)
    : M Env (option BatchResults) :=
  batch_loop fuel wallets batchSize 0
    {| successful := 0; failed := 0; errors := [] |}.

End Engine.

(** ** Fetch Queue: the scheduling of [requestQueue]

    The queue of [SolanaService] as a transition system over the event
    loop.  A queued wrapper is named by its operation.  A call of
    [processQueue] that has not returned is an _activation_, suspended at
    one of its two [await]s or ready to go on after the first.  The
    outside moves the system by three kinds of stimulus: a caller submits
    an operation, the operation in flight settles, a pacing timer fires;
    [Resume] lets a ready activation run to its next [await]. *)
Module FetchQueue.

Section WithResults.

Context {T : Type}.

Definition OpId : Type := nat.

Inductive Suspended : Type :=
  | AwaitOperation (op : OpId)
  | Ready
  | AwaitTimer.

(** What can be observed of the queue, in order. *)
Inductive Obs : Type :=
  | Submitted (op : OpId)
  | Started (op : OpId)
  | Settled (op : OpId) (outcome : Result T)
  | Delayed (ms : Z).

Record State : Type := {
  requestQueue : list OpId;
  isProcessingQueue : bool;
  activations : list Suspended;
  observed : list Obs
}.

Definition initial : State :=
  {| requestQueue := []; isProcessingQueue := false; activations := []; observed := [] |}.

Global Instance Suspended_eq_dec : EqDecision Suspended.
Proof. solve_decision. Defined.

(** The [while] loop from its head to the next [await]: shift a wrapper and
    start it, or leave the loop and clear [isProcessingQueue]. *)
Definition loop_head (s : State) : State :=
  match requestQueue s with
  | [] =>
      {| requestQueue := [];
         isProcessingQueue := false;
         activations := activations s;
         observed := observed s |}
  | operation :: rest =>
      {| requestQueue := rest;
         isProcessingQueue := isProcessingQueue s;
         activations := activations s ++ [AwaitOperation operation];
         observed := observed s ++ [Started operation] |}
  end.

Definition processQueue (s : State) : State :=
  if isProcessingQueue s || (length (requestQueue s) =? 0) then s
  else
    loop_head
      {| requestQueue := requestQueue s;
         isProcessingQueue := true;
         activations := activations s;
         observed := observed s |}.

Definition addToQueue (operation : OpId) (s : State) : State :=
  let s1 :=
    {| requestQueue := requestQueue s ++ [operation];
       isProcessingQueue := isProcessingQueue s;
       activations := activations s;
       observed := observed s ++ [Submitted operation] |} in
  if negb (isProcessingQueue s1) then processQueue s1 else s1.

(** Removes the first activation equal to [a]. *)
Fixpoint remove_first (a : Suspended) (l : list Suspended) : list Suspended :=
  match l with
  | [] => []
  | b :: rest => if decide (a = b) then rest else b :: remove_first a rest
  end.

(** The operation in flight settles: its wrapper resolves or rejects the
    submitter's promise with the operation's outcome, and the activation
    that awaited the wrapper becomes ready. *)
Definition operation_settles (operation : OpId) (outcome : Result T) (s : State)
    : option State :=
  if decide (AwaitOperation operation ∈ activations s) then
    Some {| requestQueue := requestQueue s;
            isProcessingQueue := isProcessingQueue s;
            activations := remove_first (AwaitOperation operation) (activations s) ++ [Ready];
            observed := observed s ++ [Settled operation outcome] |}
  else None.

(** After [await operation()]: the pacing delay when work is waiting, the
    head of the loop otherwise. *)
Definition resume (rateLimitDelay : Z) (s : State) : option State :=
  if decide (Ready ∈ activations s) then
    let s1 :=
      {| requestQueue := requestQueue s;
         isProcessingQueue := isProcessingQueue s;
         activations := remove_first Ready (activations s);
         observed := observed s |} in
    if 0 <? length (requestQueue s1) then
      Some {| requestQueue := requestQueue s1;
              isProcessingQueue := isProcessingQueue s1;
              activations := activations s1 ++ [AwaitTimer];
              observed := observed s1 ++ [Delayed rateLimitDelay] |}
    else Some (loop_head s1)
  else None.

Definition timer_fires (s : State) : option State :=
  if decide (AwaitTimer ∈ activations s) then
    Some (loop_head
            {| requestQueue := requestQueue s;
               isProcessingQueue := isProcessingQueue s;
               activations := remove_first AwaitTimer (activations s);
               observed := observed s |})
  else None.

Inductive Stimulus : Type :=
  | Submit (operation : OpId)
  | OperationSettles (operation : OpId) (outcome : Result T)
  | Resume
  | TimerFires.

Definition step (rateLimitDelay : Z) (s : State) (e : Stimulus) : option State :=
  match e with
  | Submit operation => Some (addToQueue operation s)
  | OperationSettles operation outcome => operation_settles operation outcome s
  | Resume => resume rateLimitDelay s
  | TimerFires => timer_fires s
  end.

Fixpoint run (rateLimitDelay : Z) (s : State) (es : list Stimulus) : option State :=
  match es with
  | [] => Some s
  | e :: rest =>
      match step rateLimitDelay s e with
      | Some s' => run rateLimitDelay s' rest
      | None => None
      end
  end.

(** Projections of what was observed. *)
Definition submitted (l : list Obs) : list OpId :=
  omap (fun o => match o with Submitted op => Some op | _ => None end) l.

Definition started (l : list Obs) : list OpId :=
  omap (fun o => match o with Started op => Some op | _ => None end) l.

Definition settled (l : list Obs) : list (OpId * Result T) :=
  omap (fun o => match o with Settled op r => Some (op, r) | _ => None end) l.

Definition pacing (l : list Obs) : list Z :=
  omap (fun o => match o with Delayed ms => Some ms | _ => None end) l.

(** The operations in flight: started, not yet settled. *)
Definition in_flight (s : State) : list OpId :=
  omap (fun a => match a with AwaitOperation op => Some op | _ => None end) (activations s).

(** The outcomes the outside delivered, in order. *)
Definition settlements (es : list Stimulus) : list (OpId * Result T) :=
  omap (fun e => match e with OperationSettles op r => Some (op, r) | _ => None end) es.

(** A burst: [ops] all submitted before the first of them settles, then
    each in turn settles, the queue resumes and, when a timer was set, the
    timer fires. *)
Fixpoint drain (outcome : OpId → Result T) (ops : list OpId) : list Stimulus :=
  match ops with
  | [] => []
  | [op] => [OperationSettles op (outcome op); Resume]
  | op :: rest => OperationSettles op (outcome op) :: Resume :: TimerFires :: drain outcome rest
  end.

Definition burst (outcome : OpId → Result T) (ops : list OpId) : list Stimulus :=
  map Submit ops ++ drain outcome ops.

End WithResults.

Arguments Obs : clear implicits.
Arguments initial : clear implicits.
Arguments State : clear implicits.
Arguments Stimulus : clear implicits.

End FetchQueue.

(** ** A scripted outside

    A concrete [Provider], to run the engine on given inputs: every call to
    the outside is answered by a script, which sees how many calls were
    answered before; a call takes one millisecond, a timer its delay. *)
Record Script : Type := {
  script_valid : string → bool;
  script_balance : nat → Connection → string → Result Z;
  script_accounts : nat → Connection → string → ProgramId → Result (list AccountInfo);
  script_token_list : nat → string → Result (Response (list CatalogToken));
  script_token : nat → string → Result (Response CatalogToken);
  script_price : nat → string → Result (Response PriceBody)
}.

Record Outside : Type := { clock : Z; calls : nat }.

Definition answered (o : Outside) : Outside :=
  {| clock := clock o + 1; calls := S (calls o) |}.

Definition scripted (sc : Script) : Provider Outside :=
  {| Date_now o := clock o;
     setTimeout ms o := {| clock := clock o + ms; calls := calls o |};
     PublicKey_valid := script_valid sc;
     rpc_getBalance c pk o := (script_balance sc (calls o) c pk, answered o);
     rpc_getParsedTokenAccountsByOwner c pk prog o :=
       (script_accounts sc (calls o) c pk prog, answered o);
     fetch_token_list url o := (script_token_list sc (calls o) url, answered o);
     fetch_token url o := (script_token sc (calls o) url, answered o);
     fetch_price url o := (script_price sc (calls o) url, answered o) |}.

Definition empty_db : Db :=
  {| wallet_balances := ∅; token_prices := []; fetch_logs := [] |}.

(** The world at start-up, over a given cache store. *)
Definition boot (d : Db) : World Outside :=
  {| db := d; env := {| clock := 0; calls := 0 |}; trace := [] |}.

(** A cache store that holds one price for the native mint. *)
Definition sol_cached (price : Qc) : Db :=
  {| wallet_balances := ∅;
     token_prices :=
       [ {| tp_mint := SOL_MINT; tp_symbol := "SOL"; tp_name := "Solana";
            tp_price := price; tp_price_change_24h := None; tp_market_cap := None;
            tp_image_url := None; tp_last_updated := 0; tp_source := "jupiter" |} ];
     fetch_logs := [] |}.

Definition unavailable : exn := ErrorObj "503 Service Unavailable".

(** A script in which nothing answers. *)
Definition outage : Script :=
  {| script_valid := fun _ => true;
     script_balance := fun _ _ _ => Throw unavailable;
     script_accounts := fun _ _ _ _ => Throw unavailable;
     script_token_list := fun _ _ => Throw unavailable;
     script_token := fun _ _ => Throw unavailable;
     script_price := fun _ _ => Throw unavailable |}.

(** The balance call fails twice, then answers 2.5 SOL in lamports. *)
Definition flaky_balance : Script :=
  {| script_valid := fun _ => true;
     script_balance := fun n _ _ => if n <? 2 then Throw unavailable else Ok 2500000000%Z;
     script_accounts := fun _ _ _ _ => Ok [];
     script_token_list := fun _ _ => Throw unavailable;
     script_token := fun _ _ => Throw unavailable;
     script_price := fun _ _ => Throw unavailable |}.

(** ** Vocabulary of the properties *)

(** What holds of every state the queue can reach: idle means no activation
    and nothing queued, busy means one activation; the submissions are the
    operations started, in order, followed by those still queued; the
    operations started are those settled, in order, followed by the one in
    flight. *)
Record queue_inv {T} (s : FetchQueue.State T) : Prop := {
  inv_idle :
    FetchQueue.isProcessingQueue s = false →
    FetchQueue.activations s = [] ∧ FetchQueue.requestQueue s = [];
  inv_busy :
    FetchQueue.isProcessingQueue s = true → ∃ a, FetchQueue.activations s = [a];
  inv_fifo :
    FetchQueue.submitted (FetchQueue.observed s)
    = FetchQueue.started (FetchQueue.observed s) ++ FetchQueue.requestQueue s;
  inv_serial :
    FetchQueue.started (FetchQueue.observed s)
    = map fst (FetchQueue.settled (FetchQueue.observed s)) ++ FetchQueue.in_flight s
}.


(** [respects R m]: from any world, [m] ends in a world related by [R] to
    the one it started from, whether it returns or throws. *)
Definition respects {Env A} (R : relation (World Env)) (m : M Env A) : Prop :=
  ∀ w, R w (snd (m w)).

(** Relations that look at the cache store only, or at the trace only. *)
Definition on_db {Env} (Rd : relation Db) : relation (World Env) :=
  fun w w' => Rd (db w) (db w').

Definition on_trace {Env} (Rt : relation (list Event)) : relation (World Env) :=
  fun w w' => Rt (trace w) (trace w').

(** The log of the second store extends the log of the first. *)
Definition log_grows (d d' : Db) : Prop := fetch_logs d `prefix_of` fetch_logs d'.

(** Between [w] and [w'] exactly one entry was appended to the log, for
    [address] and [operation], stamped with the time of [w'], with the time
    elapsed since [w] as its latency, and with the status and error detail
    of the outcome [r]. *)
Definition logged_once {Env} {provider : Provider Env} {A}
    (address operation : string) (w w' : World Env) (r : Result A) : Prop :=
  ∃ entry,
    fetch_logs (db w') = fetch_logs (db w) ++ [entry]
    ∧ fl_wallet_address entry = address
    ∧ fl_operation entry = operation
    ∧ fl_timestamp entry = Date_now (env w')
    ∧ fl_response_time_ms entry = (Date_now (env w') - Date_now (env w))%Z
    ∧ match r with
      | Ok _ => fl_status entry = StatusSuccess ∧ fl_error_details entry = None
      | Throw error =>
          fl_status entry = StatusError
          ∧ fl_error_details entry = Some (error_message error)
      end.

(** [l] cut into consecutive chunks of [n] elements, the last one possibly
    shorter.  The chunks shrink [l], so [length l] rounds are enough. *)
Fixpoint chunks_upto {A} (fuel n : nat) (l : list A) : list (list A) :=
  match fuel with
  | O => []
  | S fuel' =>
      match l with
      | [] => []
      | _ :: _ => take n l :: chunks_upto fuel' n (drop n l)
      end
  end.

Definition chunks {A} (n : nat) (l : list A) : list (list A) :=
  chunks_upto (length l) n l.

(** Chunks processed one after the other by [body], with a timer of
    [pause] between two chunks and none after the last. *)
Fixpoint run_chunks {Env} {provider : Provider Env} {A S}
    (body : list A → S → M Env S) (pause : Z) (cs : list (list A)) (st : S) : M Env S :=
  match cs with
  | [] => ret st
  | c :: rest =>
      st' <- body c st ;;
      (match rest with [] => ret tt | _ :: _ => sleep pause end) ;;;
      run_chunks body pause rest st'
  end.

(** The entry of the errors list for a wallet that failed with [error]. *)
Definition error_entry (wallet : Wallet) (error : exn) : string :=
  wallet_address wallet +:+ ": " +:+ error_message error.

(** The outcome of one per-mint lookup, from what [fetch] delivered: the
    metadata read from the body, or nothing when the lookup failed. *)
Definition lookup_outcome (r : Result (Response CatalogToken)) : option TokenMetadata :=
  match r with
  | Ok response =>
      if resp_ok response then
        match resp_json response with
        | Ok data => Some (metadata_of data)
        | Throw _ => None
        end
      else None
  | Throw _ => None
  end.

(** The metadata after a sequence of lookups: every lookup that succeeded
    sets the entry of its mint. *)
Definition record_outcomes (outcomes : list (string * option TokenMetadata))
    (metadata : gmap string TokenMetadata) : gmap string TokenMetadata :=
  fold_left
    (fun md outcome =>
       match outcome with
       | (mint, Some data) => <[mint := data]> md
       | (_, None) => md
       end)
    outcomes metadata.

Section FallbackVocabulary.

Context {Env : Type} {provider : Provider Env}.
Variable cfg : Config.

Definition token_url (mint : string) : string :=
  jupiterTokensApiUrl cfg +:+ "/token/" +:+ mint.

(** One chunk of the fallback: the lookups of its mints, then their record. *)
Definition resolve_chunk (batch : list string) (metadata : gmap string TokenMetadata)
    : M Env (gmap string TokenMetadata) :=
  results <- all_settled (map (metadata_one cfg) batch) ;;
  ret (record_results results metadata).

(** The requests of the fallback: one lookup per mint, chunk by chunk, and
    a timer of 100 ms between two chunks. *)
Fixpoint fallback_events (cs : list (list string)) : list Event :=
  match cs with
  | [] => []
  | c :: rest =>
      map (fun mint => EvFetchToken (token_url mint)) c
      ++ match rest with [] => [] | _ :: _ => [EvTimeout 100] end
      ++ fallback_events rest
  end.

(** [outcomes] are outcomes of lookups of their mints. *)
Definition lookups (outcomes : list (string * option TokenMetadata)) : Prop :=
  Forall
    (fun outcome =>
       ∃ e0, snd outcome = lookup_outcome (fst (fetch_token (token_url (fst outcome)) e0)))
    outcomes.

End FallbackVocabulary.

(** The price queries in a trace: the URLs fetched from the price API. *)
Fixpoint price_queries (t : list Event) : list string :=
  match t with
  | [] => []
  | EvFetchPrice url :: rest => url :: price_queries rest
  | _ :: rest => price_queries rest
  end.

(** The second trace has the price queries of the first, and no other. *)
Definition same_price_queries (t t' : list Event) : Prop :=
  price_queries t' = price_queries t.

(** [rows.find(p => p.mint === mint)] *)
Definition find_price (mint : string) (d : Db) : option TokenPrice :=
  List.find (fun p => bool_decide (tp_mint p = mint)) (getAllTokenPrices d).

(** The entries that the loop of [getTokenPrices] reads: those before the
    first [null] entry, with their prices. *)
Fixpoint readable (entries : list (string * option (option Qc)))
    : list (string * option Qc) :=
  match entries with
  | (mint, Some info) :: rest => (mint, info) :: readable rest
  | _ => []
  end.

(** Whether an entry is [null]. *)
Fixpoint null_entry (entries : list (string * option (option Qc))) : bool :=
  match entries with
  | [] => false
  | (_, None) :: _ => true
  | (_, Some _) :: rest => null_entry rest
  end.

(** The store after the prices of [entries] were upserted at time [t]. *)
Definition stored (entries : list (string * option Qc))
    (metadata : gmap string TokenMetadata) (t : Z) (d : Db) : Db :=
  fold_left
    (fun d entry =>
       upsertTokenPrice
         (price_row (fst entry) (metadata_or_default metadata (fst entry)) (snd entry) t) d)
    entries d.

(** The [prices] object after the loop over [entries]. *)
Definition priced (entries : list (string * option Qc))
    (metadata : gmap string TokenMetadata) (prices : gmap string PriceEntry)
    : gmap string PriceEntry :=
  fold_left
    (fun p entry =>
       <[fst entry := price_entry (metadata_or_default metadata (fst entry)) (snd entry)]> p)
    entries prices.

Section PriceVocabulary.

Context {Env : Type} {provider : Provider Env}.

(** The world [getTokenPrices] leaves when it raises [error], entered in
    [w] and with the metadata resolved by [w2]: the log has one more
    entry, the rest of the store is as it was. *)
Definition prices_failed (w w2 : World Env) (error : exn) : World Env :=
  Build_World
    (insertFetchLog
       (fetch_log "system" "prices" StatusError (Some (error_message error))
          (Date_now (env w)) (Date_now (env w2)))
       (db w))
    (env w2) (trace w2).

(** What [getTokenPrices] does with what the price query delivered. *)
Definition prices_outcome (w w2 : World Env) (metadata : gmap string TokenMetadata)
    (r : Result (Response PriceBody)) : Result (gmap string PriceEntry) * World Env :=
  match r with
  | Ok response =>
      if resp_ok response then
        match resp_json response with
        | Ok body =>
            let entries := default [] (pb_data body) in
            if null_entry entries then
              (Throw null_price_error,
               Build_World
                 (insertFetchLog
                    (fetch_log "system" "prices" StatusError
                       (Some (error_message null_price_error))
                       (Date_now (env w)) (Date_now (env w2)))
                    (stored (readable entries) metadata (Date_now (env w2)) (db w)))
                 (env w2) (trace w2))
            else
              (Ok (priced (readable entries) metadata ∅),
               Build_World
                 (insertFetchLog
                    (fetch_log "system" "prices" StatusSuccess None
                       (Date_now (env w)) (Date_now (env w2)))
                    (stored (readable entries) metadata (Date_now (env w2)) (db w)))
                 (env w2) (trace w2))
        | Throw error => (Throw error, prices_failed w w2 error)
        end
      else
        (Throw (ErrorObj ("Jupiter API error: " +:+ resp_status response)),
         prices_failed w w2 (ErrorObj ("Jupiter API error: " +:+ resp_status response)))
  | Throw error => (Throw error, prices_failed w w2 error)
  end.

End PriceVocabulary.

(** The USD value of a holding, 0 when it has none. *)
Definition usd_value (token : TokenAccount) : Qc := default 0%Qc (ta_usdValue token).

(** The sum of the USD values of the holdings. *)
Definition sum_usd (tokens : list TokenAccount) : Qc :=
  foldr Qcplus 0%Qc (map usd_value tokens).

(** [results'] is [results] after the wallets of [batch] were processed:
    every wallet was counted once, as a success or as a failure, and every
    failure added one entry, naming a wallet of [batch], to the errors. *)
Definition tally (batch : list Wallet) (results results' : BatchResults) : Prop :=
  ∃ new,
    errors results' = errors results ++ new
    ∧ failed results' = failed results + length new
    ∧ successful results' + length new = successful results + length batch
    ∧ Forall (fun entry => ∃ wallet error, wallet ∈ batch ∧ entry = error_entry wallet error)
        new.

(** A run that left the loop with its results. *)
Definition finished {Env A} (r : Result A * World Env) : Result (option A) * World Env :=
  match r with
  | (Ok a, w) => (Ok (Some a), w)
  | (Throw error, w) => (Throw error, w)
  end.

Definition ok_response {A} (body : A) : Response A :=
  {| resp_ok := true; resp_status := "200"; resp_json := Ok body |}.

(** A wallet of 2.5 SOL and 100 tokens of mint M1; the catalog lists M1;
    the price provider quotes M1 at 0.50 and the native mint at 150. *)
Definition one_token_script : Script :=
  {| script_valid := fun _ => true;
     script_balance := fun _ _ _ => Ok 2500000000%Z;
     script_accounts := fun _ _ _ programId =>
       match programId with
       | TOKEN_PROGRAM_ID =>
           Ok [ {| parsed_info :=
                     Some {| pi_mint := "M1"; pi_uiAmount := Qc_of_Z 100; pi_decimals := 6 |} |} ]
       | TOKEN_2022_PROGRAM_ID => Ok []
       end;
     script_token_list := fun _ _ =>
       Ok (ok_response
             [ {| ct_address := "M1"; ct_symbol := Some "ONE";
                  ct_name := Some "Token One"; ct_logoURI := None |} ]);
     script_token := fun _ _ => Throw unavailable;
     script_price := fun _ _ =>
       Ok (ok_response
             {| pb_data := Some [ ("M1", Some (Some (Q2Qc (1 # 2))));
                                  (SOL_MINT, Some (Some (Qc_of_Z 150))) ] |}) |}.

(** The catalog is out; of the per-mint lookups only that of X answers. *)
Definition partial_script : Script :=
  {| script_valid := fun _ => true;
     script_balance := fun _ _ _ => Throw unavailable;
     script_accounts := fun _ _ _ _ => Throw unavailable;
     script_token_list := fun _ _ => Throw unavailable;
     script_token := fun _ url =>
       if String.eqb url "https://lite-api.jup.ag/tokens/v1/token/X" then
         Ok (ok_response {| ct_address := "X"; ct_symbol := Some "EX";
                            ct_name := None; ct_logoURI := None |})
       else Throw unavailable;
     script_price := fun _ _ => Throw unavailable |}.

(** The first price query is answered, with an entry for the native mint
    that carries no price; after that the provider is out. *)
Definition unpriced_sol_script : Script :=
  {| script_valid := fun _ => true;
     script_balance := fun _ _ _ => Throw unavailable;
     script_accounts := fun _ _ _ _ => Throw unavailable;
     script_token_list := fun _ _ => Throw unavailable;
     script_token := fun _ _ => Throw unavailable;
     script_price := fun n _ =>
       if n =? 0 then Ok (ok_response {| pb_data := Some [ (SOL_MINT, Some None) ] |})
       else Throw unavailable |}.

(** Twelve wallets; the address of the last one is not a public key. *)
Definition twelve_wallets : list Wallet :=
  map (fun a => {| wallet_id := "id-" +:+ a; wallet_address := a |})
    ["W01"; "W02"; "W03"; "W04"; "W05"; "W06"; "W07"; "W08"; "W09"; "W10"; "W11"; "bad"].

(** Every address but ["bad"] is valid and holds 1 SOL and no token. *)
Definition twelve_script : Script :=
  {| script_valid := fun a => negb (String.eqb a "bad");
     script_balance := fun _ _ _ => Ok 1000000000%Z;
     script_accounts := fun _ _ _ _ => Ok [];
     script_token_list := fun _ _ => Throw unavailable;
     script_token := fun _ _ => Throw unavailable;
     script_price := fun _ _ => Throw unavailable |}.

(** ** The rest of the service *)

Section Service.

Context {Env : Type} {provider : Provider Env}.
Variable cfg : Config.

(** [try { new PublicKey(address); return true } catch { return false }] *)
Definition isValidSolanaAddress (address : string) : M Env bool :=
  try_catch (new_PublicKey address ;;; ret true) (fun _ => ret false).

(** [db.getStaleTokenPrices(maxAgeMinutes)] of the cache store, which is not
    part of the sources: the rows it selects from the price table, given the
    age limit and the time of the call. *)
Variable getStaleTokenPrices : Z → Z → Db → list TokenPrice.

Definition refreshStaleTokenPrices : M Env unit :=
  t <- now ;;
  staleTokens <- db_read (getStaleTokenPrices 30 t) ;;
  if length staleTokens =? 0 then ret tt
  else
    let mints := map tp_mint staleTokens in
    try_catch (getTokenPrices cfg mints ;;; ret tt) (fun _ => ret tt).

Definition getCachedTokenPrices : M Env (list TokenPrice) := db_read getAllTokenPrices.

End Service.

(** ** The HTTP API over the cache store ([routes/api.ts]) *)

(** What a route answers: the HTTP status and the fields of the JSON body
    that are present. *)
Record Reply (A : Type) : Type := {
  reply_status : Z;
  reply_success : bool;
  reply_data : option A;
  reply_error : option string;
  reply_message : option string;
  reply_timestamp : option Z
}.
Arguments reply_status {A} _.
Arguments reply_success {A} _.
Arguments reply_data {A} _.
Arguments reply_error {A} _.
Arguments reply_message {A} _.
Arguments reply_timestamp {A} _.

(** [c.json({ success: true, data, timestamp })] *)
Definition json_data {A} (data : A) (t : Z) : Reply A :=
  {| reply_status := 200; reply_success := true; reply_data := Some data;
     reply_error := None; reply_message := None; reply_timestamp := Some t |}.

(** [c.json({ success: true, message, timestamp })] *)
Definition json_message {A} (message : string) (t : Z) : Reply A :=
  {| reply_status := 200; reply_success := true; reply_data := None;
     reply_error := None; reply_message := Some message; reply_timestamp := Some t |}.

(** [c.json({ success: false, error }, status)] *)
Definition json_error {A} (error : string) (status : Z) : Reply A :=
  {| reply_status := status; reply_success := false; reply_data := None;
     reply_error := Some error; reply_message := None; reply_timestamp := None |}.

(** Modelled from the spec: [getAllWalletBalances() → WalletRecord[]] of the
    missing cache store, the records of the table, one per address; the spec
    gives no order. *)
Definition getAllWalletBalances (d : Db) : list WalletBalance :=
  map snd (map_to_list (wallet_balances d)).

(** The [data] of [/wallets/balance/:address]. *)
Record WalletView : Type := {
  wv_walletAddress : string;
  wv_walletId : string;
  wv_solBalance : Qc;
  wv_tokens : list TokenAccount;
  wv_lastUpdated : Z;
  wv_fetchStatus : FetchStatus;
  wv_errorMessage : option string
}.

Definition wallet_view (balance : WalletBalance) : WalletView :=
  {| wv_walletAddress := wb_wallet_address balance;
     wv_walletId := wb_wallet_id balance;
     wv_solBalance := wb_sol_balance balance;
     wv_tokens := wb_tokens balance;
     wv_lastUpdated := wb_last_updated balance;
     wv_fetchStatus := wb_fetch_status balance;
     wv_errorMessage := wb_error_message balance |}.

(** A JavaScript [Map] with string keys: the entries in insertion order;
    [set] on a key that is present replaces its value where it stands. *)
Fixpoint map_get {V} (key : string) (m : list (string * V)) : option V :=
  match m with
  | [] => None
  | (k, v) :: rest => if decide (k = key) then Some v else map_get key rest
  end.

Fixpoint map_set {V} (key : string) (value : V) (m : list (string * V))
    : list (string * V) :=
  match m with
  | [] => [(key, value)]
  | (k, v) :: rest =>
      if decide (k = key) then (key, value) :: rest
      else (k, v) :: map_set key value rest
  end.

(** [new Map(entries)] *)
Definition new_Map {V} (entries : list (string * V)) : list (string * V) :=
  fold_left (fun m entry => map_set (fst entry) (snd entry) m) entries [].

(** [array.sort(compare)]: [compare a b > 0] puts [a] after [b]; the sort is
    stable, elements that compare equal keep their order. *)
Fixpoint sort_insert {A} (compare : A → A → Qc) (x : A) (sorted : list A) : list A :=
  match sorted with
  | [] => [x]
  | y :: rest =>
      if decide (0 < compare x y)%Qc then y :: sort_insert compare x rest
      else x :: y :: rest
  end.

Definition sort {A} (compare : A → A → Qc) (l : list A) : list A :=
  foldr (sort_insert compare) [] l.

(** An entry of [tokenMap] in [/tokens/aggregated]; [imageUrl] is set only
    when the mint has a price row, to the row's image or [null]. *)
Record AggregatedToken : Type := {
  at_mint : string;
  at_symbol : string;
  at_name : string;
  at_totalAmount : Qc;
  at_totalValue : Qc;
  at_walletCount : nat;
  at_price : Qc;
  at_priceChange24h : Qc;
  at_imageUrl : option (option string)
}.

(** The body of [for (const token of tokens)]. *)
Definition aggregate_token (tokenMap : list (string * AggregatedToken))
    (token : TokenAccount) : list (string * AggregatedToken) :=
  let existing :=
    default
      {| at_mint := ta_mint token;
         at_symbol := str_or (ta_symbol token) "Unknown";
         at_name := str_or (ta_name token) "Unknown Token";
         at_totalAmount := 0%Qc;
         at_totalValue := 0%Qc;
         at_walletCount := 0;
         at_price := 0%Qc;
         at_priceChange24h := 0%Qc;
         at_imageUrl := None |}
      (map_get (ta_mint token) tokenMap) in
  map_set (ta_mint token)
    {| at_mint := at_mint existing;
       at_symbol := at_symbol existing;
       at_name := at_name existing;
       at_totalAmount := (at_totalAmount existing + num_or (ta_amount token) 0%Qc)%Qc;
       at_totalValue := (at_totalValue existing + usd_or_zero token)%Qc;
       at_walletCount := S (at_walletCount existing);
       at_price := at_price existing;
       at_priceChange24h := at_priceChange24h existing;
       at_imageUrl := at_imageUrl existing |}
    tokenMap.

(** [for (const wallet of allBalances)] *)
Definition aggregate_wallets (allBalances : list WalletBalance)
    : list (string * AggregatedToken) :=
  fold_left
    (fun tokenMap wallet =>
       match wb_fetch_status wallet with
       | StatusSuccess => fold_left aggregate_token (wb_tokens wallet) tokenMap
       | _ => tokenMap
       end)
    allBalances [].

(** [x || 0] on a number that may be missing. *)
Definition opt_num_or_zero (x : option Qc) : Qc :=
  match x with Some v => num_or v 0%Qc | None => 0%Qc end.

(** The body of [for (const [mint, token] of tokenMap)]. *)
Definition add_price_data (priceMap : list (string * TokenPrice))
    (entry : string * AggregatedToken) : AggregatedToken :=
  let token := snd entry in
  match map_get (fst entry) priceMap with
  | Some priceData =>
      {| at_mint := at_mint token;
         at_symbol := at_symbol token;
         at_name := at_name token;
         at_totalAmount := at_totalAmount token;
         at_totalValue := at_totalValue token;
         at_walletCount := at_walletCount token;
         at_price := tp_price priceData;
         at_priceChange24h := opt_num_or_zero (tp_price_change_24h priceData);
         at_imageUrl := Some (str_or_null (tp_image_url priceData)) |}
  | None => token
  end.

(** [(a, b) => b.totalValue - a.totalValue] *)
Definition by_total_value (a b : AggregatedToken) : Qc :=
  (at_totalValue b - at_totalValue a)%Qc.

(** The [tokens] of [/tokens/aggregated]. *)
Definition aggregated_tokens (allBalances : list WalletBalance)
    (tokenPrices : list TokenPrice) : list AggregatedToken :=
  let tokenMap := aggregate_wallets allBalances in
  let priceMap := new_Map (map (fun p => (tp_mint p, p)) tokenPrices) in
  sort by_total_value (map (add_price_data priceMap) tokenMap).

Record Aggregated : Type := {
  ag_solPrice : Qc;
  ag_tokens : list AggregatedToken
}.

(** A holder of [/tokens/holders/:mint]; its [pnl] is always [null]. *)
Record Holder : Type := {
  h_address : string;
  h_balance : Qc;
  h_value : Qc
}.

(** [holders], [totalAmount] and [totalValue] of [/tokens/holders/:mint]. *)
Record Holdings : Type := {
  hs_holders : list Holder;
  hs_totalAmount : Qc;
  hs_totalValue : Qc
}.

(** The body of [for (const wallet of allBalances)] in [/tokens/holders/:mint]. *)
Definition add_holder (mint : string) (price : Qc) (acc : Holdings) (wallet : WalletBalance)
    : Holdings :=
  match wb_fetch_status wallet with
  | StatusSuccess =>
      match List.find (fun t => bool_decide (ta_mint t = mint)) (wb_tokens wallet) with
      | Some token =>
          if decide (0 < ta_amount token)%Qc then
            let value := (ta_amount token * price)%Qc in
            {| hs_holders :=
                 hs_holders acc
                 ++ [ {| h_address := wb_wallet_address wallet;
                         h_balance := ta_amount token;
                         h_value := value |} ];
               hs_totalAmount := (hs_totalAmount acc + ta_amount token)%Qc;
               hs_totalValue := (hs_totalValue acc + value)%Qc |}
          else acc
      | None => acc
      end
  | _ => acc
  end.

Definition find_holders (mint : string) (price : Qc) (allBalances : list WalletBalance)
    : Holdings :=
  fold_left (add_holder mint price) allBalances
    {| hs_holders := []; hs_totalAmount := 0%Qc; hs_totalValue := 0%Qc |}.

(** A row of [getCombinedPNL().topGainers] or [.topLosers], with the fields
    the route reads. *)
Record TokenPNL : Type := {
  token_mint : string;
  total_pnl_usd : Qc;
  initial_price_usd : Qc
}.

Record CombinedPNL : Type := {
  topGainers : list TokenPNL;
  topLosers : list TokenPNL
}.

(** The [data] of [/tokens/holders/:mint]. *)
Record TokenHolders : Type := {
  th_mint : string;
  th_symbol : string;
  th_name : string;
  th_price : Qc;
  th_priceChange24h : Qc;
  th_imageUrl : option string;
  th_totalAmount : Qc;
  th_totalValue : Qc;
  th_holderCount : nat;
  th_holders : list Holder;
  th_pnl : option (Qc * Qc)
}.

(** [priceInfo?.price || 0] *)
Definition price_or_zero (priceInfo : option TokenPrice) : Qc :=
  match priceInfo with
  | Some p => num_or (tp_price p) 0%Qc
  | None => 0%Qc
  end.

Definition token_holders (mint : string) (allBalances : list WalletBalance)
    (tokenPrices : list TokenPrice) (combinedPNL : CombinedPNL) : TokenHolders :=
  let priceInfo := List.find (fun p => bool_decide (tp_mint p = mint)) tokenPrices in
  let price := price_or_zero priceInfo in
  let found := find_holders mint price allBalances in
  let tokenPNL :=
    List.find (fun t => bool_decide (token_mint t = mint))
      (topGainers combinedPNL ++ topLosers combinedPNL) in
  {| th_mint := mint;
     th_symbol := str_or (tp_symbol <$> priceInfo) "Unknown";
     th_name := str_or (tp_name <$> priceInfo) "Unknown Token";
     th_price := price;
     th_priceChange24h := opt_num_or_zero (priceInfo ≫= tp_price_change_24h);
     th_imageUrl := str_or_null (priceInfo ≫= tp_image_url);
     th_totalAmount := hs_totalAmount found;
     th_totalValue := hs_totalValue found;
     th_holderCount := length (hs_holders found);
     th_holders := hs_holders found;
     th_pnl := (fun t => (total_pnl_usd t, initial_price_usd t)) <$> tokenPNL |}.




Section Api.

Context {Env : Type} {provider : Provider Env}.
Variable cfg : Config.

(** [handleError]: the error's message, with status 500. *)
Definition handleError {A} (error : exn) : M Env (Reply A) :=
  t <- now ;;
  ret {| reply_status := 500; reply_success := false; reply_data := None;
         reply_error := Some (error_message error); reply_message := None;
         reply_timestamp := Some t |}.

Definition validateWalletAddress (address : string) : M Env unit :=
  if decide (address = "") then throw (ErrorObj "Invalid wallet address")
  else
    valid <- isValidSolanaAddress address ;;
    if negb valid then throw (ErrorObj "Invalid wallet address") else ret tt.

(** The handler of [api.get('/wallets/balance/:address')].  The router
    calls it for a path with a non-empty [:address] segment only; a path
    without one matches no route and never reaches the handler. *)
Definition get_wallets_balance (address : string) : M Env (Reply WalletView) :=
  try_catch
    (validateWalletAddress address ;;;
     balance <- db_read (getWalletBalance address) ;;
     match balance with
     | None => ret (json_error "Wallet not found" 404)
     | Some balance => t <- now ;; ret (json_data (wallet_view balance) t)
     end)
    handleError.

(** [api.get('/tokens/aggregated')] *)
Definition get_tokens_aggregated : M Env (Reply Aggregated) :=
  try_catch
    (allBalances <- db_read getAllWalletBalances ;;
     tokenPrices <- db_read getAllTokenPrices ;;
     let solPriceData :=
       List.find (fun p => bool_decide (tp_mint p = SOL_MINT)) tokenPrices in
     let solPrice := cached_or_default solPriceData in
     let tokens := aggregated_tokens allBalances tokenPrices in
     t <- now ;;
     ret (json_data {| ag_solPrice := solPrice; ag_tokens := tokens |} t))
    handleError.

(** [db.getCombinedPNL()] of the cache store, which is not part of the
    sources. *)
Variable getCombinedPNL : Db → CombinedPNL.

(** [api.get('/tokens/holders/:mint')] *)
Definition get_tokens_holders (mint : string) : M Env (Reply TokenHolders) :=
  try_catch
    (allBalances <- db_read getAllWalletBalances ;;
     tokenPrices <- db_read getAllTokenPrices ;;
     combinedPNL <- db_read getCombinedPNL ;;
     t <- now ;;
     ret (json_data (token_holders mint allBalances tokenPrices combinedPNL) t))
    handleError.


Variable getStaleTokenPrices : Z → Z → Db → list TokenPrice.

(** [api.post('/tokens/prices/refresh')] *)
Definition post_tokens_prices_refresh : M Env (Reply unit) :=
  try_catch
    (refreshStaleTokenPrices cfg getStaleTokenPrices ;;;
     t <- now ;;
     ret (json_message "Token prices refresh initiated" t))
    handleError.

End Api.

(** ** Vocabulary of the further properties *)

(** The requests in a trace: everything the engine asked of the outside but
    the timers. *)
Fixpoint requests (t : list Event) : list Event :=
  match t with
  | [] => []
  | EvTimeout _ :: rest => requests rest
  | e :: rest => e :: requests rest
  end.

(** The primary connection is down; the fallback answers 2.5 SOL. *)
Definition primary_down : Script :=
  {| script_valid := fun _ => true;
     script_balance := fun _ c _ =>
       match c with Primary => Throw unavailable | Fallback => Ok 2500000000%Z end;
     script_accounts := fun _ _ _ _ => Ok [];
     script_token_list := fun _ _ => Throw unavailable;
     script_token := fun _ _ => Throw unavailable;
     script_price := fun _ _ => Throw unavailable |}.

Section FetcherVocabulary.

Context {Env : Type} {provider : Provider Env}.

(** One attempt of the balance fetch: the primary connection, then, when it
    fails, the fallback. *)
Definition balance_attempt (publicKey : string) : M Env Z :=
  try_catch
    (call (EvGetBalance Primary publicKey) (rpc_getBalance Primary publicKey))
    (fun _ => call (EvGetBalance Fallback publicKey) (rpc_getBalance Fallback publicKey)).

(** One attempt of the token-account fetch. *)
Definition accounts_attempt (publicKey : string) : M Env (list AccountInfo) :=
  try_catch (token_accounts_on Primary publicKey)
    (fun _ => token_accounts_on Fallback publicKey).

(** The operations that [getSOLBalance] and [getTokenAccounts] hand to the
    queue: the attempts under [withRetry]. *)
Definition balance_operation (cfg : Config) (publicKey : string) : M Env Z :=
  withRetry (balance_attempt publicKey) (maxRetries cfg) 1000.

Definition accounts_operation (cfg : Config) (publicKey : string)
    : M Env (list AccountInfo) :=
  withRetry (accounts_attempt publicKey) (maxRetries cfg) 1000.

(** Between [w] and [w'] at most [perAttempt] requests were made for each of
    [attempts] attempts, and the timers awaited are the first [k] backoff
    timers of base 1000 ms, for some [k] below [attempts]. *)
Definition within_budget (perAttempt attempts : nat) (w w' : World Env) : Prop :=
  length (requests (trace w')) ≤ length (requests (trace w)) + perAttempt * attempts
  ∧ ∃ k, k ≤ attempts - 1 ∧ delays w' = delays w ++ backoff 1000 0 k.

End FetcherVocabulary.

(** The second store has the wallet records of the first. *)
Definition wallets_kept (d d' : Db) : Prop := wallet_balances d' = wallet_balances d.

(** Between [d] and [d'] the wallets of [batch] were recorded: each has a
    record under its address, with a final status and the id of a wallet of
    [batch] with that address; the records of all other addresses are as
    they were. *)
Definition recorded (batch : list Wallet) (d d' : Db) : Prop :=
  (∀ wallet, wallet ∈ batch →
     ∃ row wallet',
       getWalletBalance (wallet_address wallet) d' = Some row
       ∧ wb_wallet_address row = wallet_address wallet
       ∧ wb_fetch_status row ≠ StatusPending
       ∧ wallet' ∈ batch
       ∧ wallet_address wallet' = wallet_address wallet
       ∧ wb_wallet_id row = wallet_id wallet')
  ∧ (∀ address, address ∉ map wallet_address batch →
       getWalletBalance address d' = getWalletBalance address d).

(** The holdings of the wallets fetched with success, wallet after wallet. *)
Definition successful_holdings (allBalances : list WalletBalance) : list TokenAccount :=
  flat_map
    (fun wallet =>
       match wb_fetch_status wallet with
       | StatusSuccess => wb_tokens wallet
       | _ => []
       end)
    allBalances.

(** The holdings of one mint. *)
Definition holdings_of (mint : string) (tokens : list TokenAccount) : list TokenAccount :=
  filter (fun token => ta_mint token = mint) tokens.

(** The sum of the amounts of the holdings. *)
Definition sum_amount (tokens : list TokenAccount) : Qc :=
  foldr Qcplus 0%Qc (map ta_amount tokens).

(** [token] carries the totals of [held], the holdings of [mint] in the
    order they were seen: their number, the sums of their amounts and of
    their USD values, and the symbol and name of the first of them. *)
Definition totals_of (mint : string) (held : list TokenAccount) (token : AggregatedToken)
    : Prop :=
  at_mint token = mint
  ∧ at_totalAmount token = sum_amount held
  ∧ at_totalValue token = sum_usd held
  ∧ at_walletCount token = length held
  ∧ at_symbol token = str_or (head held ≫= ta_symbol) "Unknown"
  ∧ at_name token = str_or (head held ≫= ta_name) "Unknown Token".


(** [token] carries the price data of the row [priceData], or none. *)
Definition priced_by (priceData : option TokenPrice) (token : AggregatedToken) : Prop :=
  match priceData with
  | Some p =>
      at_price token = tp_price p
      ∧ at_priceChange24h token = opt_num_or_zero (tp_price_change_24h p)
      ∧ at_imageUrl token = Some (str_or_null (tp_image_url p))
  | None =>
      at_price token = 0%Qc ∧ at_priceChange24h token = 0%Qc ∧ at_imageUrl token = None
  end.

(** The order of [/tokens/aggregated]: by total value, largest first. *)
Definition descending (a b : AggregatedToken) : Prop :=
  (at_totalValue b <= at_totalValue a)%Qc.

(** A total as the loop of [/tokens/holders/:mint] accumulates it:
    [total += x] for each [x] in turn, from 0. *)
Definition accumulate (xs : list Qc) : Qc := fold_left Qcplus xs 0%Qc.

Global Instance FetchStatus_eq_dec : EqDecision FetchStatus.
Proof. solve_decision. Defined.

(** The wallets whose last fetch succeeded. *)
Definition fetched_ok (allBalances : list WalletBalance) : list WalletBalance :=
  filter (fun wallet => wb_fetch_status wallet = StatusSuccess) allBalances.


(** Every wallet holds a mint in at most one token account, with a positive
    amount. *)
Definition one_account_per_mint (allBalances : list WalletBalance) : Prop :=
  Forall
    (fun wallet =>
       NoDup (map ta_mint (wb_tokens wallet))
       ∧ Forall (fun token => (0 < ta_amount token)%Qc) (wb_tokens wallet))
    allBalances.

(** Two wallet records: one fetched with success that holds 100 of M1 worth
    50 and 3 of M2 worth 60, one whose fetch failed. *)
Definition two_records : list WalletBalance :=
  [ {| wb_wallet_address := "W1"; wb_wallet_id := "id-1"; wb_sol_balance := Qc_of_Z 2;
       wb_tokens :=
         [ {| ta_mint := "M1"; ta_amount := Qc_of_Z 100; ta_decimals := 6;
              ta_symbol := Some "ONE"; ta_name := Some "Token One";
              ta_usdValue := Some (Qc_of_Z 50) |};
           {| ta_mint := "M2"; ta_amount := Qc_of_Z 3; ta_decimals := 9;
              ta_symbol := None; ta_name := None;
              ta_usdValue := Some (Qc_of_Z 60) |} ];
       wb_last_updated := 10; wb_fetch_status := StatusSuccess;
       wb_error_message := None; wb_retry_count := 0 |};
    {| wb_wallet_address := "W2"; wb_wallet_id := "id-2"; wb_sol_balance := 0%Qc;
       wb_tokens := [];
       wb_last_updated := 11; wb_fetch_status := StatusError;
       wb_error_message := Some "503 Service Unavailable"; wb_retry_count := 0 |} ].

(** The status of the record that the store keeps for a wallet. *)
Definition status_in (d : Db) (wallet : Wallet) : option FetchStatus :=
  wb_fetch_status <$> getWalletBalance (wallet_address wallet) d.

(** The number of wallets of [batch] whose record has status [st]. *)
Definition count_status (st : FetchStatus) (d : Db) (batch : list Wallet) : nat :=
  length (filter (fun wallet => status_in d wallet = Some st) batch).

(** Between [results], [d] and [results'], [d'] the wallets of [batch] were
    processed: the counts grew by the numbers of wallets of [batch] that
    the store now records as fetched with success and as failed, and the
    records of all other addresses are as they were. *)
Definition counted (batch : list Wallet) (results results' : BatchResults) (d d' : Db)
    : Prop :=
  successful results' = successful results + count_status StatusSuccess d' batch
  ∧ failed results' = failed results + count_status StatusError d' batch
  ∧ (∀ address, address ∉ map wallet_address batch →
       getWalletBalance address d' = getWalletBalance address d).

(** What holds of the holders found so far, at a given price: the totals
    are the balances and the values of the holders, added in their order,
    and the balances are positive. *)
Definition holders_inv (price : Qc) (acc : Holdings) : Prop :=
  hs_totalAmount acc = accumulate (map h_balance (hs_holders acc))
  ∧ hs_totalValue acc = accumulate (map h_value (hs_holders acc))
  ∧ Forall
      (fun holder =>
         (0 < h_balance holder)%Qc
         ∧ h_value holder = (h_balance holder * price)%Qc)
      (hs_holders acc).

Section OutcomeVocabulary.

Context {Env : Type} {provider : Provider Env}.
Variable cfg : Config.

(** The lookups of the mints of [batch], made one after the other from the
    environment [e]: each mint with what its own lookup delivered, and the
    environment the lookups leave. *)
Fixpoint lookups_from (batch : list string) (e : Env)
    : list (string * option TokenMetadata) * Env :=
  match batch with
  | [] => ([], e)
  | mint :: rest =>
      let (r, e1) := fetch_token (token_url cfg mint) e in
      let (outcomes, e2) := lookups_from rest e1 in
      ((mint, lookup_outcome r) :: outcomes, e2)
  end.

(** The lookups of the chunks [cs], chunk after chunk, a timer of 100 ms
    between two chunks. *)
Fixpoint chunk_lookups (cs : list (list string)) (e : Env)
    : list (string * option TokenMetadata) * Env :=
  match cs with
  | [] => ([], e)
  | c :: rest =>
      let (outcomes, e1) := lookups_from c e in
      let e2 := match rest with [] => e1 | _ :: _ => setTimeout 100 e1 end in
      let (outcomes', e3) := chunk_lookups rest e2 in
      (outcomes ++ outcomes', e3)
  end.

(** The pipelines of the wallets of [batch], each run to its end whatever
    the outcome of the others: every wallet with the outcome of its own
    pipeline, and the world the pipelines leave. *)
Fixpoint settle_all (batch : list Wallet) (w : World Env)
    : list (Wallet * Result WalletData) * World Env :=
  match batch with
  | [] => ([], w)
  | wallet :: rest =>
      let (r, w1) := getWalletData cfg (wallet_address wallet) (wallet_id wallet) w in
      let (outcomes, w2) := settle_all rest w1 in
      ((wallet, r) :: outcomes, w2)
  end.

(** The pipelines of the chunks [cs], chunk after chunk, a timer of 2000 ms
    between two chunks. *)
Fixpoint settle_chunks (cs : list (list Wallet)) (w : World Env)
    : list (Wallet * Result WalletData) * World Env :=
  match cs with
  | [] => ([], w)
  | c :: rest =>
      let (outcomes, w1) := settle_all c w in
      let w2 := match rest with [] => w1 | _ :: _ => snd (sleep 2000 w1) end in
      let (outcomes', w3) := settle_chunks rest w2 in
      (outcomes ++ outcomes', w3)
  end.

End OutcomeVocabulary.

(** The numbers of pipelines that returned and that raised, and the entries
    of the pipelines that raised. *)
Definition successes (outcomes : list (Wallet * Result WalletData)) : nat :=
  length (filter (fun outcome => is_throw (snd outcome) = false) outcomes).

Definition failures (outcomes : list (Wallet * Result WalletData)) : nat :=
  length (filter (fun outcome => is_throw (snd outcome) = true) outcomes).

Definition failure_entries (outcomes : list (Wallet * Result WalletData)) : list string :=
  omap
    (fun outcome =>
       match snd outcome with
       | Throw error => Some (error_entry (fst outcome) error)
       | Ok _ => None
       end)
    outcomes.

(** [results] after the pipelines of [outcomes] were counted. *)
Definition add_counts (results : BatchResults)
    (outcomes : list (Wallet * Result WalletData)) : BatchResults :=
  {| successful := successful results + successes outcomes;
     failed := failed results + failures outcomes;
     errors := errors results ++ failure_entries outcomes |}.

(** Twelve wallets of which the second has an address that is not a public
    key. *)
Definition second_bad_wallets : list Wallet :=
  map (fun a => {| wallet_id := "id-" +:+ a; wallet_address := a |})
    ["W01"; "bad"; "W03"; "W04"; "W05"; "W06"; "W07"; "W08"; "W09"; "W10"; "W11"; "W12"].

(** The price provider answers with a body in which the entry of B is
    [null]: it quotes A at 1 and the native mint at 150 and has no price
    for B. *)
Definition null_entry_script : Script :=
  {| script_valid := fun _ => true;
     script_balance := fun _ _ _ => Throw unavailable;
     script_accounts := fun _ _ _ _ => Throw unavailable;
     script_token_list := fun _ _ => Throw unavailable;
     script_token := fun _ _ => Throw unavailable;
     script_price := fun _ _ =>
       Ok (ok_response
             {| pb_data := Some [ ("A", Some (Some 1%Qc));
                                  ("B", None);
                                  (SOL_MINT, Some (Some (Qc_of_Z 150))) ] |}) |}.

(** * Properties *)

Section RetryFacts.

Context {Env : Type} {provider : Provider Env}.
Context {T : Type} (operation : M Env T) (maxRetries : nat) (baseDelay : Z).

Lemma delays_of_app (t1 t2 : list Event) :
  delays_of (t1 ++ t2) = delays_of t1 ++ delays_of t2.
Proof.
  induction t1 as [|e t1 IH]; simpl; [reflexivity|].
  destruct e; simpl; rewrite IH; reflexivity.
Qed.

Lemma delays_sleep (ms : Z) (w : World Env) :
  delays (snd (sleep ms w)) = delays w ++ [ms].
Proof. unfold delays, sleep; simpl. rewrite delays_of_app. reflexivity. Qed.

Lemma retry_succeeds (k : nat) :
  ∀ (remaining attempt : nat) (w : World Env) (v : T),
    attempt + remaining = maxRetries →
    k < remaining →
    (∀ i, i < k →
       is_throw (fst (operation (attempt_world operation baseDelay attempt w i))) = true) →
    fst (operation (attempt_world operation baseDelay attempt w k)) = Ok v →
    withRetry_loop operation maxRetries baseDelay remaining attempt w
    = (Ok v, snd (operation (attempt_world operation baseDelay attempt w k))).
Proof.
  induction k as [|k IH]; intros remaining attempt w v Hsum Hlt Hfail Hok.
  - destruct remaining as [|remaining]; [lia|].
    simpl in *. unfold try_catch.
    destruct (operation w) as [[x|e] w']; simpl in *; congruence.
  - destruct remaining as [|remaining]; [lia|].
    pose proof (Hfail 0 ltac:(lia)) as H0. simpl in H0.
    cbn [withRetry_loop]. unfold try_catch at 1.
    destruct (operation w) as [[x|e] w'] eqn:Hop; simpl in H0; [discriminate|].
    destruct (Nat.eqb_spec attempt (maxRetries - 1)) as [Heq|_]; [lia|].
    unfold bind at 1. cbn [sleep].
    rewrite (IH remaining (S attempt) _ v); try lia.
    + cbn [attempt_world]. rewrite Hop. reflexivity.
    + intros i Hi. specialize (Hfail (S i) ltac:(lia)).
      cbn [attempt_world] in Hfail. rewrite Hop in Hfail. exact Hfail.
    + cbn [attempt_world] in Hok. rewrite Hop in Hok. exact Hok.
Qed.

Lemma retry_exhausted :
  ∀ (remaining attempt : nat) (w : World Env),
    attempt + remaining = maxRetries →
    0 < remaining →
    (∀ i, i < remaining →
       is_throw (fst (operation (attempt_world operation baseDelay attempt w i))) = true) →
    withRetry_loop operation maxRetries baseDelay remaining attempt w
    = operation (attempt_world operation baseDelay attempt w (remaining - 1)).
Proof.
  induction remaining as [|remaining IH]; intros attempt w Hsum Hpos Hfail; [lia|].
  pose proof (Hfail 0 ltac:(lia)) as H0. simpl in H0.
  cbn [withRetry_loop]. unfold try_catch at 1.
  destruct (operation w) as [[x|e] w'] eqn:Hop; simpl in H0; [discriminate|].
  destruct (Nat.eqb_spec attempt (maxRetries - 1)) as [Heq|Hne].
  - assert (remaining = 0) by lia. subst remaining. simpl. rewrite Hop. reflexivity.
  - unfold bind at 1. cbn [sleep].
    destruct remaining as [|remaining]; [lia|].
    rewrite IH; try lia.
    + replace (S (S remaining) - 1) with (S (S remaining - 1)) by lia.
      cbn [attempt_world]. rewrite Hop. reflexivity.
    + intros i Hi. specialize (Hfail (S i) ltac:(lia)).
      cbn [attempt_world] in Hfail. rewrite Hop in Hfail. exact Hfail.
Qed.

Lemma attempt_world_delays :
  (∀ w0, delays (snd (operation w0)) = delays w0) →
  ∀ (k first : nat) (w : World Env),
    delays (snd (operation (attempt_world operation baseDelay first w k)))
    = delays w ++ backoff baseDelay first k.
Proof.
  intros Hquiet. induction k as [|k IH]; intros first w.
  - simpl. rewrite Hquiet. unfold backoff. simpl. rewrite app_nil_r. reflexivity.
  - cbn [attempt_world]. rewrite IH, delays_sleep, Hquiet.
    unfold backoff. simpl. rewrite <- app_assoc. reflexivity.
Qed.

(** C1. An operation that fails [k < maxRetries] times and then succeeds:
    [withRetry] returns its value, in the world its successful attempt
    left, and, when the operation awaits no timer of its own, the timers
    awaited are exactly the [k] backoff timers [baseDelay * 2^i],
    [i = 0 .. k-1], one after each failed attempt.  An operation that fails
    on all [maxRetries] attempts: [withRetry] ends as the last attempt
    ended, with that attempt's error, after [maxRetries - 1] backoff
    timers.  With [baseDelay = 1000] the schedule starts 1000, 2000, 4000. *)
Theorem withRetry_backoff (w : World Env) :
  (∀ (k : nat) (v : T),
     k < maxRetries →
     (∀ i, i < k →
        is_throw (fst (operation (attempt_world operation baseDelay 0 w i))) = true) →
     fst (operation (attempt_world operation baseDelay 0 w k)) = Ok v →
     withRetry operation maxRetries baseDelay w
     = (Ok v, snd (operation (attempt_world operation baseDelay 0 w k)))
     ∧ ((∀ w0, delays (snd (operation w0)) = delays w0) →
        delays (snd (withRetry operation maxRetries baseDelay w))
        = delays w ++ backoff baseDelay 0 k)
     ∧ length (backoff baseDelay 0 k) = k)
  ∧ (0 < maxRetries →
     (∀ i, i < maxRetries →
        is_throw (fst (operation (attempt_world operation baseDelay 0 w i))) = true) →
     withRetry operation maxRetries baseDelay w
     = operation (attempt_world operation baseDelay 0 w (maxRetries - 1))
     ∧ is_throw (fst (withRetry operation maxRetries baseDelay w)) = true
     ∧ ((∀ w0, delays (snd (operation w0)) = delays w0) →
        delays (snd (withRetry operation maxRetries baseDelay w))
        = delays w ++ backoff baseDelay 0 (maxRetries - 1)))
  ∧ backoff 1000 0 3 = [1000; 2000; 4000]%Z.
Proof.
  split; [|split; [|reflexivity]].
  - intros k v Hk Hfail Hok. unfold withRetry.
    rewrite (retry_succeeds k maxRetries 0 w v); try lia; auto.
    split; [reflexivity|]. split.
    + intros Hquiet. apply attempt_world_delays; assumption.
    + unfold backoff. rewrite length_map, length_seq. reflexivity.
  - intros Hpos Hfail. unfold withRetry.
    rewrite retry_exhausted; try lia; auto.
    split; [reflexivity|]. split.
    + apply Hfail. lia.
    + intros Hquiet. apply attempt_world_delays; assumption.
Qed.

End RetryFacts.

Lemma call_quiet {Env A} (e : Event)
    (f : Env → Result A * Env) :
  (∀ ms, e ≠ EvTimeout ms) →
  ∀ w, delays (snd (call e f w)) = delays w.
Proof.
  intros He w. unfold call, delays. destruct (f (env w)) as [r env']; simpl.
  rewrite delays_of_app. destruct e; simpl; rewrite ?app_nil_r; try reflexivity.
  exfalso. eapply He. reflexivity.
Qed.

Lemma withRetry_backoff_witness :
  let operation sc :=
    call (EvGetBalance Primary "A") (rpc_getBalance (Provider := scripted sc) Primary "A") in
  let run sc := withRetry (provider := scripted sc) (operation sc) 3 1000 (boot empty_db) in
  (fst (run flaky_balance) = Ok 2500000000%Z
   ∧ delays (snd (run flaky_balance)) = [1000%Z; 2000%Z])
  ∧ (fst (run outage) = Throw unavailable
     ∧ delays (snd (run outage)) = [1000%Z; 2000%Z]).
Proof.
  intros operation run. split.
  - destruct (withRetry_backoff (provider := scripted flaky_balance)
                (operation flaky_balance) 3 1000 (boot empty_db)) as (Hok & _ & _).
    destruct (Hok 2 2500000000%Z) as (Hv & Hd & _).
    + lia.
    + intros i Hi. destruct i as [|[|i]]; [reflexivity|reflexivity|lia].
    + reflexivity.
    + split; [unfold run; rewrite Hv; reflexivity|].
      apply Hd. apply call_quiet. discriminate.
  - destruct (withRetry_backoff (provider := scripted outage)
                (operation outage) 3 1000 (boot empty_db)) as (_ & Hall & _).
    destruct Hall as (Heq & _ & Hd).
    + lia.
    + intros i Hi. destruct i as [|[|[|i]]]; [reflexivity|reflexivity|reflexivity|lia].
    + split; [unfold run; rewrite Heq; reflexivity|].
      apply Hd. apply call_quiet. discriminate.
Defined.

(** ** What a computation may do to the world *)

Global Instance on_db_preorder {Env} (Rd : relation Db) `{!PreOrder Rd} :
  PreOrder (@on_db Env Rd).
Proof.
  split; [intros w; unfold on_db; reflexivity|].
  intros x y z; unfold on_db; intros; etransitivity; eassumption.
Qed.

Global Instance on_trace_preorder {Env} (Rt : relation (list Event)) `{!PreOrder Rt} :
  PreOrder (@on_trace Env Rt).
Proof.
  split; [intros w; unfold on_trace; reflexivity|].
  intros x y z; unfold on_trace; intros; etransitivity; eassumption.
Qed.

Section Frame.

Context {Env : Type} {provider : Provider Env}.
Context (R : relation (World Env)) `{!PreOrder R}.

Lemma respects_ret {A} (a : A) : respects R (ret (Env:=Env) a).
Proof. intros w; simpl. reflexivity. Qed.

Lemma respects_throw {A} (e : exn) : respects R (throw (Env:=Env) (A:=A) e).
Proof. intros w; simpl. reflexivity. Qed.

Lemma respects_lift {A} (r : Result A) : respects R (lift (Env:=Env) r).
Proof. intros w; simpl. reflexivity. Qed.

Lemma respects_now : respects R now.
Proof. intros w; simpl. reflexivity. Qed.

Lemma respects_db_read {A} (f : Db → A) : respects R (db_read (Env:=Env) f).
Proof. intros w; simpl. reflexivity. Qed.

Lemma respects_bind {A B} (m : M Env A) (k : A → M Env B) :
  respects R m → (∀ a, respects R (k a)) → respects R (bind m k).
Proof.
  intros Hm Hk w. unfold bind. specialize (Hm w).
  destruct (m w) as [[a|e] w1]; simpl in *; [|exact Hm].
  etransitivity; [exact Hm|apply Hk].
Qed.

Lemma respects_try_catch {A} (m : M Env A) (h : exn → M Env A) :
  respects R m → (∀ e, respects R (h e)) → respects R (try_catch m h).
Proof.
  intros Hm Hh w. unfold try_catch. specialize (Hm w).
  destruct (m w) as [[a|e] w1]; simpl in *; [exact Hm|].
  etransitivity; [exact Hm|apply Hh].
Qed.

Lemma respects_promise_all2 {A B} (a : M Env A) (b : M Env B) :
  respects R a → respects R b → respects R (promise_all2 a b).
Proof.
  intros Ha Hb w. unfold promise_all2. specialize (Ha w).
  destruct (a w) as [ra w1]. specialize (Hb w1).
  destruct (b w1) as [rb w2]. simpl in *.
  assert (R w w2) by (etransitivity; eassumption).
  destruct ra, rb; simpl; assumption.
Qed.

Lemma respects_all_settled {A} (ps : list (M Env A)) :
  (∀ p, p ∈ ps → respects R p) → respects R (all_settled ps).
Proof.
  induction ps as [|p ps IH]; intros Hps w; simpl; [reflexivity|].
  pose proof (Hps p ltac:(left) w) as Hp.
  destruct (p w) as [r w1]. simpl in Hp.
  assert (Hrest : ∀ q, q ∈ ps → respects R q) by (intros q Hq; apply Hps; right; exact Hq).
  specialize (IH Hrest w1).
  destruct (all_settled ps w1) as [[rs|e] w2]; simpl in *; etransitivity; eassumption.
Qed.

Lemma respects_withRetry_loop {T} (operation : M Env T) (maxRetries : nat) (baseDelay : Z) :
  (∀ ms, respects R (sleep ms)) →
  respects R operation →
  ∀ remaining attempt,
    respects R (withRetry_loop operation maxRetries baseDelay remaining attempt).
Proof.
  intros Hsleep Hop. induction remaining as [|remaining IH]; intros attempt; simpl.
  - apply respects_throw.
  - apply respects_try_catch; [exact Hop|]. intros e.
    destruct (attempt =? maxRetries - 1); [apply respects_throw|].
    apply respects_bind; [apply Hsleep|]. intros _. apply IH.
Qed.

Lemma respects_withRetry {T} (operation : M Env T) (maxRetries : nat) (baseDelay : Z) :
  (∀ ms, respects R (sleep ms)) →
  respects R operation → respects R (withRetry operation maxRetries baseDelay).
Proof. intros Hsleep Hop. apply respects_withRetry_loop; assumption. Qed.

Lemma respects_addToQueue {T} (operation : M Env T) :
  respects R operation → respects R (addToQueue operation).
Proof.
  intros Hop. unfold addToQueue. apply respects_try_catch.
  - apply respects_bind; [exact Hop|]. intros a. apply respects_ret.
  - intros e. apply respects_throw.
Qed.

End Frame.

Section FrameDb.

Context {Env : Type} {provider : Provider Env}.
Context (Rd : relation Db) `{!PreOrder Rd}.

Lemma db_respects_sleep (ms : Z) : respects (on_db Rd) (sleep ms).
Proof. intros w; unfold on_db; simpl. reflexivity. Qed.

Lemma db_respects_call {A} (e : Event) (f : Env → Result A * Env) :
  respects (on_db Rd) (call e f).
Proof. intros w. unfold call, on_db. destruct (f (env w)); simpl. reflexivity. Qed.

Lemma db_respects_write (f : Db → Db) :
  (∀ d, Rd d (f d)) → respects (on_db Rd) (db_write (Env:=Env) f).
Proof. intros Hf w; unfold on_db; simpl. apply Hf. Qed.

End FrameDb.

Section FrameTrace.

Context {Env : Type} {provider : Provider Env}.
Context (Rt : relation (list Event)) `{!PreOrder Rt}.

Lemma trace_respects_sleep (ms : Z) :
  (∀ t, Rt t (t ++ [EvTimeout ms])) → respects (on_trace Rt) (sleep ms).
Proof. intros H w; unfold on_trace; simpl. apply H. Qed.

Lemma trace_respects_call {A} (e : Event) (f : Env → Result A * Env) :
  (∀ t, Rt t (t ++ [e])) → respects (on_trace Rt) (call e f).
Proof. intros H w. unfold call, on_trace. destruct (f (env w)); simpl. apply H. Qed.

Lemma trace_respects_write (f : Db → Db) : respects (on_trace Rt) (db_write (Env:=Env) f).
Proof. intros w; unfold on_trace; simpl. reflexivity. Qed.

End FrameTrace.

(** [apply] leaves the [PreOrder] premise of the lemmas above as a goal;
    [tc] discharges it. *)
Ltac tc := try match goal with |- PreOrder _ => typeclasses eauto end.

Tactic Notation "rapply" uconstr(lem) := (apply lem; tc).

(** Decomposes a goal [respects R m] along the structure of [m]. *)
Ltac respects_step :=
  first
    [ rapply respects_ret | rapply respects_throw | rapply respects_lift
    | rapply respects_now | rapply respects_db_read
    | rapply db_respects_sleep | rapply db_respects_call
    | rapply trace_respects_write
    | rapply respects_addToQueue
    | rapply respects_withRetry; [intros ?|]
    | rapply respects_promise_all2
    | rapply respects_try_catch; [|intros ?]
    | rapply respects_bind; [|intros ?]
    | match goal with |- respects _ (if ?b then _ else _) => destruct b end
    | match goal with |- respects _ (match ?x with _ => _ end) => destruct x end ].

Ltac respects_auto := repeat respects_step.

(** ** Fetch Queue *)

Section QueueFacts.

Import FetchQueue.
Context {T : Type}.
Variable rateLimitDelay : Z.

Abbreviation State := (FetchQueue.State T).
Abbreviation Stimulus := (FetchQueue.Stimulus T).

Ltac obs_simpl :=
  unfold submitted, started, settled, pacing, in_flight in *; simpl in *;
  rewrite ?omap_app in *; simpl in *; rewrite ?app_nil_r in *.

Ltac decide_here :=
  rewrite decide_True by (first [reflexivity | apply list_elem_of_singleton; reflexivity]).

Lemma initial_inv : queue_inv (initial T).
Proof. split; simpl; auto; discriminate. Qed.

Lemma addToQueue_inv (op : OpId) (s : State) :
  queue_inv s → queue_inv (addToQueue op s).
Proof.
  intros [Hidle Hbusy Hfifo Hserial].
  destruct s as [q p acts obs]; simpl in *.
  unfold addToQueue, processQueue; simpl.
  destruct p; simpl.
  - split; simpl; try discriminate; auto; obs_simpl.
    + rewrite Hfifo, app_assoc. reflexivity.
    + exact Hserial.
  - destruct (Hidle eq_refl) as [-> ->]. simpl.
    split; simpl; try discriminate; obs_simpl.
    + intros _. eexists; reflexivity.
    + rewrite Hfifo. reflexivity.
    + rewrite Hserial. reflexivity.
Qed.

Lemma loop_head_inv (q : list OpId) (obs : list (Obs T)) :
  submitted obs = started obs ++ q →
  started obs = map fst (settled obs) →
  queue_inv (loop_head {| requestQueue := q; isProcessingQueue := true;
                          activations := []; observed := obs |}).
Proof.
  intros Hfifo Hserial. unfold loop_head; simpl.
  destruct q as [|op rest]; split; simpl; try discriminate; auto; obs_simpl.
  - exact Hserial.
  - intros _. eexists; reflexivity.
  - rewrite Hfifo, <- app_assoc. reflexivity.
  - rewrite Hserial. reflexivity.
Qed.

(** A state that awaits or is ready is busy with exactly that. *)
Lemma busy_with (s : State) (a : Suspended) :
  queue_inv s → a ∈ activations s →
  isProcessingQueue s = true ∧ activations s = [a].
Proof.
  intros [Hidle Hbusy _ _] Hin.
  destruct (isProcessingQueue s) eqn:Hp.
  - destruct (Hbusy eq_refl) as [b Hb]. rewrite Hb in Hin.
    apply list_elem_of_singleton in Hin. subst b. auto.
  - destruct (Hidle eq_refl) as [Hnil _]. rewrite Hnil in Hin. inversion Hin.
Qed.

Lemma step_inv (s s' : State) (e : Stimulus) :
  queue_inv s → step rateLimitDelay s e = Some s' → queue_inv s'.
Proof.
  intros Hinv Hstep. destruct e as [op|op r| |]; simpl in Hstep.
  - inversion Hstep; subst. apply addToQueue_inv; assumption.
  - unfold operation_settles in Hstep. case_decide as Hin; [|discriminate].
    inversion Hstep; subst; clear Hstep.
    destruct (busy_with _ _ Hinv Hin) as [Hp Hacts].
    destruct Hinv as [_ _ Hfifo Hserial].
    destruct s as [q p acts obs]; simpl in *. subst p acts. simpl.
    rewrite decide_True by reflexivity. simpl.
    split; simpl; try discriminate; obs_simpl.
    + intros _. eexists; reflexivity.
    + exact Hfifo.
    + rewrite Hserial, map_app. reflexivity.
  - unfold resume in Hstep. case_decide as Hin; [|discriminate].
    destruct (busy_with _ _ Hinv Hin) as [Hp Hacts].
    destruct Hinv as [_ _ Hfifo Hserial].
    destruct s as [q p acts obs]; simpl in *. subst p acts. simpl in *.
    destruct q as [|op rest]; simpl in Hstep; inversion Hstep; subst; clear Hstep.
    + apply (loop_head_inv [] obs); obs_simpl; assumption.
    + split; simpl; try discriminate; obs_simpl.
      * intros _. eexists; reflexivity.
      * exact Hfifo.
      * exact Hserial.
  - unfold timer_fires in Hstep. case_decide as Hin; [|discriminate].
    inversion Hstep; subst; clear Hstep.
    destruct (busy_with _ _ Hinv Hin) as [Hp Hacts].
    destruct Hinv as [_ _ Hfifo Hserial].
    destruct s as [q p acts obs]; simpl in *. subst p acts. simpl in *.
    apply loop_head_inv; obs_simpl; assumption.
Qed.

Lemma run_inv (es : list Stimulus) :
  ∀ s s', queue_inv s → run rateLimitDelay s es = Some s' → queue_inv s'.
Proof.
  induction es as [|e es IH]; intros s s' Hinv Hrun; simpl in Hrun.
  - inversion Hrun; subst; assumption.
  - destruct (step rateLimitDelay s e) as [s1|] eqn:Hstep; [|discriminate].
    eapply IH; [|exact Hrun]. eapply step_inv; eassumption.
Qed.

Lemma in_flight_at_most_one (s : State) : queue_inv s → length (in_flight s) ≤ 1.
Proof.
  intros [Hidle Hbusy _ _]. unfold in_flight.
  destruct (isProcessingQueue s) eqn:Hp.
  - destruct (Hbusy eq_refl) as [a ->]. destruct a; simpl; lia.
  - destruct (Hidle eq_refl) as [-> _]. simpl; lia.
Qed.

Lemma step_settled (s s' : State) (e : Stimulus) :
  step rateLimitDelay s e = Some s' →
  settled (observed s') = settled (observed s) ++ settlements [e].
Proof.
  destruct s as [q p acts obs].
  destruct e as [op|op r| |]; simpl; intros Hstep.
  - inversion Hstep; subst; clear Hstep.
    unfold addToQueue, processQueue, loop_head; simpl.
    destruct p; simpl; [obs_simpl; reflexivity|].
    destruct (q ++ [op]) eqn:Hq; simpl; [destruct q; discriminate|].
    obs_simpl; reflexivity.
  - unfold operation_settles in Hstep. case_decide; [|discriminate].
    inversion Hstep; subst. obs_simpl. reflexivity.
  - unfold resume, loop_head in Hstep. case_decide; [|discriminate].
    simpl in Hstep. destruct q; simpl in Hstep; inversion Hstep; subst;
      obs_simpl; reflexivity.
  - unfold timer_fires, loop_head in Hstep. case_decide; [|discriminate].
    simpl in Hstep. destruct q; simpl in Hstep; inversion Hstep; subst;
      obs_simpl; reflexivity.
Qed.

Lemma run_settled (es : list Stimulus) :
  ∀ s s', run rateLimitDelay s es = Some s' →
          settled (observed s') = settled (observed s) ++ settlements es.
Proof.
  induction es as [|e es IH]; intros s s' Hrun; simpl in Hrun.
  - inversion Hrun; subst. unfold settlements; simpl. rewrite app_nil_r. reflexivity.
  - destruct (step rateLimitDelay s e) as [s1|] eqn:Hstep; [|discriminate].
    rewrite (IH _ _ Hrun), (step_settled _ _ _ Hstep), <- app_assoc.
    unfold settlements. rewrite <- omap_app. reflexivity.
Qed.

Lemma remove_first_head (a : Suspended) (l : list Suspended) :
  remove_first a (a :: l) = l.
Proof. simpl. rewrite decide_True by reflexivity. reflexivity. Qed.

Lemma settle_step (op : OpId) (r : Result T) (q : list OpId) (obs : list (Obs T)) :
  operation_settles op r
    {| requestQueue := q; isProcessingQueue := true;
       activations := [AwaitOperation op]; observed := obs |}
  = Some {| requestQueue := q; isProcessingQueue := true;
            activations := [Ready]; observed := obs ++ [Settled op r] |}.
Proof.
  unfold operation_settles. cbn [activations].
  rewrite decide_True by (apply list_elem_of_singleton; reflexivity).
  rewrite remove_first_head. reflexivity.
Qed.

Lemma resume_step_idle (obs : list (Obs T)) :
  resume rateLimitDelay
    {| requestQueue := []; isProcessingQueue := true;
       activations := [Ready]; observed := obs |}
  = Some {| requestQueue := []; isProcessingQueue := false;
            activations := []; observed := obs |}.
Proof.
  unfold resume. cbn [activations].
  rewrite decide_True by (apply list_elem_of_singleton; reflexivity).
  rewrite remove_first_head. reflexivity.
Qed.

Lemma resume_step_busy (op : OpId) (q : list OpId) (obs : list (Obs T)) :
  resume rateLimitDelay
    {| requestQueue := op :: q; isProcessingQueue := true;
       activations := [Ready]; observed := obs |}
  = Some {| requestQueue := op :: q; isProcessingQueue := true;
            activations := [AwaitTimer]; observed := obs ++ [Delayed rateLimitDelay] |}.
Proof.
  unfold resume. cbn [activations].
  rewrite decide_True by (apply list_elem_of_singleton; reflexivity).
  rewrite remove_first_head. reflexivity.
Qed.

Lemma timer_step (op : OpId) (q : list OpId) (obs : list (Obs T)) :
  timer_fires
    {| requestQueue := op :: q; isProcessingQueue := true;
       activations := [AwaitTimer]; observed := obs |}
  = Some {| requestQueue := q; isProcessingQueue := true;
            activations := [AwaitOperation op]; observed := obs ++ [Started op] |}.
Proof.
  unfold timer_fires. cbn [activations].
  rewrite decide_True by (apply list_elem_of_singleton; reflexivity).
  rewrite remove_first_head. reflexivity.
Qed.

(** Submissions to a busy queue only lengthen it. *)
Lemma run_submit_busy (ops : list OpId) (es : list Stimulus) :
  ∀ q acts obs,
    run rateLimitDelay
      {| requestQueue := q; isProcessingQueue := true;
         activations := acts; observed := obs |}
      (map Submit ops ++ es)
    = run rateLimitDelay
        {| requestQueue := q ++ ops; isProcessingQueue := true;
           activations := acts; observed := obs ++ map Submitted ops |}
        es.
Proof.
  induction ops as [|op ops IH]; intros q acts obs; simpl.
  - rewrite !app_nil_r. reflexivity.
  - unfold addToQueue; simpl. rewrite IH, <- !app_assoc. reflexivity.
Qed.

Lemma run_drain (outcome : OpId → Result T) (ops : list OpId) :
  ∀ op obs,
    ∃ obs',
      run rateLimitDelay
        {| requestQueue := ops; isProcessingQueue := true;
           activations := [AwaitOperation op]; observed := obs |}
        (drain outcome (op :: ops))
      = Some {| requestQueue := []; isProcessingQueue := false;
                activations := []; observed := obs' |}
      ∧ submitted obs' = submitted obs
      ∧ started obs' = started obs ++ ops
      ∧ pacing obs' = pacing obs ++ replicate (length ops) rateLimitDelay.
Proof.
  induction ops as [|op2 ops IH]; intros op obs.
  - eexists. cbn [drain run step]. rewrite settle_step. cbn [run step]. rewrite resume_step_idle. cbn [run].
    split; [reflexivity|]. obs_simpl. auto.
  - destruct (IH op2 (obs ++ [Settled op (outcome op); Delayed rateLimitDelay; Started op2]))
      as (obs' & Hrun & Hsub & Hsta & Hpac).
    exists obs'.
    change (drain outcome (op :: op2 :: ops))
      with (OperationSettles op (outcome op) :: Resume :: TimerFires
              :: drain outcome (op2 :: ops)).
    cbn [run step]. rewrite settle_step, resume_step_busy, timer_step.
    rewrite <- !app_assoc. cbn [app].
    split; [exact Hrun|].
    rewrite Hsub, Hsta, Hpac. obs_simpl.
    rewrite <- !app_assoc. auto.
Qed.

Lemma run_burst (outcome : OpId → Result T) (ops : list OpId) :
  ops ≠ [] →
  ∃ s, run rateLimitDelay (initial T) (burst outcome ops) = Some s
       ∧ requestQueue s = [] ∧ isProcessingQueue s = false
       ∧ submitted (observed s) = ops
       ∧ started (observed s) = ops
       ∧ settled (observed s) = map (fun op => (op, outcome op)) ops
       ∧ pacing (observed s) = replicate (length ops - 1) rateLimitDelay.
Proof.
  intros Hne. destruct ops as [|op ops]; [congruence|].
  destruct (run_drain outcome ops op ([Submitted op; Started op] ++ map Submitted ops))
    as (obs' & Hrun & Hsub & Hsta & Hpac).
  exists {| requestQueue := []; isProcessingQueue := false;
            activations := []; observed := obs' |}.
  assert (Hgo : run rateLimitDelay (initial T) (burst outcome (op :: ops))
                = Some {| requestQueue := []; isProcessingQueue := false;
                          activations := []; observed := obs' |}).
  { unfold burst. cbn [map app run step]. unfold addToQueue, processQueue, loop_head; simpl.
    rewrite run_submit_busy. exact Hrun. }
  assert (Hsubs : ∀ l : list OpId, submitted (map (@Submitted T) l) = l
                                   ∧ started (map (@Submitted T) l) = []
                                   ∧ pacing (map (@Submitted T) l) = []).
  { induction l as [|x l (IH1 & IH2 & IH3)]; [auto|].
    cbn [map].
    change (Submitted x :: map Submitted l) with ([@Submitted T x] ++ map Submitted l).
    unfold submitted, started, pacing in *. rewrite !omap_app.
    rewrite IH1, IH2, IH3. auto. }
  destruct (Hsubs ops) as (Hs1 & Hs2 & Hs3).
  split; [exact Hgo|]. split; [reflexivity|]. split; [reflexivity|].
  cbn [observed]. split; [|split; [|split]].
  - rewrite Hsub. unfold submitted in *. rewrite omap_app, Hs1. reflexivity.
  - rewrite Hsta. unfold started in *. rewrite omap_app, Hs2. reflexivity.
  - pose proof (run_settled _ _ _ Hgo) as Hset. cbn [observed initial] in Hset.
    rewrite Hset. unfold burst, settlements, settled.
    rewrite omap_app. cbn [omap app]. clear.
    assert (H1 : ∀ l : list OpId,
               omap (fun e : Stimulus =>
                       match e with OperationSettles o r => Some (o, r) | _ => None end)
                    (map Submit l) = []).
    { induction l; simpl; auto. }
    rewrite H1. simpl.
    revert op. induction ops as [|op2 ops IH]; intros op; [reflexivity|].
    change (drain outcome (op :: op2 :: ops))
      with (OperationSettles op (outcome op) :: Resume :: TimerFires
              :: drain outcome (op2 :: ops)).
    simpl omap at 1. rewrite IH. reflexivity.
  - rewrite Hpac. unfold pacing in *. rewrite omap_app, Hs3. simpl.
    rewrite Nat.sub_0_r. reflexivity.
Qed.

(** An operation submitted to an idle queue starts at once. *)
Lemma submit_idle (op : OpId) (s : State) :
  queue_inv s → isProcessingQueue s = false →
  observed (addToQueue op s) = observed s ++ [Submitted op; Started op]
  ∧ in_flight (addToQueue op s) = [op].
Proof.
  intros Hinv Hp. destruct (inv_idle s Hinv Hp) as [Hacts Hq].
  destruct s as [q p acts obs]; simpl in *. subst.
  unfold addToQueue, processQueue, loop_head; simpl.
  rewrite <- app_assoc. auto.
Qed.

End QueueFacts.

(** ** Which engine operation writes what *)

Global Instance log_grows_preorder : PreOrder log_grows.
Proof.
  split; [intros d; unfold log_grows; reflexivity|].
  intros x y z; unfold log_grows; intros; etransitivity; eassumption.
Qed.

Section EngineFrame.

Context {Env : Type} {provider : Provider Env}.
Variable cfg : Config.
Context (Rd : relation Db) `{!PreOrder Rd}.

Lemma new_PublicKey_respects (address : string) :
  respects (on_db Rd) (new_PublicKey address).
Proof. unfold new_PublicKey. respects_auto. Qed.

Lemma getSOLBalance_fetch_respects (address : string) :
  respects (on_db Rd) (getSOLBalance_fetch cfg address).
Proof.
  unfold getSOLBalance_fetch.
  rapply respects_bind; [apply new_PublicKey_respects|]. intros pk. respects_auto.
Qed.

Lemma token_accounts_on_respects (c : Connection) (pk : string) :
  respects (on_db Rd) (token_accounts_on c pk).
Proof. unfold token_accounts_on. respects_auto. Qed.

Lemma getTokenAccounts_fetch_respects (address : string) :
  respects (on_db Rd) (getTokenAccounts_fetch cfg address).
Proof.
  unfold getTokenAccounts_fetch.
  rapply respects_bind; [apply new_PublicKey_respects|]. intros pk.
  rapply respects_addToQueue. rapply respects_withRetry; [intros ms; rapply db_respects_sleep|].
  rapply respects_try_catch; [|intros e]; apply token_accounts_on_respects.
Qed.

Lemma metadata_one_respects (mint : string) :
  respects (on_db Rd) (metadata_one cfg mint).
Proof. unfold metadata_one. respects_auto. Qed.

Lemma metadata_fallback_respects (mints : list string) :
  ∀ fuel i metadata, respects (on_db Rd) (metadata_fallback cfg fuel mints i metadata).
Proof.
  induction fuel as [|fuel IH]; intros i metadata; simpl; [rapply respects_ret|].
  destruct (i <? length mints); [|rapply respects_ret].
  rapply respects_bind.
  - rapply respects_all_settled. intros p Hp.
    apply list_elem_of_fmap in Hp. destruct Hp as (mint & -> & _).
    apply metadata_one_respects.
  - intros results. rapply respects_bind; [respects_auto|]. intros _. apply IH.
Qed.

Lemma getTokenMetadata_respects (mints : list string) :
  respects (on_db Rd) (getTokenMetadata cfg mints).
Proof.
  unfold getTokenMetadata, metadata_bulk.
  destruct (length mints =? 0); [rapply respects_ret|].
  rapply respects_bind; [respects_auto|].
  intros [metadata|]; [rapply respects_ret|apply metadata_fallback_respects].
Qed.

Hypothesis Rd_log : ∀ entry d, Rd d (insertFetchLog entry d).

Lemma getSOLBalance_respects (address : string) :
  respects (on_db Rd) (getSOLBalance cfg address).
Proof.
  unfold getSOLBalance.
  rapply respects_bind; [rapply respects_now|]. intros startTime.
  rapply respects_try_catch.
  - rapply respects_bind; [apply getSOLBalance_fetch_respects|]. intros balance.
    respects_auto. rapply db_respects_write; auto.
  - intros e. respects_auto. rapply db_respects_write; auto.
Qed.

Lemma getTokenAccounts_respects (address : string) :
  respects (on_db Rd) (getTokenAccounts cfg address).
Proof.
  unfold getTokenAccounts.
  rapply respects_bind; [rapply respects_now|]. intros startTime.
  rapply respects_try_catch.
  - rapply respects_bind; [apply getTokenAccounts_fetch_respects|]. intros accounts.
    respects_auto. rapply db_respects_write; auto.
  - intros e. respects_auto. rapply db_respects_write; auto.
Qed.

Hypothesis Rd_price : ∀ row d, Rd d (upsertTokenPrice row d).

Lemma getSOLPrice_respects : respects (on_db Rd) (getSOLPrice cfg).
Proof.
  unfold getSOLPrice, getSOLPrice_fetch. respects_auto. rapply db_respects_write; auto.
Qed.

Lemma store_prices_respects (metadata : gmap string TokenMetadata) :
  ∀ entries prices, respects (on_db Rd) (store_prices entries metadata prices).
Proof.
  induction entries as [|[mint [info|]] entries IH]; intros prices; simpl;
    [rapply respects_ret| |rapply respects_throw].
  rapply respects_bind; [rapply respects_now|]. intros t.
  rapply respects_bind; [rapply db_respects_write; auto|]. intros _. apply IH.
Qed.

Lemma getTokenPrices_fetch_respects (mints : list string) :
  respects (on_db Rd) (getTokenPrices_fetch cfg mints).
Proof.
  unfold getTokenPrices_fetch.
  rapply respects_bind.
  - rapply respects_promise_all2; [rapply db_respects_call|apply getTokenMetadata_respects].
  - intros both. destruct (negb _); [rapply respects_throw|].
    rapply respects_bind; [rapply respects_lift|]. intros body.
    apply store_prices_respects.
Qed.

Lemma getTokenPrices_respects (mints : list string) :
  respects (on_db Rd) (getTokenPrices cfg mints).
Proof.
  unfold getTokenPrices.
  destruct (length mints =? 0); [rapply respects_ret|].
  rapply respects_bind; [rapply respects_now|]. intros startTime.
  rapply respects_try_catch.
  - rapply respects_bind; [apply getTokenPrices_fetch_respects|]. intros prices.
    respects_auto. rapply db_respects_write; auto.
  - intros e. respects_auto. rapply db_respects_write; auto.
Qed.

Hypothesis Rd_wallet : ∀ row d, Rd d (upsertWalletBalance row d).

Lemma getWalletData_try_respects (address walletId : string) :
  respects (on_db Rd) (getWalletData_try cfg address walletId).
Proof.
  unfold getWalletData_try.
  rapply respects_bind.
  - rapply respects_promise_all2; [apply getSOLBalance_respects|apply getTokenAccounts_respects].
  - intros fetched. rapply respects_bind.
    + rapply respects_promise_all2;
        [apply getTokenMetadata_respects|apply getTokenPrices_respects].
    + intros resolved. respects_auto. rapply db_respects_write; auto.
Qed.

Lemma getWalletData_respects (address walletId : string) :
  respects (on_db Rd) (getWalletData cfg address walletId).
Proof.
  unfold getWalletData.
  rapply respects_try_catch; [apply getWalletData_try_respects|].
  intros e. respects_auto. rapply db_respects_write; auto.
Qed.

Lemma process_wallet_respects (wallet : Wallet) (results : BatchResults) :
  respects (on_db Rd) (process_wallet cfg wallet results).
Proof.
  unfold process_wallet.
  rapply respects_try_catch; [|intros e; rapply respects_ret].
  rapply respects_bind; [apply getWalletData_respects|]. intros _. rapply respects_ret.
Qed.

Lemma process_chunk_respects :
  ∀ batch results, respects (on_db Rd) (process_chunk cfg batch results).
Proof.
  induction batch as [|wallet batch IH]; intros results; simpl; [rapply respects_ret|].
  rapply respects_bind; [apply process_wallet_respects|]. intros results'. apply IH.
Qed.

Lemma batch_loop_respects (wallets : list Wallet) (batchSize : nat) :
  ∀ fuel i results, respects (on_db Rd) (batch_loop cfg fuel wallets batchSize i results).
Proof.
  induction fuel as [|fuel IH]; intros i results; simpl; [rapply respects_ret|].
  destruct (i <? length wallets); [|rapply respects_ret].
  rapply respects_bind; [apply process_chunk_respects|]. intros results'.
  rapply respects_bind; [respects_auto|]. intros _. apply IH.
Qed.

Lemma processWalletBatch_respects (fuel : nat) (wallets : list Wallet) (batchSize : nat) :
  respects (on_db Rd) (processWalletBatch cfg fuel wallets batchSize).
Proof. apply batch_loop_respects. Qed.

End EngineFrame.

(** ** Chunks *)

Section ChunkFacts.

Context {A : Type}.
Implicit Types (l : list A) (n i : nat).

Lemma chunks_upto_fuel n : 0 < n → ∀ fuel fuel' l,
  length l ≤ fuel → length l ≤ fuel' → chunks_upto fuel n l = chunks_upto fuel' n l.
Proof.
  intros Hn. induction fuel as [|fuel IH]; intros fuel' l Hlen Hlen'.
  - destruct l; simpl in *; [destruct fuel'; reflexivity|lia].
  - destruct l as [|x l]; [destruct fuel'; reflexivity|].
    destruct fuel' as [|fuel']; [simpl in *; lia|].
    cbn [chunks_upto]. f_equal.
    apply IH; rewrite length_drop; simpl in *; lia.
Qed.

Lemma chunks_upto_enough n fuel l :
  0 < n → length l ≤ fuel → chunks_upto fuel n l = chunks_upto (length l) n l.
Proof. intros Hn Hlen. apply chunks_upto_fuel; auto. Qed.

Lemma chunks_nil n : chunks n (@nil A) = [].
Proof. reflexivity. Qed.

Lemma chunks_cons n l :
  0 < n → l ≠ [] → chunks n l = take n l :: chunks n (drop n l).
Proof.
  intros Hn Hl. unfold chunks. destruct l as [|x l]; [congruence|].
  cbn [chunks_upto length]. f_equal.
  apply chunks_upto_enough; [lia|]. rewrite length_drop. simpl. lia.
Qed.

Lemma chunks_concat n : 0 < n → ∀ l, concat (chunks n l) = l.
Proof.
  intros Hn l. remember (length l) as k eqn:Hk. revert l Hk.
  induction k as [k IH] using lt_wf_ind. intros l Hk.
  destruct l as [|x l]; [reflexivity|].
  rewrite chunks_cons by (auto; discriminate). cbn [concat].
  rewrite (IH (length (drop n (x :: l)))); [apply take_drop| |reflexivity].
  rewrite length_drop. subst k. simpl. lia.
Qed.

(** Every chunk but the last has [n] elements; the last has between 1 and [n]. *)
Lemma chunks_lengths n : 0 < n → ∀ l i c,
  chunks n l !! i = Some c →
  0 < length c ≤ n ∧ (S i < length (chunks n l) → length c = n).
Proof.
  intros Hn l. remember (length l) as k eqn:Hk. revert l Hk.
  induction k as [k IH] using lt_wf_ind. intros l Hk i c Hi.
  destruct l as [|x l]; [discriminate|].
  rewrite chunks_cons in * by (auto; discriminate).
  destruct i as [|i]; simpl in Hi.
  - inversion Hi; subst c. rewrite length_take. simpl length. split; [lia|].
    intros Hmore. simpl in Hmore.
    destruct (drop n (x :: l)) as [|y r] eqn:Hd; [simpl in Hmore; lia|].
    assert (length (drop n (x :: l)) = S (length r)) by (rewrite Hd; reflexivity).
    rewrite length_drop in *. simpl in *. lia.
  - destruct (IH (length (drop n (x :: l)))
                ltac:(rewrite length_drop; subst k; simpl; lia)
                (drop n (x :: l)) eq_refl i c Hi) as [H1 H2].
    split; [exact H1|]. intros Hmore. apply H2. simpl in Hmore. lia.
Qed.

Lemma slice_chunk n i l : slice i (i + n) l = take n (drop i l).
Proof. unfold slice. replace (i + n - i) with n by lia. reflexivity. Qed.

Lemma more_chunks n i l :
  (i + n <? length l) = negb (bool_decide (drop n (drop i l) = [])).
Proof.
  rewrite drop_drop.
  destruct (Nat.ltb_spec (i + n) (length l)) as [Hlt|Hge].
  - rewrite bool_decide_eq_false_2; [reflexivity|].
    intros Hnil. apply (f_equal length) in Hnil.
    rewrite length_drop in Hnil. simpl in Hnil. lia.
  - rewrite bool_decide_eq_true_2; [reflexivity|]. apply drop_ge. lia.
Qed.

End ChunkFacts.

(** ** Metadata *)

Section MetadataMaps.

Implicit Types (mint : string) (mints : list string).

Lemma token_map_snoc (allTokens : list CatalogToken) (token : CatalogToken) :
  token_map (allTokens ++ [token])
  = <[ct_address token := metadata_of token]> (token_map allTokens).
Proof. unfold token_map. rewrite fold_left_app. reflexivity. Qed.

(** A mint the catalog does not list has no entry in [tokenMap]; a mint it
    lists has the metadata of one of its entries. *)
Lemma token_map_lookup (allTokens : list CatalogToken) mint :
  (mint ∉ map ct_address allTokens → token_map allTokens !! mint = None)
  ∧ (mint ∈ map ct_address allTokens →
     ∃ token, token ∈ allTokens ∧ ct_address token = mint
              ∧ token_map allTokens !! mint = Some (metadata_of token)).
Proof.
  induction allTokens as [|token allTokens [IH1 IH2]] using rev_ind.
  - split; [reflexivity|]. intros Hin. inversion Hin.
  - rewrite token_map_snoc, map_app. simpl. split.
    + intros Hnot. rewrite lookup_insert_ne.
      * apply IH1. intros Hin. apply Hnot. apply elem_of_app. auto.
      * intros Heq. apply Hnot. apply elem_of_app. right. rewrite Heq. left.
    + intros Hin. destruct (decide (ct_address token = mint)) as [Heq|Hne].
      * exists token. split; [apply elem_of_app; right; left|].
        split; [exact Heq|]. rewrite <- Heq. apply lookup_insert_eq.
      * apply elem_of_app in Hin. destruct Hin as [Hin|Hin].
        -- destruct (IH2 Hin) as (t & Ht & Ha & Hl).
           exists t. split; [apply elem_of_app; auto|]. split; [exact Ha|].
           rewrite lookup_insert_ne by exact Hne. exact Hl.
        -- apply list_elem_of_singleton in Hin. congruence.
Qed.

Lemma metadata_from_map_lookup (tokenMap : gmap string TokenMetadata) mints :
  ∀ (metadata : gmap string TokenMetadata) mint,
    metadata_from_map tokenMap mints metadata !! mint
    = if decide (mint ∈ mints) then Some (default unknown_metadata (tokenMap !! mint))
      else metadata !! mint.
Proof.
  unfold metadata_from_map.
  induction mints as [|m mints IH]; intros metadata mint.
  - destruct (decide (mint ∈ [])) as [H|_]; [inversion H|reflexivity].
  - cbn [fold_left]. rewrite IH.
    destruct (decide (mint ∈ mints)) as [Hin|Hnot];
      destruct (decide (mint ∈ m :: mints)) as [Hin'|Hnot'].
    + reflexivity.
    + exfalso. apply Hnot'. right. exact Hin.
    + apply elem_of_cons in Hin'. destruct Hin' as [->|Hin']; [|contradiction].
      destruct (tokenMap !! m); simpl; apply lookup_insert_eq.
    + assert (m ≠ mint) by (intros ->; apply Hnot'; left).
      destruct (tokenMap !! m); simpl; apply lookup_insert_ne; assumption.
Qed.

Lemma record_outcomes_snoc (outcomes : list (string * option TokenMetadata))
    (outcome : string * option TokenMetadata) (metadata : gmap string TokenMetadata) :
  record_outcomes (outcomes ++ [outcome]) metadata
  = match outcome with
    | (mint, Some data) => <[mint := data]> (record_outcomes outcomes metadata)
    | (_, None) => record_outcomes outcomes metadata
    end.
Proof. unfold record_outcomes. rewrite fold_left_app. reflexivity. Qed.

Lemma record_outcomes_app (o1 o2 : list (string * option TokenMetadata))
    (metadata : gmap string TokenMetadata) :
  record_outcomes (o1 ++ o2) metadata = record_outcomes o2 (record_outcomes o1 metadata).
Proof. unfold record_outcomes. apply fold_left_app. Qed.

(** The recorded metadata holds exactly the mints of which some lookup
    succeeded, each with the data of a lookup of that mint. *)
Lemma record_outcomes_lookup (outcomes : list (string * option TokenMetadata)) mint :
  (∀ data, record_outcomes outcomes ∅ !! mint = Some data → (mint, Some data) ∈ outcomes)
  ∧ ((∃ data, (mint, Some data) ∈ outcomes) → is_Some (record_outcomes outcomes ∅ !! mint)).
Proof.
  induction outcomes as [|[m o] outcomes [IH1 IH2]] using rev_ind.
  - split.
    + intros data H. unfold record_outcomes in H. simpl in H.
      rewrite lookup_empty in H. discriminate.
    + intros (data & H). inversion H.
  - rewrite record_outcomes_snoc. split.
    + intros data H. apply elem_of_app. destruct o as [d|].
      * destruct (decide (m = mint)) as [->|Hne].
        -- rewrite lookup_insert_eq in H. inversion H; subst. right. left.
        -- rewrite lookup_insert_ne in H by exact Hne. left. apply IH1. exact H.
      * left. apply IH1. exact H.
    + intros (data & H). apply elem_of_app in H. destruct H as [H|H].
      * assert (Hs : is_Some (record_outcomes outcomes ∅ !! mint)) by (apply IH2; eauto).
        destruct o as [d|]; [|exact Hs].
        destruct (decide (m = mint)) as [->|Hne].
        -- rewrite lookup_insert_eq. eauto.
        -- rewrite lookup_insert_ne by exact Hne. exact Hs.
      * apply list_elem_of_singleton in H. inversion H; subst.
        rewrite lookup_insert_eq. eauto.
Qed.

Lemma record_results_outcomes (outcomes : list (string * option TokenMetadata))
    (metadata : gmap string TokenMetadata) :
  record_results (map Ok outcomes) metadata = record_outcomes outcomes metadata.
Proof.
  unfold record_results, record_outcomes. revert metadata.
  induction outcomes as [|[m [d|]] outcomes IH]; intros metadata; simpl; auto.
Qed.

Lemma str_or_nonempty (s : option string) (d : string) : d ≠ "" → str_or s d ≠ "".
Proof.
  intros Hd. unfold str_or. destruct s as [v|]; [|exact Hd].
  destruct (decide (v = "")); assumption.
Qed.

Lemma metadata_of_named (token : CatalogToken) :
  md_symbol (metadata_of token) ≠ "" ∧ md_name (metadata_of token) ≠ "".
Proof. split; apply str_or_nonempty; discriminate. Qed.

End MetadataMaps.

Section MetadataFacts.

Context {Env : Type} {provider : Provider Env}.
Variable cfg : Config.

(** A per-mint promise never rejects: it delivers the outcome of its lookup. *)
Lemma metadata_one_run (mint : string) (w : World Env) :
  metadata_one cfg mint w
  = (Ok (mint, lookup_outcome (fst (fetch_token (token_url cfg mint) (env w)))),
     Build_World (db w) (snd (fetch_token (token_url cfg mint) (env w)))
       (trace w ++ [EvFetchToken (token_url cfg mint)])).
Proof.
  unfold metadata_one, try_catch, bind, call, token_url.
  destruct (fetch_token _ (env w)) as [[resp|e] env1]; simpl; [|reflexivity].
  destruct (resp_ok resp); simpl; [|reflexivity].
  unfold lift. destruct (resp_json resp); reflexivity.
Qed.

Lemma all_settled_lookups : ∀ (batch : list string) (w : World Env),
  ∃ outcomes w',
    all_settled (map (metadata_one cfg) batch) w = (Ok (map Ok outcomes), w')
    ∧ map fst outcomes = batch
    ∧ lookups cfg outcomes
    ∧ trace w' = trace w ++ map (fun mint => EvFetchToken (token_url cfg mint)) batch
    ∧ db w' = db w.
Proof.
  induction batch as [|mint batch IH]; intros w.
  - exists [], w. simpl. rewrite app_nil_r. repeat split. constructor.
  - cbn [map all_settled]. rewrite metadata_one_run.
    match goal with
    | |- context [all_settled _ ?w1] => destruct (IH w1) as (os & w' & Hrun & Hfst & Hl & Ht & Hd)
    end.
    rewrite Hrun.
    exists ((mint, lookup_outcome (fst (fetch_token (token_url cfg mint) (env w)))) :: os), w'.
    split; [reflexivity|]. split; [simpl; rewrite Hfst; reflexivity|].
    split; [constructor; [eexists; reflexivity|exact Hl]|].
    split; [rewrite Ht; simpl; rewrite <- app_assoc; reflexivity|].
    rewrite Hd. reflexivity.
Qed.

Lemma resolve_chunk_run (batch : list string) (metadata : gmap string TokenMetadata)
    (w : World Env) :
  ∃ outcomes w',
    resolve_chunk cfg batch metadata w = (Ok (record_outcomes outcomes metadata), w')
    ∧ map fst outcomes = batch
    ∧ lookups cfg outcomes
    ∧ trace w' = trace w ++ map (fun mint => EvFetchToken (token_url cfg mint)) batch
    ∧ db w' = db w.
Proof.
  destruct (all_settled_lookups batch w) as (os & w' & Hrun & Hrest).
  exists os, w'. split; [|exact Hrest].
  unfold resolve_chunk, bind. rewrite Hrun. unfold ret.
  rewrite record_results_outcomes. reflexivity.
Qed.

Lemma fallback_chunks_run : ∀ (cs : list (list string))
    (metadata : gmap string TokenMetadata) (w : World Env),
  ∃ outcomes w',
    run_chunks (resolve_chunk cfg) 100 cs metadata w
    = (Ok (record_outcomes outcomes metadata), w')
    ∧ map fst outcomes = concat cs
    ∧ lookups cfg outcomes
    ∧ trace w' = trace w ++ fallback_events cfg cs
    ∧ db w' = db w.
Proof.
  induction cs as [|c cs IH]; intros metadata w.
  - exists [], w. simpl. rewrite app_nil_r. repeat split. constructor.
  - destruct (resolve_chunk_run c metadata w) as (o1 & w1 & Hrun1 & Hf1 & Hl1 & Ht1 & Hd1).
    cbn [run_chunks fallback_events concat]. unfold bind at 1. rewrite Hrun1.
    unfold bind at 1.
    destruct cs as [|c2 cs'].
    + exists o1, w1. simpl. rewrite !app_nil_r. auto.
    + cbn [sleep].
      match goal with
      | |- context [run_chunks _ _ _ ?m ?w2] =>
          destruct (IH m w2) as (o2 & w' & Hrun2 & Hf2 & Hl2 & Ht2 & Hd2)
      end.
      exists (o1 ++ o2), w'. rewrite Hrun2.
      split; [rewrite record_outcomes_app; reflexivity|].
      split; [rewrite map_app, Hf1, Hf2; reflexivity|].
      split; [apply Forall_app; split; assumption|].
      split; [rewrite Ht2; simpl; rewrite Ht1, <- !app_assoc; reflexivity|].
      rewrite Hd2. simpl. exact Hd1.
Qed.

(** The promises of a chunk deliver, mint by mint, what the lookup of that
    mint delivered in the environment the lookups before it left. *)
Lemma all_settled_exact : ∀ (batch : list string) (w : World Env),
  all_settled (map (metadata_one cfg) batch) w
  = (Ok (map Ok (fst (lookups_from cfg batch (env w)))),
     Build_World (db w) (snd (lookups_from cfg batch (env w)))
       (trace w ++ map (fun mint => EvFetchToken (token_url cfg mint)) batch)).
Proof.
  induction batch as [|mint batch IH]; intros w.
  - destruct w. simpl. rewrite app_nil_r. reflexivity.
  - cbn [map all_settled lookups_from]. rewrite metadata_one_run, IH. cbn [db env trace].
    destruct (fetch_token (token_url cfg mint) (env w)) as [r e1]. cbn [fst snd].
    destruct (lookups_from cfg batch e1) as [os e2]. cbn [fst snd map].
    rewrite <- app_assoc. reflexivity.
Qed.

Lemma resolve_chunk_exact (batch : list string) (metadata : gmap string TokenMetadata)
    (w : World Env) :
  resolve_chunk cfg batch metadata w
  = (Ok (record_outcomes (fst (lookups_from cfg batch (env w))) metadata),
     Build_World (db w) (snd (lookups_from cfg batch (env w)))
       (trace w ++ map (fun mint => EvFetchToken (token_url cfg mint)) batch)).
Proof.
  unfold resolve_chunk, bind. rewrite all_settled_exact. unfold ret.
  rewrite record_results_outcomes. reflexivity.
Qed.

Lemma fallback_chunks_exact : ∀ (cs : list (list string))
    (metadata : gmap string TokenMetadata) (w : World Env),
  run_chunks (resolve_chunk cfg) 100 cs metadata w
  = (Ok (record_outcomes (fst (chunk_lookups cfg cs (env w))) metadata),
     Build_World (db w) (snd (chunk_lookups cfg cs (env w)))
       (trace w ++ fallback_events cfg cs)).
Proof.
  induction cs as [|c cs IH]; intros metadata w.
  - destruct w. simpl. rewrite app_nil_r. reflexivity.
  - cbn [run_chunks fallback_events chunk_lookups]. unfold bind at 1.
    rewrite resolve_chunk_exact. unfold bind at 1.
    destruct (lookups_from cfg c (env w)) as [o1 e1]. cbn [fst snd].
    destruct cs as [|c2 cs'].
    + simpl. rewrite !app_nil_r. reflexivity.
    + cbn [sleep]. rewrite IH. cbn [db env trace].
      destruct (chunk_lookups cfg (c2 :: cs') (setTimeout 100 e1)) as [o2 e3].
      cbn [fst snd]. rewrite record_outcomes_app, <- !app_assoc. reflexivity.
Qed.

Lemma lookups_from_keys : ∀ (batch : list string) (e : Env),
  map fst (fst (lookups_from cfg batch e)) = batch
  ∧ lookups cfg (fst (lookups_from cfg batch e)).
Proof.
  induction batch as [|mint batch IH]; intros e.
  - split; [reflexivity|constructor].
  - cbn [lookups_from].
    destruct (fetch_token (token_url cfg mint) e) as [r e1] eqn:Hfetch.
    destruct (IH e1) as [Hk Hl].
    destruct (lookups_from cfg batch e1) as [os e2]. cbn [fst snd map] in *.
    split; [rewrite Hk; reflexivity|].
    constructor; [|exact Hl]. exists e. cbn [fst snd]. rewrite Hfetch. reflexivity.
Qed.

Lemma chunk_lookups_keys : ∀ (cs : list (list string)) (e : Env),
  map fst (fst (chunk_lookups cfg cs e)) = concat cs
  ∧ lookups cfg (fst (chunk_lookups cfg cs e)).
Proof.
  induction cs as [|c cs IH]; intros e.
  - split; [reflexivity|constructor].
  - cbn [chunk_lookups concat].
    destruct (lookups_from_keys c e) as [Hk1 Hl1].
    destruct (lookups_from cfg c e) as [o1 e1]. cbn [fst snd] in *.
    match goal with
    | |- context [chunk_lookups cfg cs ?e2] => destruct (IH e2) as [Hk2 Hl2];
        destruct (chunk_lookups cfg cs e2) as [o2 e3]
    end.
    cbn [fst snd] in *. split.
    + rewrite map_app, Hk1, Hk2. reflexivity.
    + apply Forall_app. split; assumption.
Qed.

(** The fallback's [for] loop is the chunks of 10 mints resolved one after
    the other, 100 ms apart. *)
Lemma metadata_fallback_chunks (mints : list string) :
  ∀ (fuel i : nat) (metadata : gmap string TokenMetadata) (w : World Env),
    length (drop i mints) ≤ fuel →
    metadata_fallback cfg fuel mints i metadata w
    = run_chunks (resolve_chunk cfg) 100 (chunks 10 (drop i mints)) metadata w.
Proof.
  induction fuel as [|fuel IH]; intros i metadata w Hfuel.
  - destruct (drop i mints); simpl in Hfuel; [reflexivity|lia].
  - cbn [metadata_fallback]. rewrite length_drop in Hfuel.
    destruct (Nat.ltb_spec i (length mints)) as [Hlt|Hge].
    + assert (Hne : drop i mints ≠ []).
      { intros Hnil. apply (f_equal length) in Hnil.
        rewrite length_drop in Hnil. simpl in Hnil. lia. }
      rewrite chunks_cons by (auto; lia). cbn [run_chunks].
      rewrite slice_chunk, more_chunks.
      unfold resolve_chunk, bind at 1 3 4.
      destruct (all_settled (map (metadata_one cfg) (take 10 (drop i mints))) w)
        as [[rs|e] w1]; [|reflexivity].
      unfold ret at 2.
      assert (Hrest : chunks 10 (drop 10 (drop i mints)) = [] ↔
                      drop 10 (drop i mints) = []).
      { split; intros H.
        - destruct (drop 10 (drop i mints)) eqn:Hd; [reflexivity|].
          rewrite chunks_cons in H by (auto; try lia; discriminate). discriminate.
        - rewrite H. reflexivity. }
      assert (Hnext : drop (i + 10) mints = drop 10 (drop i mints))
        by (rewrite drop_drop; reflexivity).
      case_bool_decide as Hd.
      * apply Hrest in Hd as Hc. rewrite Hc. simpl negb. cbv iota.
        unfold bind, ret. rewrite IH by (rewrite length_drop; lia).
        rewrite Hnext, Hc. reflexivity.
      * destruct (chunks 10 (drop 10 (drop i mints))) as [|c2 cs] eqn:Hc;
          [exfalso; apply Hd, Hrest; reflexivity|].
        simpl negb. cbv iota. unfold bind. cbn [sleep].
        rewrite IH by (rewrite length_drop; lia).
        rewrite Hnext, Hc. reflexivity.
    + rewrite drop_ge by lia. reflexivity.
Qed.

(** The bulk fetch delivered the catalog: every requested mint is served
    from it, after the one request. *)
Lemma getTokenMetadata_bulk (mints : list string) (w : World Env)
    (response : Response (list CatalogToken)) (env1 : Env) (allTokens : list CatalogToken) :
  mints ≠ [] →
  fetch_token_list (jupiterTokensApiUrl cfg) (env w) = (Ok response, env1) →
  resp_ok response = true →
  resp_json response = Ok allTokens →
  getTokenMetadata cfg mints w
  = (Ok (metadata_from_map (token_map allTokens) mints ∅),
     Build_World (db w) env1 (trace w ++ [EvFetchTokenList (jupiterTokensApiUrl cfg)])).
Proof.
  intros Hne Hfetch Hok Hjson. unfold getTokenMetadata.
  destruct (Nat.eqb_spec (length mints) 0) as [Hz|_];
    [destruct mints; [congruence|discriminate]|].
  unfold bind at 1, metadata_bulk, try_catch, bind, call.
  rewrite Hfetch, Hok. unfold lift. rewrite Hjson. reflexivity.
Qed.

(** The bulk fetch failed: the fallback runs from the world the failed
    request left. *)
Lemma getTokenMetadata_fallback (mints : list string) (w : World Env) :
  mints ≠ [] →
  response_failed (fst (fetch_token_list (jupiterTokensApiUrl cfg) (env w))) = true →
  getTokenMetadata cfg mints w
  = run_chunks (resolve_chunk cfg) 100 (chunks 10 mints) ∅
      (Build_World (db w) (snd (fetch_token_list (jupiterTokensApiUrl cfg) (env w)))
         (trace w ++ [EvFetchTokenList (jupiterTokensApiUrl cfg)])).
Proof.
  intros Hne Hfail. unfold getTokenMetadata.
  destruct (Nat.eqb_spec (length mints) 0) as [Hz|_];
    [destruct mints; [congruence|discriminate]|].
  assert (Hloop : ∀ w1, metadata_fallback cfg (length mints) mints 0 ∅ w1
                        = run_chunks (resolve_chunk cfg) 100 (chunks 10 mints) ∅ w1).
  { intros w1. rewrite metadata_fallback_chunks by (rewrite drop_0; lia).
    rewrite drop_0. reflexivity. }
  unfold bind at 1, metadata_bulk, try_catch, bind, call.
  destruct (fetch_token_list _ (env w)) as [[resp|e] env1]; cbn [fst snd] in *.
  - unfold response_failed in Hfail. destruct (resp_ok resp); cbn [negb orb] in Hfail.
    + unfold lift. destruct (resp_json resp) as [l|e]; [discriminate|]. apply Hloop.
    + apply Hloop.
  - apply Hloop.
Qed.

(** Whatever the providers do, [getTokenMetadata] returns, and every entry
    it returns has a symbol and a name. *)
Lemma getTokenMetadata_named (mints : list string) (w : World Env) :
  ∃ metadata w',
    getTokenMetadata cfg mints w = (Ok metadata, w')
    ∧ ∀ mint data, metadata !! mint = Some data →
                   mint ∈ mints ∧ md_symbol data ≠ "" ∧ md_name data ≠ "".
Proof.
  destruct mints as [|m mints].
  { exists ∅, w. split; [reflexivity|]. intros mint data H.
    rewrite lookup_empty in H. discriminate. }
  set (ms := m :: mints). assert (Hne : ms ≠ []) by discriminate.
  destruct (response_failed (fst (fetch_token_list (jupiterTokensApiUrl cfg) (env w))))
    eqn:Hfail.
  - rewrite getTokenMetadata_fallback by assumption.
    match goal with
    | |- context [run_chunks _ _ _ _ ?w1] =>
        destruct (fallback_chunks_run (chunks 10 ms) ∅ w1) as (os & w' & Hrun & Hf & Hl & _)
    end.
    rewrite Hrun. eexists _, _. split; [reflexivity|].
    intros mint data Hlook.
    apply (proj1 (record_outcomes_lookup os mint)) in Hlook.
    split.
    + rewrite chunks_concat in Hf by lia. rewrite <- Hf.
      apply (list_elem_of_fmap_2 fst) in Hlook. exact Hlook.
    + unfold lookups in Hl. rewrite Forall_forall in Hl.
      destruct (Hl _ Hlook) as (e0 & Ho). simpl in Ho.
      unfold lookup_outcome in Ho.
      destruct (fst (fetch_token _ e0)) as [resp|]; [|discriminate].
      destruct (resp_ok resp); [|discriminate].
      destruct (resp_json resp) as [tok|]; [|discriminate].
      inversion Ho; subst. apply metadata_of_named.
  - destruct (fetch_token_list _ (env w)) as [[resp|e] env1] eqn:Hfetch;
      simpl in Hfail; [|discriminate].
    apply orb_false_iff in Hfail. destruct Hfail as [Hok Hjson].
    apply negb_false_iff in Hok.
    destruct (resp_json resp) as [allTokens|e] eqn:Hj; [|discriminate].
    rewrite (getTokenMetadata_bulk ms w resp env1 allTokens) by assumption.
    eexists _, _. split; [reflexivity|].
    intros mint data Hlook. rewrite metadata_from_map_lookup in Hlook.
    destruct (decide (mint ∈ ms)) as [Hin|]; [|rewrite lookup_empty in Hlook; discriminate].
    split; [exact Hin|]. inversion Hlook; subst.
    destruct (decide (mint ∈ map ct_address allTokens)) as [Hcat|Hcat].
    + destruct (proj2 (token_map_lookup allTokens mint) Hcat) as (tok & _ & _ & ->).
      simpl. apply metadata_of_named.
    + rewrite (proj1 (token_map_lookup allTokens mint) Hcat). simpl.
      split; discriminate.
Qed.

End MetadataFacts.

(** ** Prices *)

Section PriceStore.

Implicit Types (mint : string) (rows : list TokenPrice) (row : TokenPrice).

Lemma uniq_elem (l : list string) (x : string) : x ∈ uniq l ↔ x ∈ l.
Proof.
  induction l as [|y l IH]; simpl; [reflexivity|].
  rewrite !elem_of_cons, list_elem_of_filter, IH.
  destruct (decide (x = y)); tauto.
Qed.

Lemma uniq_NoDup (l : list string) : NoDup (uniq l).
Proof.
  induction l as [|y l IH]; simpl; constructor.
  - rewrite list_elem_of_filter. intros [H _]. apply H. reflexivity.
  - apply NoDup_filter. exact IH.
Qed.

Lemma find_upsert_price mint row rows :
  List.find (fun p => bool_decide (tp_mint p = mint)) (upsert_price row rows)
  = if decide (tp_mint row = mint) then Some row
    else List.find (fun p => bool_decide (tp_mint p = mint)) rows.
Proof.
  induction rows as [|r rows IH]; simpl.
  - destruct (decide (tp_mint row = mint)) as [H|H].
    + rewrite bool_decide_eq_true_2 by exact H. reflexivity.
    + rewrite bool_decide_eq_false_2 by exact H. reflexivity.
  - destruct (decide (tp_mint r = tp_mint row)) as [Heq|Hne]; simpl.
    + destruct (decide (tp_mint row = mint)) as [H|H].
      * rewrite bool_decide_eq_true_2 by exact H. reflexivity.
      * rewrite bool_decide_eq_false_2 by exact H.
        rewrite bool_decide_eq_false_2 by congruence. reflexivity.
    + rewrite IH. destruct (decide (tp_mint row = mint)) as [H|H].
      * rewrite bool_decide_eq_false_2 by congruence. reflexivity.
      * reflexivity.
Qed.

Lemma upsert_price_mints row rows :
  tp_mint row ∈ map tp_mint rows →
  map tp_mint (upsert_price row rows) = map tp_mint rows.
Proof.
  induction rows as [|r rows IH]; intros Hin; [inversion Hin|]. simpl.
  destruct (decide (tp_mint r = tp_mint row)) as [Heq|Hne]; simpl.
  - rewrite Heq. reflexivity.
  - f_equal. apply IH. simpl in Hin. apply elem_of_cons in Hin.
    destruct Hin as [Hin|Hin]; [congruence|exact Hin].
Qed.

Lemma upsert_price_new row rows :
  tp_mint row ∉ map tp_mint rows →
  map tp_mint (upsert_price row rows) = map tp_mint rows ++ [tp_mint row].
Proof.
  induction rows as [|r rows IH]; intros Hnot; [reflexivity|]. simpl.
  simpl in Hnot. apply not_elem_of_cons in Hnot. destruct Hnot as [Hne Hnot].
  rewrite decide_False by congruence. simpl. f_equal. apply IH. exact Hnot.
Qed.

(** An upsert keeps the table keyed by mint: at most one row per mint. *)
Lemma upsert_price_NoDup row rows :
  NoDup (map tp_mint rows) → NoDup (map tp_mint (upsert_price row rows)).
Proof.
  intros Hnd. destruct (decide (tp_mint row ∈ map tp_mint rows)) as [Hin|Hnot].
  - rewrite upsert_price_mints by exact Hin. exact Hnd.
  - rewrite upsert_price_new by exact Hnot.
    apply NoDup_app. split; [exact Hnd|]. split.
    + intros x Hx Hx'. apply list_elem_of_singleton in Hx'. subst. contradiction.
    + apply NoDup_singleton.
Qed.

Lemma stored_snoc (entries : list (string * option Qc)) (entry : string * option Qc)
    (metadata : gmap string TokenMetadata) (t : Z) (d : Db) :
  stored (entries ++ [entry]) metadata t d
  = upsertTokenPrice
      (price_row (fst entry) (metadata_or_default metadata (fst entry)) (snd entry) t)
      (stored entries metadata t d).
Proof. unfold stored. rewrite fold_left_app. reflexivity. Qed.

Lemma priced_snoc (entries : list (string * option Qc)) (entry : string * option Qc)
    (metadata : gmap string TokenMetadata) (prices : gmap string PriceEntry) :
  priced (entries ++ [entry]) metadata prices
  = <[fst entry := price_entry (metadata_or_default metadata (fst entry)) (snd entry)]>
      (priced entries metadata prices).
Proof. unfold priced. rewrite fold_left_app. reflexivity. Qed.

(** After the loop, every mint of the response has its row in the store and
    its entry in the result, both made from an entry of the response for
    that mint; the other tables are as they were. *)
Lemma stored_lookup (entries : list (string * option Qc))
    (metadata : gmap string TokenMetadata) (t : Z) (d : Db)
    (prices : gmap string PriceEntry) :
  (∀ mint, mint ∈ map fst entries →
     ∃ info, (mint, info) ∈ entries
             ∧ find_price mint (stored entries metadata t d)
               = Some (price_row mint (metadata_or_default metadata mint) info t)
             ∧ priced entries metadata prices !! mint
               = Some (price_entry (metadata_or_default metadata mint) info))
  ∧ (∀ mint, mint ∉ map fst entries →
       find_price mint (stored entries metadata t d) = find_price mint d)
  ∧ wallet_balances (stored entries metadata t d) = wallet_balances d
  ∧ fetch_logs (stored entries metadata t d) = fetch_logs d
  ∧ (NoDup (map tp_mint (token_prices d)) →
     NoDup (map tp_mint (token_prices (stored entries metadata t d)))).
Proof.
  induction entries as [|[m i] entries (IH1 & IH2 & IH3 & IH4 & IH5)] using rev_ind.
  - split; [intros mint H; inversion H|]. repeat split; auto.
  - rewrite stored_snoc, priced_snoc, map_app. cbn [fst snd map].
    unfold find_price, getAllTokenPrices in *. cbn [upsertTokenPrice token_prices
      wallet_balances fetch_logs].
    split; [|split; [|split; [|split]]].
    + intros mint Hin. rewrite find_upsert_price. cbn [price_row tp_mint].
      destruct (decide (m = mint)) as [->|Hne].
      * exists i. split; [apply elem_of_app; right; left|].
        split; [reflexivity|apply lookup_insert_eq].
      * apply elem_of_app in Hin. destruct Hin as [Hin|Hin];
          [|apply list_elem_of_singleton in Hin; congruence].
        destruct (IH1 mint Hin) as (info & Hi & Hf & Hp).
        exists info. split; [apply elem_of_app; auto|]. split; [exact Hf|].
        rewrite lookup_insert_ne by exact Hne. exact Hp.
    + intros mint Hnot. apply not_elem_of_app in Hnot. destruct Hnot as [Hnot Hm].
      rewrite find_upsert_price. cbn [price_row tp_mint].
      rewrite decide_False; [apply IH2; exact Hnot|].
      intros ->. apply Hm. left.
    + exact IH3.
    + exact IH4.
    + intros Hnd. apply upsert_price_NoDup. apply IH5. exact Hnd.
Qed.

End PriceStore.

Section PriceFacts.

Context {Env : Type} {provider : Provider Env}.
Variable cfg : Config.

Lemma store_prices_run (metadata : gmap string TokenMetadata) :
  ∀ (entries : list (string * option (option Qc))) (prices : gmap string PriceEntry)
    (w : World Env),
    store_prices entries metadata prices w
    = (if null_entry entries then Throw null_price_error
       else Ok (priced (readable entries) metadata prices),
       Build_World (stored (readable entries) metadata (Date_now (env w)) (db w))
         (env w) (trace w)).
Proof.
  induction entries as [|[mint [info|]] entries IH]; intros prices w.
  - destruct w; reflexivity.
  - cbn [store_prices null_entry readable]. unfold bind, now, db_write. rewrite IH.
    reflexivity.
  - destruct w; reflexivity.
Qed.

Lemma readable_all (entries : list (string * option (option Qc))) :
  null_entry entries = false →
  map fst (readable entries) = map fst entries
  ∧ ∀ mint info, (mint, info) ∈ readable entries ↔ (mint, Some info) ∈ entries.
Proof.
  induction entries as [|[m [i|]] entries IH]; cbn [null_entry readable map fst].
  - intros _. split; [reflexivity|]. intros mint info. split; intros H; inversion H.
  - intros Hnull. destruct (IH Hnull) as [Hkeys Hin]. split; [rewrite Hkeys; reflexivity|].
    intros mint info. rewrite !elem_of_cons, Hin. split.
    + intros [Heq|H]; [left; congruence | right; exact H].
    + intros [Heq|H]; [left; congruence | right; exact H].
  - discriminate.
Qed.

Global Instance same_price_queries_preorder : PreOrder same_price_queries.
Proof.
  split; [intros t; reflexivity|].
  intros x y z; unfold same_price_queries; congruence.
Qed.

Lemma price_queries_app (t1 t2 : list Event) :
  price_queries (t1 ++ t2) = price_queries t1 ++ price_queries t2.
Proof.
  induction t1 as [|e t1 IH]; simpl; [reflexivity|].
  destruct e; simpl; rewrite IH; reflexivity.
Qed.

Lemma same_price_queries_snoc (e : Event) (t : list Event) :
  (∀ url, e ≠ EvFetchPrice url) → same_price_queries t (t ++ [e]).
Proof.
  intros He. unfold same_price_queries. rewrite price_queries_app.
  destruct e; simpl; rewrite ?app_nil_r; try reflexivity.
  exfalso. eapply He. reflexivity.
Qed.

Lemma getTokenMetadata_no_price_query (mints : list string) :
  respects (on_trace same_price_queries) (getTokenMetadata cfg mints).
Proof.
  assert (Hsleep : ∀ ms, respects (Env:=Env) (on_trace same_price_queries) (sleep ms)).
  { intros ms. rapply trace_respects_sleep. intros t.
    apply same_price_queries_snoc. discriminate. }
  assert (Hone : ∀ mint, respects (on_trace same_price_queries) (metadata_one cfg mint)).
  { intros mint. unfold metadata_one.
    rapply respects_try_catch; [|intros e; rapply respects_ret].
    rapply respects_bind.
    - rapply trace_respects_call. intros t. apply same_price_queries_snoc. discriminate.
    - intros resp. destruct (negb _); [rapply respects_ret|].
      rapply respects_bind; [rapply respects_lift|]. intros d. rapply respects_ret. }
  assert (Hloop : ∀ fuel i md,
             respects (on_trace same_price_queries) (metadata_fallback cfg fuel mints i md)).
  { induction fuel as [|fuel IH]; intros i md; simpl; [rapply respects_ret|].
    destruct (i <? length mints); [|rapply respects_ret].
    rapply respects_bind.
    - rapply respects_all_settled. intros p Hp.
      apply list_elem_of_fmap in Hp. destruct Hp as (mint & -> & _). apply Hone.
    - intros results. rapply respects_bind.
      + destruct (_ <? _); [apply Hsleep|rapply respects_ret].
      + intros _. apply IH. }
  unfold getTokenMetadata, metadata_bulk.
  destruct (length mints =? 0); [rapply respects_ret|].
  rapply respects_bind.
  - rapply respects_try_catch; [|intros e; rapply respects_ret].
    rapply respects_bind.
    + rapply trace_respects_call. intros t. apply same_price_queries_snoc. discriminate.
    + intros resp. destruct (resp_ok resp); [|rapply respects_ret].
      rapply respects_bind; [rapply respects_lift|]. intros l. rapply respects_ret.
  - intros [md|]; [rapply respects_ret|apply Hloop].
Qed.

Lemma getTokenPrices_run (mints : list string) (w : World Env) :
  mints ≠ [] →
  ∃ metadata w2,
    db w2 = db w
    ∧ price_queries (trace w2) = price_queries (trace w) ++ [price_url cfg mints]
    ∧ getTokenPrices cfg mints w
      = prices_outcome w w2 metadata (fst (fetch_price (price_url cfg mints) (env w))).
Proof.
  intros Hne. unfold getTokenPrices.
  destruct (Nat.eqb_spec (length mints) 0) as [Hz|_];
    [destruct mints; [congruence|discriminate]|].
  unfold bind at 1, now. unfold try_catch, bind at 1, getTokenPrices_fetch.
  unfold bind at 1, promise_all2, call.
  destruct (fetch_price (price_url cfg mints) (env w)) as [r env1]. cbn [fst].
  set (w1 := Build_World (db w) env1 (trace w ++ [EvFetchPrice (price_url cfg mints)])).
  destruct (getTokenMetadata_named cfg (mintsWithSol mints) w1) as (md & w2 & Hmd & _).
  pose proof (getTokenMetadata_respects cfg eq (mintsWithSol mints) w1) as Hdb.
  pose proof (getTokenMetadata_no_price_query (mintsWithSol mints) w1) as Htr.
  rewrite Hmd in *. unfold on_db, on_trace, same_price_queries in *. cbn [snd db trace] in *.
  exists md, w2. split; [rewrite <- Hdb; reflexivity|]. split.
  { rewrite Htr. unfold w1. cbn [trace]. rewrite price_queries_app. reflexivity. }
  unfold prices_outcome, prices_failed. destruct r as [resp|e]; cbn [fst snd].
  - destruct (resp_ok resp); cbn [negb].
    + unfold bind at 1, lift. destruct (resp_json resp) as [body|e].
      * rewrite store_prices_run. cbv zeta.
        destruct (null_entry (default [] (pb_data body)));
          unfold bind, now, db_write, ret, throw; cbn [db env trace];
          rewrite <- Hdb; reflexivity.
      * unfold bind, now, db_write, throw. cbn [db env trace]. rewrite <- Hdb. reflexivity.
    + unfold throw at 1. unfold bind, now, db_write, throw. cbn [db env trace].
      rewrite <- Hdb. reflexivity.
  - unfold bind, now, db_write, throw. cbn [db env trace]. rewrite <- Hdb. reflexivity.
Qed.

End PriceFacts.

(** ** Wallet pipeline and batches *)

Section BatchFacts.

Context {Env : Type} {provider : Provider Env}.
Variable cfg : Config.

Lemma getWalletData_failure (address walletId : string) (w w1 : World Env) (error : exn) :
  getWalletData_try cfg address walletId w = (Throw error, w1) →
  getWalletData cfg address walletId w
  = (Throw error,
     Build_World
       (upsertWalletBalance (error_row address walletId error (Date_now (env w1))) (db w1))
       (env w1) (trace w1)).
Proof.
  intros Htry. unfold getWalletData, try_catch. rewrite Htry. reflexivity.
Qed.

Lemma getWalletData_success (address walletId : string) (w w1 : World Env) (wd : WalletData) :
  getWalletData_try cfg address walletId w = (Ok wd, w1) →
  getWalletData cfg address walletId w = (Ok wd, w1).
Proof.
  intros Htry. unfold getWalletData, try_catch. rewrite Htry. reflexivity.
Qed.

(** One promise of a chunk never rejects: it counts the wallet. *)
Lemma process_wallet_run (wallet : Wallet) (results : BatchResults) (w : World Env) :
  process_wallet cfg wallet results w
  = match getWalletData cfg (wallet_address wallet) (wallet_id wallet) w with
    | (Ok _, w') =>
        (Ok {| successful := S (successful results);
               failed := failed results;
               errors := errors results |}, w')
    | (Throw error, w') =>
        (Ok {| successful := successful results;
               failed := S (failed results);
               errors := errors results ++ [error_entry wallet error] |}, w')
    end.
Proof.
  unfold process_wallet, try_catch, bind.
  destruct (getWalletData cfg _ _ w) as [[wd|e] w']; reflexivity.
Qed.

Lemma tally_nil (results : BatchResults) : tally [] results results.
Proof.
  exists []. rewrite app_nil_r. simpl. repeat split; auto; lia.
Qed.

Lemma tally_app (b1 b2 : list Wallet) (r0 r1 r2 : BatchResults) :
  tally b1 r0 r1 → tally b2 r1 r2 → tally (b1 ++ b2) r0 r2.
Proof.
  intros (n1 & He1 & Hf1 & Hs1 & Hall1) (n2 & He2 & Hf2 & Hs2 & Hall2).
  exists (n1 ++ n2). rewrite He2, He1, <- app_assoc, !length_app.
  repeat split; try lia.
  apply Forall_app. split.
  - eapply Forall_impl; [exact Hall1|]. intros entry (wallet & e & Hin & ->).
    exists wallet, e. split; [apply elem_of_app; auto|reflexivity].
  - eapply Forall_impl; [exact Hall2|]. intros entry (wallet & e & Hin & ->).
    exists wallet, e. split; [apply elem_of_app; auto|reflexivity].
Qed.

Lemma process_wallet_tally (wallet : Wallet) (results : BatchResults) (w : World Env) :
  ∃ results' w',
    process_wallet cfg wallet results w = (Ok results', w')
    ∧ tally [wallet] results results'.
Proof.
  rewrite process_wallet_run.
  destruct (getWalletData cfg _ _ w) as [[wd|e] w']; eexists _, _; (split; [reflexivity|]).
  - exists []. simpl. rewrite app_nil_r. repeat split; auto; lia.
  - exists [error_entry wallet e]. simpl. repeat split; try lia.
    constructor; [|constructor]. exists wallet, e. split; [left|reflexivity].
Qed.

Lemma process_chunk_tally : ∀ (batch : list Wallet) (results : BatchResults) (w : World Env),
  ∃ results' w',
    process_chunk cfg batch results w = (Ok results', w') ∧ tally batch results results'.
Proof.
  induction batch as [|wallet batch IH]; intros results w.
  - exists results, w. split; [reflexivity|apply tally_nil].
  - destruct (process_wallet_tally wallet results w) as (r1 & w1 & Hrun1 & Ht1).
    destruct (IH r1 w1) as (r2 & w2 & Hrun2 & Ht2).
    exists r2, w2. split.
    + cbn [process_chunk]. unfold bind. rewrite Hrun1. exact Hrun2.
    + apply (tally_app [wallet] batch results r1 r2); assumption.
Qed.

Lemma run_chunks_tally : ∀ (cs : list (list Wallet)) (results : BatchResults) (w : World Env),
  ∃ results' w',
    run_chunks (process_chunk cfg) 2000 cs results w = (Ok results', w')
    ∧ tally (concat cs) results results'.
Proof.
  induction cs as [|c cs IH]; intros results w.
  - exists results, w. split; [reflexivity|apply tally_nil].
  - destruct (process_chunk_tally c results w) as (r1 & w1 & Hrun1 & Ht1).
    cbn [run_chunks concat]. unfold bind at 1. rewrite Hrun1. unfold bind at 1.
    destruct cs as [|c2 cs'].
    + simpl. exists r1, w1. split; [reflexivity|].
      rewrite app_nil_r. exact Ht1.
    + cbn [sleep].
      destruct (IH r1 (Build_World (db w1) (setTimeout 2000 (env w1))
                         (trace w1 ++ [EvTimeout 2000])))
        as (r2 & w2 & Hrun2 & Ht2).
      exists r2, w2. split; [exact Hrun2|].
      apply (tally_app c (concat (c2 :: cs')) results r1 r2); assumption.
Qed.

Lemma add_counts_nil (results : BatchResults) : add_counts results [] = results.
Proof.
  destruct results. unfold add_counts, successes, failures, failure_entries. simpl.
  rewrite !Nat.add_0_r, app_nil_r. reflexivity.
Qed.

Lemma add_counts_app (results : BatchResults) (o1 o2 : list (Wallet * Result WalletData)) :
  add_counts (add_counts results o1) o2 = add_counts results (o1 ++ o2).
Proof.
  unfold add_counts, successes, failures, failure_entries. cbn [successful failed errors].
  rewrite !filter_app, !length_app, omap_app, !Nat.add_assoc, app_assoc. reflexivity.
Qed.

Lemma failures_entries (outcomes : list (Wallet * Result WalletData)) :
  length (failure_entries outcomes) = failures outcomes
  ∧ successes outcomes + failures outcomes = length outcomes.
Proof.
  unfold failure_entries, failures, successes.
  induction outcomes as [|[wallet [wd|e]] outcomes [IH1 IH2]]; [split; reflexivity| |].
  - cbn [omap snd fst]. rewrite !filter_cons. cbn [snd is_throw].
    repeat case_decide; try congruence. simpl.
    split; [exact IH1|f_equal; exact IH2].
  - cbn [omap snd fst]. rewrite !filter_cons. cbn [snd is_throw].
    repeat case_decide; try congruence. simpl.
    split; [f_equal; exact IH1|rewrite Nat.add_succ_r; f_equal; exact IH2].
Qed.

(** A chunk runs the pipeline of every one of its wallets and counts each
    by its own outcome. *)
Lemma process_chunk_settles : ∀ (batch : list Wallet) (results : BatchResults) (w : World Env),
  process_chunk cfg batch results w
  = (Ok (add_counts results (fst (settle_all cfg batch w))), snd (settle_all cfg batch w)).
Proof.
  induction batch as [|wallet batch IH]; intros results w.
  - cbn [process_chunk settle_all fst snd]. rewrite add_counts_nil. reflexivity.
  - cbn [process_chunk settle_all]. unfold bind. rewrite process_wallet_run.
    destruct (getWalletData cfg _ _ w) as [[wd|e] w1]; rewrite IH;
      destruct (settle_all cfg batch w1) as [os w2]; cbn [fst snd]; f_equal; f_equal.
    + change ((wallet, Ok wd) :: os) with ([(wallet, @Ok WalletData wd)] ++ os).
      rewrite <- add_counts_app. f_equal.
      unfold add_counts, successes, failures, failure_entries. simpl.
      rewrite app_nil_r, Nat.add_0_r, Nat.add_1_r. reflexivity.
    + change ((wallet, Throw e) :: os) with ([(wallet, @Throw WalletData e)] ++ os).
      rewrite <- add_counts_app. f_equal.
      unfold add_counts, successes, failures, failure_entries. simpl.
      rewrite Nat.add_0_r, Nat.add_1_r. reflexivity.
Qed.

Lemma settle_all_wallets : ∀ (batch : list Wallet) (w : World Env),
  map fst (fst (settle_all cfg batch w)) = batch.
Proof.
  induction batch as [|wallet batch IH]; intros w; [reflexivity|].
  cbn [settle_all]. destruct (getWalletData cfg _ _ w) as [r w1].
  specialize (IH w1). destruct (settle_all cfg batch w1) as [os w2].
  cbn [fst map] in *. rewrite IH. reflexivity.
Qed.

Lemma run_chunks_settles : ∀ (cs : list (list Wallet)) (results : BatchResults) (w : World Env),
  run_chunks (process_chunk cfg) 2000 cs results w
  = (Ok (add_counts results (fst (settle_chunks cfg cs w))), snd (settle_chunks cfg cs w)).
Proof.
  induction cs as [|c cs IH]; intros results w.
  - cbn [run_chunks settle_chunks fst snd]. rewrite add_counts_nil. reflexivity.
  - cbn [run_chunks settle_chunks]. unfold bind at 1. rewrite process_chunk_settles.
    unfold bind at 1.
    destruct (settle_all cfg c w) as [o1 w1]. cbn [fst snd].
    destruct cs as [|c2 cs'].
    + simpl. rewrite app_nil_r. reflexivity.
    + cbn [sleep snd]. rewrite IH.
      destruct (settle_chunks cfg (c2 :: cs') _) as [o2 w3]. cbn [fst snd].
      rewrite add_counts_app. reflexivity.
Qed.

Lemma settle_chunks_wallets : ∀ (cs : list (list Wallet)) (w : World Env),
  map fst (fst (settle_chunks cfg cs w)) = concat cs.
Proof.
  induction cs as [|c cs IH]; intros w; [reflexivity|].
  cbn [settle_chunks concat]. pose proof (settle_all_wallets c w) as H1.
  destruct (settle_all cfg c w) as [o1 w1].
  match goal with
  | |- context [settle_chunks cfg cs ?w2] => specialize (IH w2);
      destruct (settle_chunks cfg cs w2) as [o2 w3]
  end.
  cbn [fst] in *. rewrite map_app, H1, IH. reflexivity.
Qed.

(** The [for] loop is the chunks of the list run one after the other. *)
Lemma batch_loop_chunks (wallets : list Wallet) (batchSize : nat) :
  0 < batchSize →
  ∀ (fuel i : nat) (results : BatchResults) (w : World Env),
    length (drop i wallets) < fuel →
    batch_loop cfg fuel wallets batchSize i results w
    = finished (run_chunks (process_chunk cfg) 2000
                  (chunks batchSize (drop i wallets)) results w).
Proof.
  intros Hn. induction fuel as [|fuel IH]; intros i results w Hfuel; [lia|].
  cbn [batch_loop]. rewrite length_drop in Hfuel.
  destruct (Nat.ltb_spec i (length wallets)) as [Hlt|Hge].
  - assert (Hne : drop i wallets ≠ []).
    { intros Hnil. apply (f_equal length) in Hnil.
      rewrite length_drop in Hnil. simpl in Hnil. lia. }
    rewrite chunks_cons by assumption. cbn [run_chunks].
    rewrite slice_chunk, more_chunks. unfold bind at 1 3.
    destruct (process_chunk cfg (take batchSize (drop i wallets)) results w)
      as [[r1|e] w1]; [|reflexivity].
    assert (Hrest : chunks batchSize (drop batchSize (drop i wallets)) = [] ↔
                    drop batchSize (drop i wallets) = []).
    { split; intros H.
      - destruct (drop batchSize (drop i wallets)) eqn:Hd; [reflexivity|].
        rewrite chunks_cons in H by (auto; discriminate). discriminate.
      - rewrite H. reflexivity. }
    assert (Hnext : drop (i + batchSize) wallets = drop batchSize (drop i wallets))
      by (rewrite drop_drop; reflexivity).
    case_bool_decide as Hd.
    + apply Hrest in Hd as Hc. rewrite Hc. simpl negb. cbv iota.
      unfold bind, ret. rewrite IH by (rewrite length_drop; lia).
      rewrite Hnext, Hc. reflexivity.
    + destruct (chunks batchSize (drop batchSize (drop i wallets))) as [|c2 cs] eqn:Hc;
        [exfalso; apply Hd, Hrest; reflexivity|].
      simpl negb. cbv iota. unfold bind. cbn [sleep].
      rewrite IH by (rewrite length_drop; lia).
      rewrite Hnext, Hc. reflexivity.
  - rewrite drop_ge by lia. reflexivity.
Qed.

(** An operation that always fails makes [withRetry] fail. *)
Lemma withRetry_loop_fails {T} (operation : M Env T) (n : nat) (baseDelay : Z) :
  (∀ w, is_throw (fst (operation w)) = true) →
  ∀ remaining attempt w,
    is_throw (fst (withRetry_loop operation n baseDelay remaining attempt w)) = true.
Proof.
  intros Hop. induction remaining as [|remaining IH]; intros attempt w; [reflexivity|].
  cbn [withRetry_loop]. unfold try_catch. specialize (Hop w).
  destruct (operation w) as [[v|e] w1]; simpl in Hop; [discriminate|].
  destruct (attempt =? n - 1); [reflexivity|].
  unfold bind. cbn [sleep]. apply IH.
Qed.

(** When the balance call fails on both connections whenever it is made,
    the pipeline of the wallet fails. *)
Lemma balance_outage_fails (address walletId : string) (w : World Env) :
  (∀ c e0, is_throw (fst (rpc_getBalance c address e0)) = true) →
  is_throw (fst (getWalletData_try cfg address walletId w)) = true.
Proof.
  intros Hout.
  assert (Hfetch : ∀ w0, is_throw (fst (getSOLBalance_fetch cfg address w0)) = true).
  { intros w0. unfold getSOLBalance_fetch, new_PublicKey, bind.
    destruct (PublicKey_valid address); [|reflexivity]. simpl.
    unfold addToQueue, try_catch at 1, bind.
    match goal with
    | |- context [withRetry ?op ?n ?d w0] =>
        pose proof (withRetry_loop_fails op n d) as Hloop
    end.
    unfold withRetry.
    match type of Hloop with
    | ?P → _ => assert (Hop : P)
    end.
    { intros w1. unfold try_catch, call.
      pose proof (Hout Primary (env w1)) as Hp.
      destruct (rpc_getBalance Primary address (env w1)) as [[b|e] e1];
        simpl in Hp; [discriminate|]. simpl.
      pose proof (Hout Fallback e1) as Hf.
      destruct (rpc_getBalance Fallback address e1) as [[b|e'] e2];
        simpl in Hf; [discriminate|]. reflexivity. }
    specialize (Hloop Hop (maxRetries cfg) 0 w0).
    destruct (withRetry_loop _ _ _ _ _ w0) as [[v|e] w2]; simpl in *;
      [discriminate|reflexivity]. }
  assert (Hbal : ∀ w0, is_throw (fst (getSOLBalance cfg address w0)) = true).
  { intros w0. unfold getSOLBalance, bind, now, try_catch. simpl.
    specialize (Hfetch w0).
    destruct (getSOLBalance_fetch cfg address w0) as [[b|e] w1]; simpl in *;
      [discriminate|reflexivity]. }
  unfold getWalletData_try, bind at 1, promise_all2.
  specialize (Hbal w).
  destruct (getSOLBalance cfg address w) as [[b|e] w1]; simpl in Hbal; [discriminate|].
  destruct (getTokenAccounts cfg address w1) as [rb w2]. reflexivity.
Qed.

(** With chunks of size 0 the loop never ends. *)
Lemma batch_loop_zero (wallets : list Wallet) :
  0 < length wallets →
  ∀ (fuel : nat) (results : BatchResults) (w : World Env),
    fst (batch_loop cfg fuel wallets 0 0 results w) = Ok None.
Proof.
  intros Hlen. induction fuel as [|fuel IH]; intros results w; [reflexivity|].
  cbn [batch_loop]. rewrite Nat.add_0_r.
  destruct (Nat.ltb_spec 0 (length wallets)) as [_|]; [|lia].
  unfold slice. rewrite Nat.sub_diag, take_0. cbn [process_chunk].
  unfold bind, ret. cbn [sleep]. apply IH.
Qed.

End BatchFacts.

(** ** Enrichment *)

Section EnrichmentFacts.

Context {Env : Type} {provider : Provider Env}.
Variable cfg : Config.

Lemma num_or_zero (x : Qc) : num_or x 0%Qc = x.
Proof. unfold num_or. destruct (decide (x = 0%Qc)); congruence. Qed.

Lemma usd_or_zero_value (token : TokenAccount) : usd_or_zero token = usd_value token.
Proof.
  unfold usd_or_zero, usd_value. destruct (ta_usdValue token); simpl; [apply num_or_zero|].
  reflexivity.
Qed.





End EnrichmentFacts.

(** ** The audit log *)

Section LogFacts.

Context {Env : Type} {provider : Provider Env}.
Variable cfg : Config.

Lemma log_grows_insert (entry : FetchLog) (d : Db) : log_grows d (insertFetchLog entry d).
Proof. unfold log_grows, insertFetchLog; simpl. eexists. reflexivity. Qed.

Lemma log_grows_price (row : TokenPrice) (d : Db) : log_grows d (upsertTokenPrice row d).
Proof. unfold log_grows, upsertTokenPrice; simpl. reflexivity. Qed.

Lemma log_grows_wallet (row : WalletBalance) (d : Db) :
  log_grows d (upsertWalletBalance row d).
Proof. unfold log_grows, upsertWalletBalance; simpl. reflexivity. Qed.

Lemma getSOLBalance_logged (address : string) (w : World Env) :
  logged_once address "balance" w
    (snd (getSOLBalance cfg address w)) (fst (getSOLBalance cfg address w)).
Proof.
  pose proof (getSOLBalance_fetch_respects cfg eq address w) as Hdb.
  unfold on_db in Hdb. unfold getSOLBalance, bind, now, try_catch. simpl.
  destruct (getSOLBalance_fetch cfg address w) as [[balance|e] w1]; simpl in *;
    unfold logged_once; simpl; rewrite <- Hdb;
    eexists; (split; [reflexivity|]); simpl; auto 10.
Qed.

Lemma getTokenAccounts_logged (address : string) (w : World Env) :
  logged_once address "tokens" w
    (snd (getTokenAccounts cfg address w)) (fst (getTokenAccounts cfg address w)).
Proof.
  pose proof (getTokenAccounts_fetch_respects cfg eq address w) as Hdb.
  unfold on_db in Hdb. unfold getTokenAccounts, bind, now, try_catch. simpl.
  destruct (getTokenAccounts_fetch cfg address w) as [[accounts|e] w1]; simpl in *;
    unfold logged_once; simpl; rewrite <- Hdb;
    eexists; (split; [reflexivity|]); simpl; auto 10.
Qed.

End LogFacts.

(** ** Native price *)

Section SolPriceFacts.

Context {Env : Type} {provider : Provider Env}.
Variable cfg : Config.

(** The [try] block throws exactly when the provider call fails, and then
    it has not touched the cache store. *)
Lemma getSOLPrice_fetch_fails (w : World Env) :
  response_failed (fst (fetch_price (sol_price_url cfg) (env w))) = true →
  ∃ e w1, getSOLPrice_fetch cfg w = (Throw e, w1) ∧ db w1 = db w.
Proof.
  unfold getSOLPrice_fetch, sol_price_url, bind, call.
  destruct (fetch_price _ (env w)) as [[resp|e] env1]; simpl.
  - destruct (resp_ok resp); simpl.
    + destruct (resp_json resp) as [body|e]; simpl; [discriminate|].
      intros _. unfold lift. eauto.
    + intros _. unfold throw. eauto.
  - intros _. eauto.
Qed.

Lemma getSOLPrice_on_failure (w : World Env) :
  response_failed (fst (fetch_price (sol_price_url cfg) (env w))) = true →
  fst (getSOLPrice cfg w) = Ok (cached_or_default (cached_sol (db w))).
Proof.
  intros Hfail. destruct (getSOLPrice_fetch_fails w Hfail) as (e & w1 & Hrun & Hdb).
  unfold getSOLPrice, try_catch. rewrite Hrun.
  unfold bind, db_read, ret. simpl. rewrite Hdb. reflexivity.
Qed.

Lemma getSOLPrice_never_throws (w : World Env) :
  is_throw (fst (getSOLPrice cfg w)) = false.
Proof.
  unfold getSOLPrice, try_catch.
  destruct (getSOLPrice_fetch cfg w) as [[p|e] w1]; reflexivity.
Qed.

End SolPriceFacts.

(** * The specified properties *)

Section QueueClaims.

Import FetchQueue.

(** C2, as amended.  Whatever the callers and the outside do, the queue
    never has two operations in flight, starts operations in the order of
    their submission, starts the next only after the previous settled, and
    settles each submitter's promise with the outcome of its own operation,
    a failure included.  When an activation resumes after an operation, it
    waits [rateLimitDelay] if and only if an operation is waiting in the
    queue; an operation submitted to an idle queue starts at once, without
    a delay.  So [N >= 1] operations submitted in one burst, before the
    first of them settles, are all run, in order, with exactly [N - 1]
    delays, whatever their outcomes. *)
Theorem fetch_queue_schedule {T : Type} (rateLimitDelay : Z) :
  (∀ (es : list (Stimulus T)) (s : State T),
     run rateLimitDelay (initial T) es = Some s →
     length (in_flight s) ≤ 1
     ∧ submitted (observed s) = started (observed s) ++ requestQueue s
     ∧ started (observed s) = map fst (settled (observed s)) ++ in_flight s
     ∧ settled (observed s) = settlements es
     ∧ (∀ s', resume rateLimitDelay s = Some s' →
          observed s' =
            observed s ++
            match requestQueue s with
            | [] => []
            | _ :: _ => [Delayed rateLimitDelay]
            end)
     ∧ (∀ op, isProcessingQueue s = false →
          observed (addToQueue op s) = observed s ++ [Submitted op; Started op]))
  ∧ (∀ (outcome : OpId → Result T) (ops : list OpId),
       ops ≠ [] →
       ∃ s, run rateLimitDelay (initial T) (burst outcome ops) = Some s
            ∧ requestQueue s = [] ∧ isProcessingQueue s = false
            ∧ started (observed s) = ops
            ∧ settled (observed s) = map (fun op => (op, outcome op)) ops
            ∧ pacing (observed s) = replicate (length ops - 1) rateLimitDelay).
Proof.
  split.
  - intros es s Hrun.
    assert (Hinv : queue_inv s) by (eapply run_inv; [apply initial_inv|exact Hrun]).
    split; [apply in_flight_at_most_one; exact Hinv|].
    split; [apply (inv_fifo s Hinv)|].
    split; [apply (inv_serial s Hinv)|].
    split; [apply (run_settled _ _ _ _ Hrun)|].
    split.
    + intros s' Hres. unfold resume in Hres. case_decide as Hin; [|discriminate].
      destruct (busy_with _ _ Hinv Hin) as [_ Hacts].
      destruct s as [q p acts obs]; simpl in *. subst acts.
      rewrite remove_first_head in Hres.
      destruct q; simpl in Hres; inversion Hres; subst; simpl;
        rewrite ?app_nil_r; reflexivity.
    + intros op Hidle. apply submit_idle; assumption.
  - intros outcome ops Hne.
    destruct (run_burst rateLimitDelay outcome ops Hne)
      as (s & Hrun & Hq & Hp & _ & Hsta & Hset & Hpac).
    exists s. auto 10.
Qed.

(** C2, the claim as stated fails: two operations, the second submitted
    after the first has settled and the queue has gone idle, are run back
    to back without any delay between them. *)
Lemma fetch_queue_delay_counterexample :
  ∃ s : State unit,
    run 100 (initial unit)
      [Submit 1; OperationSettles 1 (Ok tt); Resume;
       Submit 2; OperationSettles 2 (Ok tt); Resume] = Some s
    ∧ observed s =
        [Submitted 1; Started 1; Settled 1 (Ok tt);
         Submitted 2; Started 2; Settled 2 (Ok tt)]
    ∧ length (started (observed s)) = 2
    ∧ ¬ (2 - 1 ≤ length (pacing (observed s))).
Proof.
  eexists. split; [vm_compute; reflexivity|].
  split; [reflexivity|]. split; [reflexivity|]. vm_compute. lia.
Qed.

Lemma fetch_queue_schedule_witness :
  (∃ s : State unit,
     run 100 (initial unit)
       [Submit 1; Submit 2; OperationSettles 1 (Throw (ErrorObj "429")); Resume; TimerFires]
     = Some s
     ∧ length (in_flight s) ≤ 1
     ∧ settled (observed s) = [(1, Throw (ErrorObj "429"))])
  ∧ (∃ s : State unit,
       run 100 (initial unit) (burst (fun _ => Ok tt) [1; 2; 3]) = Some s
       ∧ pacing (observed s) = [100%Z; 100%Z]).
Proof.
  destruct (@fetch_queue_schedule unit 100) as [Hany Hburst].
  split.
  - eexists. split; [vm_compute; reflexivity|].
    match goal with
    | |- length (in_flight ?s) ≤ 1 ∧ _ =>
        destruct (Hany
          [Submit 1; Submit 2; OperationSettles 1 (Throw (ErrorObj "429")); Resume; TimerFires]
          s eq_refl) as (H1 & _ & _ & H4 & _)
    end.
    split; [exact H1 | exact H4].
  - destruct (Hburst (fun _ => Ok tt) [1; 2; 3] ltac:(discriminate))
      as (s & Hrun & _ & _ & _ & _ & Hpac).
    exists s. split; [exact Hrun | exact Hpac].
Defined.

End QueueClaims.

Section SolPriceClaims.

Context {Env : Type} {provider : Provider Env}.
Variable cfg : Config.

(** C7, as amended.  When the price-provider call for the native currency
    fails and the store holds a price other than 0 for the native mint,
    [getSOLPrice] does not raise and returns that cached price. *)
Theorem getSOLPrice_cached (w : World Env) (cached : TokenPrice) :
  response_failed (fst (fetch_price (sol_price_url cfg) (env w))) = true →
  cached_sol (db w) = Some cached →
  tp_price cached ≠ 0%Qc →
  fst (getSOLPrice cfg w) = Ok (tp_price cached).
Proof.
  intros Hfail Hcached Hprice. rewrite getSOLPrice_on_failure by exact Hfail.
  rewrite Hcached. unfold cached_or_default, num_or.
  rewrite decide_False by exact Hprice. reflexivity.
Qed.

(** C10.  [getSOLPrice] never raises.  When the provider call fails and the
    store holds no price for the native mint, or holds the price 0, it
    returns the constant 150. *)
Theorem getSOLPrice_total (w : World Env) :
  is_throw (fst (getSOLPrice cfg w)) = false
  ∧ (response_failed (fst (fetch_price (sol_price_url cfg) (env w))) = true →
     (cached_sol (db w) = None
      ∨ ∃ cached, cached_sol (db w) = Some cached ∧ tp_price cached = 0%Qc) →
     fst (getSOLPrice cfg w) = Ok (Qc_of_Z 150)).
Proof.
  split; [apply getSOLPrice_never_throws|].
  intros Hfail Hcache. rewrite getSOLPrice_on_failure by exact Hfail.
  destruct Hcache as [->|(cached & -> & Hzero)]; [reflexivity|].
  unfold cached_or_default, num_or. rewrite decide_True by exact Hzero. reflexivity.
Qed.

End SolPriceClaims.

(** C7, the scenario of the specification: the provider is out, the store
    holds the price 150, and [getSOLPrice] returns 150. *)
Lemma getSOLPrice_cached_witness :
  fst (getSOLPrice (provider := scripted outage) default_config
         (boot (sol_cached (Qc_of_Z 150))))
  = Ok (Qc_of_Z 150).
Proof.
  apply (getSOLPrice_cached (provider := scripted outage) default_config
           (boot (sol_cached (Qc_of_Z 150)))
           {| tp_mint := SOL_MINT; tp_symbol := "SOL"; tp_name := "Solana";
              tp_price := Qc_of_Z 150; tp_price_change_24h := None;
              tp_market_cap := None; tp_image_url := None; tp_last_updated := 0;
              tp_source := "jupiter" |}).
  - reflexivity.
  - reflexivity.
  - discriminate.
Defined.

(** C7, the claim as stated fails.  A price query for M1 is answered with
    an entry for the native mint that carries no price, which
    [getTokenPrices] stores as 0; then the provider goes out, and
    [getSOLPrice] returns 150, not the cached price. *)
Lemma getSOLPrice_cached_counterexample :
  let w :=
    snd (getTokenPrices (provider := scripted unpriced_sol_script) default_config ["M1"]
           (boot empty_db)) in
  response_failed
    (fst (fetch_price (Provider := scripted unpriced_sol_script)
            (sol_price_url default_config) (env w)))
  = true
  ∧ (tp_price <$> cached_sol (db w)) = Some 0%Qc
  ∧ fst (getSOLPrice (provider := scripted unpriced_sol_script) default_config w)
    = Ok (Qc_of_Z 150)
  ∧ Qc_of_Z 150 ≠ 0%Qc.
Proof.
  split; [vm_compute; reflexivity|]. split; [vm_compute; reflexivity|].
  split; [vm_compute; reflexivity|]. discriminate.
Qed.

Lemma getSOLPrice_total_witness :
  fst (getSOLPrice (provider := scripted outage) default_config (boot empty_db))
  = Ok (Qc_of_Z 150)
  ∧ fst (getSOLPrice (provider := scripted outage) default_config (boot (sol_cached 0%Qc)))
    = Ok (Qc_of_Z 150).
Proof.
  split.
  - apply (getSOLPrice_total (provider := scripted outage) default_config (boot empty_db)).
    + reflexivity.
    + left. reflexivity.
  - apply (getSOLPrice_total (provider := scripted outage) default_config
             (boot (sol_cached 0%Qc))).
    + reflexivity.
    + right. eexists. split; reflexivity.
Defined.

Section LogClaims.

Context {Env : Type} {provider : Provider Env}.
Variable cfg : Config.

(** C9.  A call of [getSOLBalance] or of [getTokenAccounts], from any world
    and with any outcome, appends exactly one entry to the log: for that
    address and operation, with the latency, with status success when the
    call returns, with status error and the error's message when it
    raises.  No operation of the engine ever shortens or rewrites the log:
    the log it leaves extends the log it found. *)
Theorem fetch_log_append_only :
  (∀ (address : string) (w : World Env),
     logged_once address "balance" w
       (snd (getSOLBalance cfg address w)) (fst (getSOLBalance cfg address w)))
  ∧ (∀ (address : string) (w : World Env),
       logged_once address "tokens" w
         (snd (getTokenAccounts cfg address w)) (fst (getTokenAccounts cfg address w)))
  ∧ (∀ address, respects (on_db log_grows) (getSOLBalance cfg address))
  ∧ (∀ address, respects (on_db log_grows) (getTokenAccounts cfg address))
  ∧ (∀ mints, respects (on_db log_grows) (getTokenMetadata cfg mints))
  ∧ respects (on_db log_grows) (getSOLPrice cfg)
  ∧ (∀ mints, respects (on_db log_grows) (getTokenPrices cfg mints))
  ∧ (∀ address walletId, respects (on_db log_grows) (getWalletData cfg address walletId))
  ∧ (∀ fuel wallets batchSize,
       respects (on_db log_grows) (processWalletBatch cfg fuel wallets batchSize)).
Proof.
  pose proof log_grows_insert as Hi.
  pose proof log_grows_price as Hp.
  pose proof log_grows_wallet as Hw.
  split; [apply getSOLBalance_logged|].
  split; [apply getTokenAccounts_logged|].
  split; [intros; rapply getSOLBalance_respects; assumption|].
  split; [intros; rapply getTokenAccounts_respects; assumption|].
  split; [intros; rapply getTokenMetadata_respects|].
  split; [rapply getSOLPrice_respects; assumption|].
  split; [intros; rapply getTokenPrices_respects; assumption|].
  split; [intros; rapply getWalletData_respects; assumption|].
  intros; rapply processWalletBatch_respects; assumption.
Qed.

End LogClaims.

Section BatchClaims.

Context {Env : Type} {provider : Provider Env}.
Variable cfg : Config.

(** C3, as amended.  For every wallet list and every [batchSize >= 1]:
    a promise of a chunk never rejects, it counts its wallet as a success,
    or as a failure with one entry "{address}: {message}"; the loop ends,
    and it is the chunks of the list ([batchSize] wallets each, the last
    possibly fewer) processed one after the other, every wallet of a chunk
    being processed whatever happened to the others; the results have
    [successful + failed] equal to the number of wallets and one entry in
    [errors] per failure.  A failure stops neither the wallets nor the
    chunks after it: the pipeline of every wallet of the list is run, chunk
    after chunk with 2000 ms between two chunks, and the results count the
    wallets whose own pipeline returned as successful, those whose own
    pipeline raised as failed, and hold the entries of exactly these
    failures. *)
Theorem processWalletBatch_counts (wallets : list Wallet) (batchSize : nat) (w : World Env) :
  0 < batchSize →
  (∀ wallet results w0,
     process_wallet cfg wallet results w0
     = match getWalletData cfg (wallet_address wallet) (wallet_id wallet) w0 with
       | (Ok _, w') =>
           (Ok {| successful := S (successful results);
                  failed := failed results;
                  errors := errors results |}, w')
       | (Throw error, w') =>
           (Ok {| successful := successful results;
                  failed := S (failed results);
                  errors := errors results ++ [error_entry wallet error] |}, w')
       end)
  ∧ concat (chunks batchSize wallets) = wallets
  ∧ (∀ i c, chunks batchSize wallets !! i = Some c →
       0 < length c ≤ batchSize
       ∧ (S i < length (chunks batchSize wallets) → length c = batchSize))
  ∧ (∀ fuel, length wallets < fuel →
     ∃ results w',
       processWalletBatch cfg fuel wallets batchSize w = (Ok (Some results), w')
       ∧ run_chunks (process_chunk cfg) 2000 (chunks batchSize wallets)
           {| successful := 0; failed := 0; errors := [] |} w
         = (Ok results, w')
       ∧ successful results + failed results = length wallets
       ∧ length (errors results) = failed results
       ∧ Forall (fun entry =>
                   ∃ wallet error, wallet ∈ wallets ∧ entry = error_entry wallet error)
           (errors results)
       ∧ ∃ outcomes,
           (outcomes, w') = settle_chunks cfg (chunks batchSize wallets) w
           ∧ map fst outcomes = wallets
           ∧ successful results = successes outcomes
           ∧ failed results = failures outcomes
           ∧ errors results ≡ₚ failure_entries outcomes).
Proof.
  intros Hn.
  split; [apply process_wallet_run|].
  split; [apply chunks_concat; exact Hn|].
  split; [apply chunks_lengths; exact Hn|].
  intros fuel Hfuel.
  destruct (run_chunks_tally cfg (chunks batchSize wallets)
              {| successful := 0; failed := 0; errors := [] |} w)
    as (results & w' & Hrun & new & Herr & Hfail & Hsucc & Hall).
  exists results, w'.
  split.
  { unfold processWalletBatch. rewrite batch_loop_chunks by (rewrite ?drop_0; auto).
    rewrite drop_0, Hrun. reflexivity. }
  split; [exact Hrun|].
  rewrite chunks_concat in Hsucc, Hall by exact Hn. simpl in Herr, Hfail, Hsucc.
  split; [lia|]. split; [rewrite Herr; lia|]. split; [rewrite Herr; exact Hall|].
  rewrite run_chunks_settles in Hrun.
  pose proof (settle_chunks_wallets cfg (chunks batchSize wallets) w) as Hkeys.
  rewrite chunks_concat in Hkeys by exact Hn.
  destruct (settle_chunks cfg (chunks batchSize wallets) w) as [outcomes w''].
  cbn [fst snd] in Hrun, Hkeys. injection Hrun as Hres Hw. subst results w''.
  exists outcomes. split; [reflexivity|]. split; [exact Hkeys|].
  split; [reflexivity|]. split; reflexivity.
Qed.

(** C4.  When the pipeline of a wallet fails, and it does when the balance
    call fails on both connections at every attempt, [getWalletData]
    raises the same error after writing, for that address, a record with
    status error, balance 0, no holdings and the error's message; the
    orchestrator counts the wallet as failed, adds its entry to the errors
    and goes on with the rest of the chunk. *)
Theorem getWalletData_error_row (address walletId : string) (w : World Env) (error : exn) :
  fst (getWalletData_try cfg address walletId w) = Throw error →
  fst (getWalletData cfg address walletId w) = Throw error
  ∧ (∃ row,
       getWalletBalance address (db (snd (getWalletData cfg address walletId w))) = Some row
       ∧ wb_wallet_address row = address
       ∧ wb_wallet_id row = walletId
       ∧ wb_fetch_status row = StatusError
       ∧ wb_sol_balance row = 0%Qc
       ∧ wb_tokens row = []
       ∧ wb_error_message row = Some (error_message error))
  ∧ (∀ results rest,
       process_chunk cfg ({| wallet_id := walletId; wallet_address := address |} :: rest)
         results w
       = process_chunk cfg rest
           {| successful := successful results;
              failed := S (failed results);
              errors := errors results ++ [address +:+ ": " +:+ error_message error] |}
           (snd (getWalletData cfg address walletId w)))
  ∧ ((∀ c e0, is_throw (fst (rpc_getBalance c address e0)) = true) →
     ∀ w0, is_throw (fst (getWalletData_try cfg address walletId w0)) = true).
Proof.
  intros Htry.
  destruct (getWalletData_try cfg address walletId w) as [r w1] eqn:Hrun.
  simpl in Htry. subst r.
  pose proof (getWalletData_failure cfg address walletId w w1 error Hrun) as Hfail.
  split; [rewrite Hfail; reflexivity|].
  split.
  { rewrite Hfail. eexists. split.
    - unfold getWalletBalance, upsertWalletBalance; simpl. apply lookup_insert_eq.
    - simpl. auto 10. }
  split.
  { intros results rest. cbn [process_chunk]. unfold bind.
    rewrite process_wallet_run. cbn [wallet_address wallet_id].
    rewrite Hfail. reflexivity. }
  intros Hout w0. apply balance_outage_fails. exact Hout.
Qed.

End BatchClaims.

(** C3, the scenario of the specification: 12 wallets in chunks of 5 are
    chunks of 5, 5 and 2; the last wallet fails; 11 succeed, 1 fails, and
    the errors have one entry.  And a failure that is not the last: the
    second of 12 wallets fails, the ten wallets after it are processed all
    the same, 11 succeed, and the last wallet has its record of success. *)
Lemma processWalletBatch_counts_witness :
  map length (chunks 5 twelve_wallets) = [5; 5; 2]
  ∧ fst (processWalletBatch (provider := scripted twelve_script) default_config 13
           twelve_wallets 5 (boot empty_db))
    = Ok (Some {| successful := 11; failed := 1;
                  errors := ["bad: Invalid public key input"] |})
  ∧ (∃ results w',
      processWalletBatch (provider := scripted twelve_script) default_config 13
        twelve_wallets 5 (boot empty_db) = (Ok (Some results), w')
      ∧ successful results + failed results = 12)
  ∧ (∃ results w' outcomes,
      processWalletBatch (provider := scripted twelve_script) default_config 13
        second_bad_wallets 5 (boot empty_db) = (Ok (Some results), w')
      ∧ (outcomes, w')
        = settle_chunks (provider := scripted twelve_script) default_config
            (chunks 5 second_bad_wallets) (boot empty_db)
      ∧ map (fun outcome => is_throw (snd outcome)) outcomes
        = [false; true; false; false; false; false; false; false; false; false; false; false]
      ∧ successful results = 11
      ∧ failed results = 1
      ∧ errors results ≡ₚ ["bad: Invalid public key input"]
      ∧ (wb_fetch_status <$> getWalletBalance "W12" (db w')) = Some StatusSuccess).
Proof.
  split; [reflexivity|]. split; [vm_compute; reflexivity|].
  split.
  - destruct (processWalletBatch_counts (provider := scripted twelve_script) default_config
                twelve_wallets 5 (boot empty_db) ltac:(lia)) as (_ & _ & _ & Hrun).
    destruct (Hrun 13 ltac:(simpl; lia)) as (results & w' & Hloop & _ & Hsum & _).
    exists results, w'. split; [exact Hloop | exact Hsum].
  - destruct (processWalletBatch_counts (provider := scripted twelve_script) default_config
                second_bad_wallets 5 (boot empty_db) ltac:(lia)) as (_ & _ & _ & Hrun).
    destruct (Hrun 13 ltac:(simpl; lia))
      as (results & w' & Hloop & _ & _ & _ & _ & outcomes & Hall & _ & Hs & Hf & He).
    exists results, w', outcomes. split; [exact Hloop|]. split; [exact Hall|].
    assert (Ho : outcomes
                 = fst (settle_chunks (provider := scripted twelve_script) default_config
                          (chunks 5 second_bad_wallets) (boot empty_db)))
      by (rewrite <- Hall; reflexivity).
    assert (Hw : w'
                 = snd (settle_chunks (provider := scripted twelve_script) default_config
                          (chunks 5 second_bad_wallets) (boot empty_db)))
      by (rewrite <- Hall; reflexivity).
    rewrite Hs, Hf, He, Ho, Hw.
    split; [vm_compute; reflexivity|]. split; [vm_compute; reflexivity|].
    split; [vm_compute; reflexivity|]. split; [|vm_compute; reflexivity].
    match goal with
    | |- ?l ≡ₚ ?r => assert (Hent : l = r) by (vm_compute; reflexivity)
    end.
    rewrite Hent. reflexivity.
Defined.

(** C3, the claim as stated fails: with [batchSize = 0] the loop of
    [processWalletBatch] never ends, however many rounds it is given. *)
Lemma processWalletBatch_zero_counterexample :
  length twelve_wallets = 12
  ∧ ∀ fuel,
      fst (processWalletBatch (provider := scripted twelve_script) default_config fuel
             twelve_wallets 0 (boot empty_db))
      = Ok None.
Proof.
  split; [reflexivity|]. intros fuel. apply batch_loop_zero. simpl. lia.
Qed.

(** C4, under a total outage: after three attempts on both connections the
    pipeline fails, and the record of the wallet is the error record. *)
Lemma getWalletData_error_row_witness :
  let r := getWalletData (provider := scripted outage) default_config "A" "id-A"
             (boot empty_db) in
  fst r = Throw unavailable
  ∧ (wb_fetch_status <$> getWalletBalance "A" (db (snd r))) = Some StatusError
  ∧ (wb_error_message <$> getWalletBalance "A" (db (snd r)))
    = Some (Some "503 Service Unavailable").
Proof.
  intros r.
  destruct (getWalletData_error_row (provider := scripted outage) default_config
              "A" "id-A" (boot empty_db) unavailable)
    as (Hthrow & (row & Hrow & _ & _ & Hstatus & _ & _ & Hmsg) & _).
  { vm_compute. reflexivity. }
  split; [exact Hthrow|]. unfold r. rewrite Hrow. simpl.
  rewrite Hstatus, Hmsg. split; reflexivity.
Defined.

Section MetadataClaims.

Context {Env : Type} {provider : Provider Env}.
Variable cfg : Config.

(** C5.  For a non-empty list of mints.  When the bulk fetch delivers the
    catalog, the one request is all that is asked, and the result has an
    entry for every requested mint and for no other: the metadata of a
    catalog entry for a mint the catalog lists, the sentinel "Unknown" /
    "Unknown Token" without image for a mint it does not list.  When the
    bulk fetch fails, no error is raised; the mints are looked up one by
    one, in chunks of 10 with a timer of 100 ms between two chunks, and
    the result holds exactly the mints of which a lookup succeeded, with
    the data that lookup delivered: the outcomes recorded are those of the
    lookups the call itself makes, each in the environment the bulk fetch
    and the lookups before it left, and the call leaves the environment
    these lookups leave. *)
Theorem getTokenMetadata_resolution (mints : list string) (w : World Env) :
  mints ≠ [] →
  (∀ response env1 allTokens,
     fetch_token_list (jupiterTokensApiUrl cfg) (env w) = (Ok response, env1) →
     resp_ok response = true →
     resp_json response = Ok allTokens →
     ∃ metadata w',
       getTokenMetadata cfg mints w = (Ok metadata, w')
       ∧ trace w' = trace w ++ [EvFetchTokenList (jupiterTokensApiUrl cfg)]
       ∧ (∀ mint, mint ∈ mints → mint ∈ map ct_address allTokens →
            ∃ token, token ∈ allTokens ∧ ct_address token = mint
                     ∧ metadata !! mint = Some (metadata_of token))
       ∧ (∀ mint, mint ∈ mints → mint ∉ map ct_address allTokens →
            metadata !! mint
            = Some {| md_symbol := "Unknown"; md_name := "Unknown Token";
                      md_logoURI := None |})
       ∧ (∀ mint, mint ∉ mints → metadata !! mint = None))
  ∧ (response_failed (fst (fetch_token_list (jupiterTokensApiUrl cfg) (env w))) = true →
     ∃ metadata w' outcomes,
       getTokenMetadata cfg mints w = (Ok metadata, w')
       ∧ map fst outcomes = mints
       ∧ lookups cfg outcomes
       ∧ metadata = record_outcomes outcomes ∅
       ∧ (∀ mint, is_Some (metadata !! mint) ↔ ∃ data, (mint, Some data) ∈ outcomes)
       ∧ (∀ mint data, metadata !! mint = Some data → (mint, Some data) ∈ outcomes)
       ∧ trace w'
         = trace w ++ EvFetchTokenList (jupiterTokensApiUrl cfg)
                      :: fallback_events cfg (chunks 10 mints)
       ∧ concat (chunks 10 mints) = mints
       ∧ (∀ i c, chunks 10 mints !! i = Some c →
            0 < length c ≤ 10 ∧ (S i < length (chunks 10 mints) → length c = 10))
       ∧ (outcomes, env w')
         = chunk_lookups cfg (chunks 10 mints)
             (snd (fetch_token_list (jupiterTokensApiUrl cfg) (env w)))
       ∧ db w' = db w).
Proof.
  intros Hne. split.
  - intros response env1 allTokens Hfetch Hok Hjson.
    rewrite (getTokenMetadata_bulk cfg mints w response env1 allTokens) by assumption.
    eexists _, _. split; [reflexivity|]. split; [reflexivity|].
    split; [|split].
    + intros mint Hin Hcat.
      destruct (proj2 (token_map_lookup allTokens mint) Hcat) as (tok & Ht & Ha & Hl).
      exists tok. split; [exact Ht|]. split; [exact Ha|].
      rewrite metadata_from_map_lookup, decide_True by exact Hin.
      rewrite Hl. reflexivity.
    + intros mint Hin Hcat.
      rewrite metadata_from_map_lookup, decide_True by exact Hin.
      rewrite (proj1 (token_map_lookup allTokens mint) Hcat). reflexivity.
    + intros mint Hnot.
      rewrite metadata_from_map_lookup, decide_False by exact Hnot.
      apply lookup_empty.
  - intros Hfail. rewrite getTokenMetadata_fallback by assumption.
    rewrite fallback_chunks_exact. cbn [db env trace].
    set (env1 := snd (fetch_token_list (jupiterTokensApiUrl cfg) (env w))).
    destruct (chunk_lookups_keys cfg (chunks 10 mints) env1) as [Hf Hl].
    destruct (chunk_lookups cfg (chunks 10 mints) env1) as [os env2] eqn:Hlook.
    cbn [fst snd] in *.
    eexists (record_outcomes os ∅), _, os.
    split; [reflexivity|]. cbn [db env trace].
    split; [rewrite Hf; apply chunks_concat; lia|].
    split; [exact Hl|]. split; [reflexivity|].
    split.
    { intros mint. split.
      - intros [data Hd]. exists data.
        apply (proj1 (record_outcomes_lookup os mint)). exact Hd.
      - apply (proj2 (record_outcomes_lookup os mint)). }
    split; [intros mint; apply (proj1 (record_outcomes_lookup os mint))|].
    split; [rewrite <- app_assoc; reflexivity|].
    split; [apply chunks_concat; lia|].
    split; [apply chunks_lengths; lia|].
    split; reflexivity.
Qed.

End MetadataClaims.

(** C5 on two runs: the catalog lists M1 and not M2; the catalog is out and
    of X and Y only the lookup of X answers. *)
Lemma getTokenMetadata_resolution_witness :
  (∃ metadata w',
     getTokenMetadata (provider := scripted one_token_script) default_config ["M1"; "M2"]
       (boot empty_db) = (Ok metadata, w')
     ∧ metadata !! "M2"
       = Some {| md_symbol := "Unknown"; md_name := "Unknown Token"; md_logoURI := None |})
  ∧ (∃ metadata w' outcomes,
       getTokenMetadata (provider := scripted partial_script) default_config ["X"; "Y"]
         (boot empty_db) = (Ok metadata, w')
       ∧ map fst outcomes = ["X"; "Y"]
       ∧ metadata = record_outcomes outcomes ∅
       ∧ outcomes
         = [ ("X", Some {| md_symbol := "EX"; md_name := "Unknown Token";
                           md_logoURI := None |});
             ("Y", None) ])
  ∧ fst (getTokenMetadata (provider := scripted partial_script) default_config ["X"; "Y"]
           (boot empty_db))
    = Ok {[ "X" := {| md_symbol := "EX"; md_name := "Unknown Token"; md_logoURI := None |} ]}.
Proof.
  split; [|split].
  - destruct (getTokenMetadata_resolution (provider := scripted one_token_script)
                default_config ["M1"; "M2"] (boot empty_db) ltac:(discriminate))
      as [Hbulk _].
    destruct (Hbulk _ _ _ eq_refl eq_refl eq_refl) as (md & w' & Hrun & _ & _ & Hunknown & _).
    exists md, w'. split; [exact Hrun|].
    apply Hunknown.
    + right. left.
    + intros Hin. apply list_elem_of_singleton in Hin. discriminate.
  - destruct (getTokenMetadata_resolution (provider := scripted partial_script)
                default_config ["X"; "Y"] (boot empty_db) ltac:(discriminate))
      as [_ Hfallback].
    destruct (Hfallback eq_refl)
      as (md & w' & os & Hrun & Hf & _ & Hmd & _ & _ & _ & _ & _ & Hexact & _).
    exists md, w', os. repeat split; try assumption.
    vm_compute in Hexact. congruence.
  - vm_compute. reflexivity.
Defined.

Section PriceClaims.

Context {Env : Type} {provider : Provider Env}.
Variable cfg : Config.

(** What [getTokenPrices] does, case by case.  For an empty list of mints
    it asks nothing and writes nothing.  For a non-empty list it sends the
    price provider exactly one query, for the requested mints and the
    native mint, each once, joined by commas.  When the query delivers a
    body none of whose entries is [null], every mint of the body has, after
    the call, its row in the store, found by its mint, with the price read
    from the body, the source "jupiter" and the time of the call's end; the
    store stays keyed by mint; the success is logged.  When the body has a
    [null] entry, the call raises after the rows of the entries before it
    were written, and logs the error.  When the query fails, the failure is
    logged with its message and raised, and no price is written. *)
Lemma getTokenPrices_batch (mints : list string) (w : World Env) :
  getTokenPrices cfg [] w = (Ok ∅, w)
  ∧ (SOL_MINT ∈ mintsWithSol mints
     ∧ NoDup (mintsWithSol mints)
     ∧ ∀ m, m ∈ mintsWithSol mints ↔ m ∈ mints ∨ m = SOL_MINT)
  ∧ (mints ≠ [] →
  price_queries (trace (snd (getTokenPrices cfg mints w)))
    = price_queries (trace w)
      ++ [jupiterApiUrl cfg +:+ "?ids=" +:+ join "," (mintsWithSol mints)]
  ∧ (∀ response body,
       fst (fetch_price (price_url cfg mints) (env w)) = Ok response →
       resp_ok response = true →
       resp_json response = Ok body →
       null_entry (default [] (pb_data body)) = false →
       ∃ prices w',
         getTokenPrices cfg mints w = (Ok prices, w')
         ∧ (∀ mint, mint ∈ map fst (default [] (pb_data body)) →
              ∃ info row entry,
                (mint, Some info) ∈ default [] (pb_data body)
                ∧ find_price mint (db w') = Some row
                ∧ tp_mint row = mint
                ∧ tp_price row = parse_price info
                ∧ tp_source row = "jupiter"
                ∧ tp_last_updated row = Date_now (env w')
                ∧ prices !! mint = Some entry
                ∧ pe_price entry = parse_price info)
         ∧ (NoDup (map tp_mint (token_prices (db w))) →
            NoDup (map tp_mint (token_prices (db w'))))
         ∧ logged_once "system" "prices" w w' (Ok prices))
  ∧ (∀ response body,
       fst (fetch_price (price_url cfg mints) (env w)) = Ok response →
       resp_ok response = true →
       resp_json response = Ok body →
       null_entry (default [] (pb_data body)) = true →
       ∃ error w' metadata,
         getTokenPrices cfg mints w = (Throw error, w')
         ∧ logged_once "system" "prices" w w' (Throw (A:=gmap string PriceEntry) error)
         ∧ token_prices (db w')
           = token_prices (stored (readable (default [] (pb_data body))) metadata
                             (Date_now (env w')) (db w))
         ∧ (∀ mint, mint ∉ map fst (readable (default [] (pb_data body))) →
              find_price mint (db w') = find_price mint (db w))
         ∧ wallet_balances (db w') = wallet_balances (db w))
  ∧ (response_failed (fst (fetch_price (price_url cfg mints) (env w))) = true →
     ∃ error w',
       getTokenPrices cfg mints w = (Throw error, w')
       ∧ logged_once "system" "prices" w w' (Throw (A:=gmap string PriceEntry) error)
       ∧ token_prices (db w') = token_prices (db w)
       ∧ wallet_balances (db w') = wallet_balances (db w))).
Proof.
  split; [reflexivity|].
  split.
  { unfold mintsWithSol. split; [|split].
    - apply uniq_elem, elem_of_app. right. left.
    - apply uniq_NoDup.
    - intros m. rewrite uniq_elem, elem_of_app, list_elem_of_singleton. reflexivity. }
  intros Hne.
  destruct (getTokenPrices_run cfg mints w Hne) as (md & w2 & Hdb & Hq & Hrun).
  split.
  { rewrite Hrun. unfold prices_outcome, prices_failed.
    destruct (fst (fetch_price _ (env w))) as [resp|e]; [|exact Hq].
    destruct (resp_ok resp); [|exact Hq].
    destruct (resp_json resp) as [body|e]; [|exact Hq].
    cbv zeta. destruct (null_entry _); exact Hq. }
  split; [|split].
  - intros response body Hfetch Hok Hjson Hnull. rewrite Hrun, Hfetch.
    unfold prices_outcome. rewrite Hok, Hjson. cbv zeta. rewrite Hnull.
    eexists _, _. split; [reflexivity|].
    destruct (readable_all _ Hnull) as [Hkeys Hobjects].
    set (entries := readable (default [] (pb_data body))) in *.
    destruct (stored_lookup entries md (Date_now (env w2)) (db w) ∅)
      as (Hin & _ & _ & Hlogs & Hnd).
    split; [|split].
    + intros mint Hmint. rewrite <- Hkeys in Hmint.
      destruct (Hin mint Hmint) as (info & Hi & Hf & Hp).
      exists info. eexists _, _. split; [apply Hobjects; exact Hi|].
      split; [unfold find_price, getAllTokenPrices in *; cbn [db insertFetchLog token_prices];
              exact Hf|].
      cbn [price_row tp_mint tp_price tp_source tp_last_updated env].
      split; [reflexivity|]. split; [reflexivity|]. split; [reflexivity|].
      split; [reflexivity|]. split; [exact Hp|reflexivity].
    + cbn [db insertFetchLog token_prices]. exact Hnd.
    + unfold logged_once. cbn [db env insertFetchLog fetch_logs]. rewrite Hlogs.
      eexists. split; [reflexivity|]. cbn. auto 10.
  - intros response body Hfetch Hok Hjson Hnull. rewrite Hrun, Hfetch.
    unfold prices_outcome. rewrite Hok, Hjson. cbv zeta. rewrite Hnull.
    set (entries := readable (default [] (pb_data body))).
    destruct (stored_lookup entries md (Date_now (env w2)) (db w) ∅)
      as (_ & Hout & Hwallets & Hlogs & _).
    eexists _, _, md. split; [reflexivity|]. split; [|split; [|split]].
    + unfold logged_once. cbn [db env insertFetchLog fetch_logs]. rewrite Hlogs.
      eexists. split; [reflexivity|]. cbn. auto 10.
    + reflexivity.
    + intros mint Hmint. unfold find_price, getAllTokenPrices in *.
      cbn [db insertFetchLog token_prices]. apply Hout. exact Hmint.
    + cbn [db insertFetchLog wallet_balances]. exact Hwallets.
  - intros Hfail. rewrite Hrun. unfold prices_outcome.
    assert (Hlog : ∀ error,
               logged_once "system" "prices" w (prices_failed w w2 error)
                 (Throw (A:=gmap string PriceEntry) error)).
    { intros error. unfold logged_once, prices_failed. cbn [db env insertFetchLog fetch_logs].
      eexists. split; [reflexivity|]. cbn. auto 10. }
    destruct (fst (fetch_price _ (env w))) as [resp|e]; cbn in Hfail.
    + destruct (resp_ok resp); cbn in Hfail.
      * destruct (resp_json resp) as [b|e]; [discriminate|].
        eexists _, _. split; [reflexivity|]. split; [apply Hlog|]. split; reflexivity.
      * eexists _, _. split; [reflexivity|]. split; [apply Hlog|]. split; reflexivity.
    + eexists _, _. split; [reflexivity|]. split; [apply Hlog|]. split; reflexivity.
Qed.

End PriceClaims.

(** Two runs of [getTokenPrices]: the provider quotes M1 and the native
    mint; the provider is out. *)
Lemma getTokenPrices_batch_witness :
  price_queries
    (trace (snd (getTokenPrices (provider := scripted one_token_script) default_config
                   ["M1"] (boot empty_db))))
  = ["https://lite-api.jup.ag/price/v2?ids=M1,So11111111111111111111111111111111111111112"]
  ∧ (∃ prices w',
       getTokenPrices (provider := scripted one_token_script) default_config ["M1"]
         (boot empty_db) = (Ok prices, w')
       ∧ (tp_price <$> find_price SOL_MINT (db w')) = Some (Qc_of_Z 150))
  ∧ (∃ error w',
       getTokenPrices (provider := scripted outage) default_config ["M1"] (boot empty_db)
       = (Throw error, w')
       ∧ token_prices (db w') = []).
Proof.
  split; [|split].
  - destruct (getTokenPrices_batch (provider := scripted one_token_script) default_config
                ["M1"] (boot empty_db)) as (_ & _ & Hrun).
    destruct (Hrun ltac:(discriminate)) as (Hq & _).
    rewrite Hq. reflexivity.
  - destruct (getTokenPrices_batch (provider := scripted one_token_script) default_config
                ["M1"] (boot empty_db)) as (_ & _ & Hall).
    destruct (Hall ltac:(discriminate)) as (_ & Hok & _).
    destruct (Hok _ _ eq_refl eq_refl eq_refl eq_refl)
      as (prices & w' & Hrun & Hrows & _).
    exists prices, w'. split; [exact Hrun|].
    destruct (Hrows SOL_MINT) as (info & row & entry & Hi & Hf & _ & Hp & _).
    { right. left. }
    rewrite Hf. simpl. rewrite Hp.
    apply elem_of_cons in Hi. destruct Hi as [Hi|Hi]; [discriminate|].
    apply list_elem_of_singleton in Hi. inversion Hi. reflexivity.
  - destruct (getTokenPrices_batch (provider := scripted outage) default_config
                ["M1"] (boot empty_db)) as (_ & _ & Hall).
    destruct (Hall ltac:(discriminate)) as (_ & _ & _ & Hfail).
    destruct (Hfail eq_refl) as (error & w' & Hrun & _ & Hp & _).
    exists error, w'. split; [exact Hrun | exact Hp].
Defined.

(** C6, at a body with a [null] entry.  The price provider answers the one
    query for A, B and the native mint with status 200 and a body that
    quotes A at 1 and the native mint at 150 and has [null] for B.  The
    call writes the row of A, raises at the entry of B, logs an error, and
    the price of the native mint, which the body resolved, is never
    written. *)
Theorem getTokenPrices_null_entry :
  ∃ w',
    getTokenPrices (provider := scripted null_entry_script) default_config ["A"; "B"]
      (boot empty_db)
    = (Throw null_price_error, w')
    ∧ price_queries (trace w')
      = ["https://lite-api.jup.ag/price/v2?ids=A,B,So11111111111111111111111111111111111111112"]
    ∧ map tp_mint (token_prices (db w')) = ["A"]
    ∧ find_price "B" (db w') = None
    ∧ find_price SOL_MINT (db w') = None
    ∧ map fl_status (fetch_logs (db w')) = [StatusError]
    ∧ map fl_error_details (fetch_logs (db w'))
      = [Some (error_message null_price_error)].
Proof.
  eexists. split; [vm_compute; reflexivity|].
  repeat split; vm_compute; reflexivity.
Qed.

Section EnrichmentClaims.

Context {Env : Type} {provider : Provider Env}.
Variable cfg : Config.


End EnrichmentClaims.


(** * Further properties of the service *)

Section RetryShape.

Context {Env : Type} {provider : Provider Env}.
Context {T : Type} (operation : M Env T) (maxRetries : nat) (baseDelay : Z).

Lemma withRetry_loop_shape : ∀ (remaining attempt : nat) (w : World Env),
  attempt + S remaining = maxRetries →
  ∃ k, k ≤ remaining
    ∧ withRetry_loop operation maxRetries baseDelay (S remaining) attempt w
      = operation (attempt_world operation baseDelay attempt w k)
    ∧ (∀ i, i < k →
         is_throw (fst (operation (attempt_world operation baseDelay attempt w i))) = true)
    ∧ (is_throw (fst (operation (attempt_world operation baseDelay attempt w k))) = true →
       k = remaining).
Proof.
  induction remaining as [|r IH]; intros attempt w Hsum.
  - exists 0. cbn [withRetry_loop attempt_world]. unfold try_catch.
    split; [lia|]. split.
    + destruct (operation w) as [[v|e] w1]; [reflexivity|].
      replace (attempt =? maxRetries - 1) with true
        by (symmetry; apply Nat.eqb_eq; lia).
      reflexivity.
    + split; [intros i Hi; lia | reflexivity].
  - cbn [withRetry_loop]. unfold try_catch at 1.
    destruct (operation w) as [[v|e] w1] eqn:Hop.
    + exists 0. cbn [attempt_world]. rewrite Hop.
      split; [lia|]. split; [reflexivity|].
      split; [intros i Hi; lia | discriminate].
    + replace (attempt =? maxRetries - 1) with false
        by (symmetry; apply Nat.eqb_neq; lia).
      destruct (IH (S attempt) (snd (sleep (baseDelay * 2 ^ Z.of_nat attempt)%Z w1)))
        as (k & Hk & Hrun & Hfail & Hlast); [lia|].
      exists (S k). cbn [attempt_world]. rewrite Hop. cbn [snd].
      split; [lia|]. split.
      * unfold bind at 1. cbn [sleep]. exact Hrun.
      * split.
        -- intros [|i] Hi; cbn [attempt_world].
           ++ rewrite Hop. reflexivity.
           ++ rewrite Hop. apply Hfail. lia.
        -- intros Hthrow. rewrite (Hlast Hthrow). reflexivity.
Qed.

Lemma requests_app (t1 t2 : list Event) : requests (t1 ++ t2) = requests t1 ++ requests t2.
Proof.
  induction t1 as [|e t1 IH]; [reflexivity|].
  destruct e; simpl; rewrite ?IH; reflexivity.
Qed.

Lemma attempt_world_requests (c : nat) :
  (∀ w0, length (requests (trace (snd (operation w0))))
         ≤ length (requests (trace w0)) + c) →
  ∀ (k first : nat) (w : World Env),
    length (requests (trace (snd (operation (attempt_world operation baseDelay first w k)))))
    ≤ length (requests (trace w)) + c * S k.
Proof.
  intros Hop. induction k as [|k IH]; intros first w.
  - cbn [attempt_world]. specialize (Hop w). lia.
  - cbn [attempt_world].
    specialize (IH (S first) (snd (sleep (baseDelay * 2 ^ Z.of_nat first)%Z (snd (operation w))))).
    cbn [sleep snd trace] in IH. rewrite requests_app in IH. cbn [requests] in IH.
    rewrite app_nil_r in IH. specialize (Hop w). cbn [sleep snd]. lia.
Qed.

(** X1.  Whatever the operation does, [withRetry] ends as one of its first
    [maxRetries] invocations ended: invocation [k] is made after [k] failed
    ones, each followed by its backoff timer, and the outcome is that of
    invocation [k]; it is an error only when [k] is the last invocation
    allowed.  An operation that awaits no timer of its own leaves the timers
    [baseDelay * 2^i], [i < k].  With [maxRetries = 0] the operation is never
    invoked and the error is "All retry attempts failed". *)
Theorem withRetry_outcome (w : World Env) :
  match maxRetries with
  | 0 =>
      withRetry operation maxRetries baseDelay w
      = (Throw (ErrorObj "All retry attempts failed"), w)
  | S last =>
      ∃ k, k ≤ last
        ∧ withRetry operation maxRetries baseDelay w
          = operation (attempt_world operation baseDelay 0 w k)
        ∧ (∀ i, i < k →
             is_throw (fst (operation (attempt_world operation baseDelay 0 w i))) = true)
        ∧ (is_throw (fst (withRetry operation maxRetries baseDelay w)) = true → k = last)
        ∧ ((∀ w0, delays (snd (operation w0)) = delays w0) →
           delays (snd (withRetry operation maxRetries baseDelay w))
           = delays w ++ backoff baseDelay 0 k)
  end.
Proof.
  unfold withRetry. destruct maxRetries as [|last] eqn:Hmax; [reflexivity|].
  destruct (withRetry_loop_shape last 0 w) as (k & Hk & Hrun & Hfail & Hlast); [lia|].
  rewrite Hmax in *.
  exists k. split; [exact Hk|]. split; [exact Hrun|]. split; [exact Hfail|]. split.
  - rewrite Hrun. exact Hlast.
  - intros Hquiet. rewrite Hrun. apply attempt_world_delays. exact Hquiet.
Qed.

End RetryShape.

Section FetcherFacts.

Context {Env : Type} {provider : Provider Env}.
Variable cfg : Config.

Lemma addToQueue_run {T} (operation : M Env T) (w : World Env) :
  addToQueue operation w = operation w.
Proof.
  unfold addToQueue, try_catch, bind, ret, throw.
  destruct (operation w) as [[v|e] w1]; reflexivity.
Qed.

Lemma getSOLBalance_fetch_run (address : string) (w : World Env) :
  getSOLBalance_fetch cfg address w
  = if PublicKey_valid address
    then withRetry (balance_attempt address) (maxRetries cfg) 1000 w
    else (Throw (ErrorObj "Invalid public key input"), w).
Proof.
  unfold getSOLBalance_fetch, new_PublicKey, bind.
  destruct (PublicKey_valid address); [|reflexivity].
  unfold ret. rewrite addToQueue_run. reflexivity.
Qed.

Lemma getTokenAccounts_fetch_run (address : string) (w : World Env) :
  getTokenAccounts_fetch cfg address w
  = if PublicKey_valid address
    then withRetry (accounts_attempt address) (maxRetries cfg) 1000 w
    else (Throw (ErrorObj "Invalid public key input"), w).
Proof.
  unfold getTokenAccounts_fetch, new_PublicKey, bind.
  destruct (PublicKey_valid address); [|reflexivity].
  unfold ret. rewrite addToQueue_run. reflexivity.
Qed.

(** The balance fetcher around its fetch: the outcome, and the world but
    for the log entry. *)
Lemma getSOLBalance_run (address : string) (w : World Env) :
  getSOLBalance cfg address w
  = match getSOLBalance_fetch cfg address w with
    | (Ok balance, w1) =>
        (Ok (lamports_to_sol balance),
         Build_World
           (insertFetchLog
              (fetch_log address "balance" StatusSuccess None
                 (Date_now (env w)) (Date_now (env w1))) (db w1))
           (env w1) (trace w1))
    | (Throw error, w1) =>
        (Throw error,
         Build_World
           (insertFetchLog
              (fetch_log address "balance" StatusError (Some (error_message error))
                 (Date_now (env w)) (Date_now (env w1))) (db w1))
           (env w1) (trace w1))
    end.
Proof.
  unfold getSOLBalance, bind, try_catch, now, db_write, ret, throw. cbn [fst snd].
  destruct (getSOLBalance_fetch cfg address w) as [[balance|error] w1]; reflexivity.
Qed.

Lemma getTokenAccounts_run (address : string) (w : World Env) :
  getTokenAccounts cfg address w
  = match getTokenAccounts_fetch cfg address w with
    | (Ok tokenAccounts, w1) =>
        (Ok (token_rows tokenAccounts),
         Build_World
           (insertFetchLog
              (fetch_log address "tokens" StatusSuccess None
                 (Date_now (env w)) (Date_now (env w1))) (db w1))
           (env w1) (trace w1))
    | (Throw error, w1) =>
        (Throw error,
         Build_World
           (insertFetchLog
              (fetch_log address "tokens" StatusError (Some (error_message error))
                 (Date_now (env w)) (Date_now (env w1))) (db w1))
           (env w1) (trace w1))
    end.
Proof.
  unfold getTokenAccounts, bind, try_catch, now, db_write, ret, throw. cbn [fst snd].
  destruct (getTokenAccounts_fetch cfg address w) as [[tokenAccounts|error] w1]; reflexivity.
Qed.

Lemma call_requests {A} (e : Event) (f : Env → Result A * Env) (w : World Env) :
  length (requests (trace (snd (call e f w)))) ≤ length (requests (trace w)) + 1.
Proof.
  unfold call. destruct (f (env w)) as [r e1]. cbn [snd trace].
  rewrite requests_app, length_app. destruct e; simpl; lia.
Qed.

Lemma balance_attempt_quiet (pk : string) (w : World Env) :
  delays (snd (balance_attempt pk w)) = delays w.
Proof.
  unfold balance_attempt, try_catch.
  destruct (call (EvGetBalance Primary pk) (rpc_getBalance Primary pk) w) as [[b|e] w1] eqn:H1.
  - change w1 with (snd (Ok b, w1)). rewrite <- H1. apply call_quiet. discriminate.
  - rewrite call_quiet by discriminate.
    change w1 with (snd (Throw (A:=Z) e, w1)). rewrite <- H1. apply call_quiet. discriminate.
Qed.

Lemma balance_attempt_requests (pk : string) (w : World Env) :
  length (requests (trace (snd (balance_attempt pk w)))) ≤ length (requests (trace w)) + 2.
Proof.
  unfold balance_attempt, try_catch.
  pose proof (call_requests (EvGetBalance Primary pk) (rpc_getBalance Primary pk) w) as H1.
  destruct (call (EvGetBalance Primary pk) (rpc_getBalance Primary pk) w) as [[b|e] w1].
  - cbn [snd] in *. lia.
  - pose proof (call_requests (EvGetBalance Fallback pk) (rpc_getBalance Fallback pk) w1).
    cbn [snd] in *. lia.
Qed.

Lemma token_accounts_on_quiet (c : Connection) (pk : string) (w : World Env) :
  delays (snd (token_accounts_on c pk w)) = delays w.
Proof.
  unfold token_accounts_on, bind, promise_all2, ret.
  pose proof (call_quiet (EvGetTokenAccounts c pk TOKEN_PROGRAM_ID)
                (rpc_getParsedTokenAccountsByOwner c pk TOKEN_PROGRAM_ID)
                ltac:(discriminate) w) as H1.
  destruct (call (EvGetTokenAccounts c pk TOKEN_PROGRAM_ID) _ w) as [r1 w1].
  pose proof (call_quiet (EvGetTokenAccounts c pk TOKEN_2022_PROGRAM_ID)
                (rpc_getParsedTokenAccountsByOwner c pk TOKEN_2022_PROGRAM_ID)
                ltac:(discriminate) w1) as H2.
  destruct (call (EvGetTokenAccounts c pk TOKEN_2022_PROGRAM_ID) _ w1) as [r2 w2].
  cbn [snd] in *. destruct r1, r2; cbn [snd]; congruence.
Qed.

Lemma token_accounts_on_requests (c : Connection) (pk : string) (w : World Env) :
  length (requests (trace (snd (token_accounts_on c pk w))))
  ≤ length (requests (trace w)) + 2.
Proof.
  unfold token_accounts_on, bind, promise_all2, ret.
  pose proof (call_requests (EvGetTokenAccounts c pk TOKEN_PROGRAM_ID)
                (rpc_getParsedTokenAccountsByOwner c pk TOKEN_PROGRAM_ID) w) as H1.
  destruct (call (EvGetTokenAccounts c pk TOKEN_PROGRAM_ID) _ w) as [r1 w1].
  pose proof (call_requests (EvGetTokenAccounts c pk TOKEN_2022_PROGRAM_ID)
                (rpc_getParsedTokenAccountsByOwner c pk TOKEN_2022_PROGRAM_ID) w1) as H2.
  destruct (call (EvGetTokenAccounts c pk TOKEN_2022_PROGRAM_ID) _ w1) as [r2 w2].
  cbn [snd] in *. destruct r1, r2; cbn [snd]; lia.
Qed.

Lemma accounts_attempt_quiet (pk : string) (w : World Env) :
  delays (snd (accounts_attempt pk w)) = delays w.
Proof.
  unfold accounts_attempt, try_catch.
  pose proof (token_accounts_on_quiet Primary pk w) as H1.
  destruct (token_accounts_on Primary pk w) as [[v|e] w1]; cbn [snd] in *; [exact H1|].
  rewrite token_accounts_on_quiet. exact H1.
Qed.

Lemma accounts_attempt_requests (pk : string) (w : World Env) :
  length (requests (trace (snd (accounts_attempt pk w)))) ≤ length (requests (trace w)) + 4.
Proof.
  unfold accounts_attempt, try_catch.
  pose proof (token_accounts_on_requests Primary pk w) as H1.
  destruct (token_accounts_on Primary pk w) as [[v|e] w1]; cbn [snd] in *; [lia|].
  pose proof (token_accounts_on_requests Fallback pk w1). lia.
Qed.

Lemma within_budget_refl (perAttempt attempts : nat) (w w' : World Env) :
  trace w' = trace w → within_budget perAttempt attempts w w'.
Proof.
  intros Htrace. unfold within_budget, delays. rewrite Htrace. split; [lia|].
  exists 0. split; [lia|]. unfold backoff. simpl. rewrite app_nil_r. reflexivity.
Qed.

(** X2.  The retry budget of the operations that the two wallet fetchers
    hand to the queue.  [getSOLBalance] and [getTokenAccounts] build the
    public key and queue one operation each.  From the world in which the
    queue starts it, the balance operation makes at most 2 requests per
    attempt (primary, then fallback), so at most [2 * maxRetries] in all,
    and the token-account operation at most 4 per attempt; the timers an
    operation awaits from its start to its end are the first [k] backoff
    timers 1000, 2000, 4000, ... for some [k <= maxRetries - 1].  The wait
    in the queue before the operation starts, and the pacing timer of the
    queue, are outside the operation and outside this statement. *)
Theorem wallet_fetch_budget (publicKey : string) (w : World Env) :
  (∀ address,
     getSOLBalance_fetch cfg address
     = (key <- new_PublicKey address ;;
        addToQueue (balance_operation cfg key))
     ∧ getTokenAccounts_fetch cfg address
       = (key <- new_PublicKey address ;;
          addToQueue (accounts_operation cfg key)))
  ∧ within_budget 2 (maxRetries cfg) w (snd (balance_operation cfg publicKey w))
  ∧ within_budget 4 (maxRetries cfg) w (snd (accounts_operation cfg publicKey w)).
Proof.
  split; [intros address; split; reflexivity|].
  unfold balance_operation, accounts_operation. split.
  - unfold withRetry. destruct (maxRetries cfg) as [|last].
    + apply within_budget_refl. reflexivity.
    + destruct (withRetry_loop_shape (balance_attempt publicKey) (S last) 1000 last 0 w)
        as (k & Hk & Hrun & _); [lia|].
      rewrite Hrun. split.
      * pose proof (attempt_world_requests (balance_attempt publicKey) 1000 2
                      (balance_attempt_requests publicKey) k 0 w).
        nia.
      * exists k. split; [lia|]. apply attempt_world_delays.
        apply balance_attempt_quiet.
  - unfold withRetry. destruct (maxRetries cfg) as [|last].
    + apply within_budget_refl. reflexivity.
    + destruct (withRetry_loop_shape (accounts_attempt publicKey) (S last) 1000 last 0 w)
        as (k & Hk & Hrun & _); [lia|].
      rewrite Hrun. split.
      * pose proof (attempt_world_requests (accounts_attempt publicKey) 1000 4
                      (accounts_attempt_requests publicKey) k 0 w).
        nia.
      * exists k. split; [lia|]. apply attempt_world_delays.
        apply accounts_attempt_quiet.
Qed.

End FetcherFacts.

Section FetcherPaths.

Context {Env : Type} {provider : Provider Env}.
Variable cfg : Config.

Lemma withRetry_loop_trace_grows {T} (operation : M Env T) (n : nat) (baseDelay : Z) :
  respects (on_trace prefix) operation →
  ∀ remaining attempt,
    respects (on_trace prefix) (withRetry_loop operation n baseDelay remaining attempt).
Proof.
  intros Hop. rapply respects_withRetry_loop; [|exact Hop].
  intros ms. rapply trace_respects_sleep. intros t. apply prefix_app_r. reflexivity.
Qed.

Lemma balance_attempt_trace_grows (pk : string) :
  respects (on_trace prefix) (balance_attempt (provider:=provider) pk).
Proof.
  unfold balance_attempt.
  rapply respects_try_catch; [|intros ?];
    (rapply trace_respects_call; intros t; apply prefix_app_r; reflexivity).
Qed.

Lemma balance_attempt_run (pk : string) (w : World Env) :
  balance_attempt pk w
  = match rpc_getBalance Primary pk (env w) with
    | (Ok lamports, e1) =>
        (Ok lamports, Build_World (db w) e1 (trace w ++ [EvGetBalance Primary pk]))
    | (Throw _, e1) =>
        (fst (rpc_getBalance Fallback pk e1),
         Build_World (db w) (snd (rpc_getBalance Fallback pk e1))
           (trace w ++ [EvGetBalance Primary pk; EvGetBalance Fallback pk]))
    end.
Proof.
  unfold balance_attempt, try_catch, call.
  destruct (rpc_getBalance Primary pk (env w)) as [[lamports|e] e1]; [reflexivity|].
  cbn [env trace db].
  destruct (rpc_getBalance Fallback pk e1) as [[lamports|e'] e2];
    cbn [fst snd]; rewrite <- app_assoc; reflexivity.
Qed.

(** X3.  The connections of a balance fetch.  [getSOLBalance] queues one
    operation for the public key of its address.  From the world in which
    the queue starts that operation, and with at least one attempt allowed:
    when the primary connection answers, the operation returns its answer
    after that one request, on the primary connection, and no timer.  When
    the primary connection fails and the fallback answers, it returns the
    fallback's answer after the two requests and still no timer: the
    fallback is tried within the attempt, before any backoff.  Only when
    both fail does the backoff of 1000 ms follow, if another attempt is
    allowed; with a single attempt the fallback's error is raised.  The
    wait in the queue before the operation starts is outside the operation
    and outside this statement. *)
Theorem getSOLBalance_connections (publicKey : string) (w : World Env) :
  0 < maxRetries cfg →
  (∀ address,
     getSOLBalance_fetch cfg address
     = (key <- new_PublicKey address ;;
        addToQueue (balance_operation cfg key)))
  ∧ let run := balance_operation cfg publicKey w in
    match rpc_getBalance Primary publicKey (env w) with
    | (Ok lamports, e1) =>
        fst run = Ok lamports
        ∧ trace (snd run) = trace w ++ [EvGetBalance Primary publicKey]
        ∧ env (snd run) = e1
    | (Throw _, e1) =>
        match rpc_getBalance Fallback publicKey e1 with
        | (Ok lamports, e2) =>
            fst run = Ok lamports
            ∧ trace (snd run)
              = trace w ++ [EvGetBalance Primary publicKey; EvGetBalance Fallback publicKey]
            ∧ env (snd run) = e2
        | (Throw error, e2) =>
            (1 < maxRetries cfg →
             (trace w ++ [EvGetBalance Primary publicKey; EvGetBalance Fallback publicKey;
                          EvTimeout 1000])
             `prefix_of` trace (snd run))
            ∧ (maxRetries cfg = 1 →
               fst run = Throw error
               ∧ trace (snd run)
                 = trace w
                   ++ [EvGetBalance Primary publicKey; EvGetBalance Fallback publicKey])
        end
    end.
Proof.
  intros Hmax. split; [intros address; reflexivity|]. intros run. subst run.
  unfold balance_operation, withRetry.
  destruct (maxRetries cfg) as [|last] eqn:Hn; [lia|].
  cbn [withRetry_loop]. unfold try_catch. rewrite balance_attempt_run.
  destruct (rpc_getBalance Primary publicKey (env w)) as [[lamports|e] e1] eqn:Hp.
  - cbn [fst snd trace env]. auto.
  - destruct (rpc_getBalance Fallback publicKey e1) as [[lamports|e'] e2] eqn:Hf.
    + cbn [fst snd trace env]. auto.
    + destruct last as [|last].
      * cbn [Nat.sub Nat.eqb]. unfold throw. cbn [fst snd trace env].
        split; [lia|]. auto.
      * replace (0 =? S (S last) - 1) with false by reflexivity.
        unfold bind. cbn [sleep].
        split; [|intros; lia]. intros _.
        match goal with
        | |- context [withRetry_loop ?op ?n ?b ?r ?a ?w0] =>
            pose proof (withRetry_loop_trace_grows op n b
                          (balance_attempt_trace_grows publicKey) r a w0) as Hgrow;
            destruct (withRetry_loop op n b r a w0) as [[v|err] w1]
        end;
          unfold on_trace in Hgrow; cbn [snd trace] in Hgrow |- *;
          rewrite <- !app_assoc in Hgrow; exact Hgrow.
Qed.

Lemma isValidSolanaAddress_run (address : string) (w : World Env) :
  isValidSolanaAddress address w = (Ok (PublicKey_valid address), w).
Proof.
  unfold isValidSolanaAddress, try_catch, bind, new_PublicKey.
  destruct (PublicKey_valid address); reflexivity.
Qed.

(** X4.  An address that is not a public key is refused before anything is
    asked of the outside.  [isValidSolanaAddress] answers [false] for it and
    never raises; [getSOLBalance] and [getTokenAccounts] raise at once: no
    request, no timer, no retry, the outside is as it was, and the one
    thing written is the error entry of the log, with a latency of 0. *)
Theorem invalid_address_fails_fast (address : string) (w : World Env) :
  PublicKey_valid address = false →
  isValidSolanaAddress address w = (Ok false, w)
  ∧ (∃ error,
       getSOLBalance cfg address w
       = (Throw error,
          Build_World
            (insertFetchLog
               (fetch_log address "balance" StatusError (Some (error_message error))
                  (Date_now (env w)) (Date_now (env w))) (db w))
            (env w) (trace w)))
  ∧ (∃ error,
       getTokenAccounts cfg address w
       = (Throw error,
          Build_World
            (insertFetchLog
               (fetch_log address "tokens" StatusError (Some (error_message error))
                  (Date_now (env w)) (Date_now (env w))) (db w))
            (env w) (trace w))).
Proof.
  intros Hvalid. split; [|split].
  - rewrite isValidSolanaAddress_run, Hvalid. reflexivity.
  - eexists. rewrite getSOLBalance_run, getSOLBalance_fetch_run, Hvalid. reflexivity.
  - eexists. rewrite getTokenAccounts_run, getTokenAccounts_fetch_run, Hvalid. reflexivity.
Qed.

(** X5.  The pipeline of a wallet whose address is not a public key: it
    raises without a request or a timer, leaves the error record of the
    wallet in the store, two error entries in the log (one of each
    fetcher) and the price table as it was; the batch counts the wallet as
    failed. *)
Theorem getWalletData_invalid_address (address walletId : string) (w : World Env) :
  PublicKey_valid address = false →
  ∃ error w',
    getWalletData cfg address walletId w = (Throw error, w')
    ∧ trace w' = trace w
    ∧ env w' = env w
    ∧ getWalletBalance address (db w')
      = Some (error_row address walletId error (Date_now (env w)))
    ∧ (∃ e1 e2, fetch_logs (db w') = fetch_logs (db w) ++ [e1; e2]
                ∧ fl_operation e1 = "balance" ∧ fl_operation e2 = "tokens"
                ∧ fl_status e1 = StatusError ∧ fl_status e2 = StatusError)
    ∧ token_prices (db w') = token_prices (db w)
    ∧ ∀ results,
        process_wallet cfg {| wallet_id := walletId; wallet_address := address |} results w
        = (Ok {| successful := successful results;
                 failed := S (failed results);
                 errors := errors results ++ [address +:+ ": " +:+ error_message error] |},
           w').
Proof.
  intros Hvalid.
  assert (Htry : ∃ error w1,
            getWalletData_try cfg address walletId w = (Throw error, w1)
            ∧ trace w1 = trace w ∧ env w1 = env w
            ∧ wallet_balances (db w1) = wallet_balances (db w)
            ∧ token_prices (db w1) = token_prices (db w)
            ∧ ∃ e1 e2, fetch_logs (db w1) = fetch_logs (db w) ++ [e1; e2]
                ∧ fl_operation e1 = "balance" ∧ fl_operation e2 = "tokens"
                ∧ fl_status e1 = StatusError ∧ fl_status e2 = StatusError).
  { unfold getWalletData_try. unfold bind at 1. unfold promise_all2.
    rewrite getSOLBalance_run, getSOLBalance_fetch_run, Hvalid.
    rewrite getTokenAccounts_run, getTokenAccounts_fetch_run, Hvalid.
    cbn [env trace db].
    eexists _, _. split; [reflexivity|]. cbn [trace env db insertFetchLog wallet_balances
      token_prices fetch_logs].
    repeat split.
    eexists _, _. rewrite <- app_assoc. split; [reflexivity|]. repeat split. }
  destruct Htry as (error & w1 & Htry & Htrace & Henv & Hwal & Hprices & Hlogs).
  exists error. eexists. split; [apply getWalletData_failure; exact Htry|].
  cbn [trace env db]. split; [exact Htrace|]. split; [exact Henv|]. split.
  { unfold getWalletBalance, upsertWalletBalance. cbn [wallet_balances error_row
      wb_wallet_address]. rewrite lookup_insert_eq, Henv. reflexivity. }
  split; [exact Hlogs|]. split; [exact Hprices|].
  intros results. rewrite process_wallet_run. cbn [wallet_address wallet_id].
  rewrite (getWalletData_failure cfg address walletId w w1 error Htry). reflexivity.
Qed.

Lemma token_rows_holdings (accounts : list AccountInfo) :
  Forall
    (fun token =>
       (0 < ta_amount token)%Qc
       ∧ ta_symbol token = None ∧ ta_name token = None ∧ ta_usdValue token = None)
    (token_rows accounts)
  ∧ length (token_rows accounts) ≤ length accounts.
Proof.
  induction accounts as [|a accounts [IH1 IH2]]; [split; [constructor|reflexivity]|].
  cbn [token_rows length]. destruct (parsed_info a) as [info|]; [|split; [exact IH1|lia]].
  destruct (decide (0 < pi_uiAmount info)%Qc) as [Hpos|Hneg]; [|split; [exact IH1|lia]].
  split; [|cbn [length]; lia].
  constructor; [|exact IH1]. cbn. auto.
Qed.

Lemma attempt_world_trace_lt {T} (operation : M Env T) (baseDelay : Z) :
  (∀ w0, length (trace w0) < length (trace (snd (operation w0)))) →
  ∀ (k first : nat) (w : World Env),
    length (trace w)
    < length (trace (snd (operation (attempt_world operation baseDelay first w k)))).
Proof.
  intros Hone. induction k as [|k IH]; intros first w; cbn [attempt_world]; [apply Hone|].
  eapply Nat.lt_trans; [|apply IH].
  cbn [sleep snd trace]. rewrite length_app. cbn [length].
  specialize (Hone w). lia.
Qed.

Lemma accounts_attempt_asks (pk : string) (w : World Env) :
  length (trace w) < length (trace (snd (accounts_attempt pk w))).
Proof.
  unfold accounts_attempt, try_catch, token_accounts_on, bind, promise_all2, call, ret.
  repeat (match goal with
          | |- context [rpc_getParsedTokenAccountsByOwner ?c ?a ?p ?e] =>
              destruct (rpc_getParsedTokenAccountsByOwner c a p e) as [[?|?] ?]
          end; cbn [fst snd trace env db]);
    rewrite ?length_app; cbn [length]; lia.
Qed.

(** X6.  What [getTokenAccounts] returns.  A fetch that succeeds was for a
    valid address, made a request, and returns only holdings of positive
    amount: the token accounts with a zero balance, or whose data is not
    parsed, are dropped.  Its holdings carry no symbol, no name and no USD
    value yet, and one success entry was logged. *)
Theorem getTokenAccounts_holdings (address : string) (w w' : World Env)
    (tokens : list TokenAccount) :
  getTokenAccounts cfg address w = (Ok tokens, w') →
  PublicKey_valid address = true
  ∧ Forall
      (fun token =>
         (0 < ta_amount token)%Qc
         ∧ ta_symbol token = None ∧ ta_name token = None ∧ ta_usdValue token = None)
      tokens
  ∧ (∃ accounts, tokens = token_rows accounts ∧ length tokens ≤ length accounts)
  ∧ trace w ≠ trace w'
  ∧ ∃ entry, fetch_logs (db w') = fetch_logs (db w) ++ [entry]
             ∧ fl_status entry = StatusSuccess ∧ fl_operation entry = "tokens".
Proof.
  rewrite getTokenAccounts_run, getTokenAccounts_fetch_run.
  destruct (PublicKey_valid address) eqn:Hvalid; [|discriminate].
  pose proof (getTokenAccounts_fetch_respects cfg eq address w) as Hdb.
  rewrite getTokenAccounts_fetch_run, Hvalid in Hdb. unfold on_db in Hdb.
  destruct (withRetry (accounts_attempt address) (maxRetries cfg) 1000 w)
    as [[accounts|error] w1] eqn:Hrun; [|discriminate].
  intros H. injection H as <- <-. cbn [snd] in Hdb.
  split; [reflexivity|]. split; [apply token_rows_holdings|].
  split; [exists accounts; split; [reflexivity|apply token_rows_holdings]|].
  split.
  - cbn [trace]. intros Heq.
    unfold withRetry in Hrun. destruct (maxRetries cfg) as [|last].
    + discriminate.
    + destruct (withRetry_loop_shape (accounts_attempt address) (S last) 1000 last 0 w)
        as (k & _ & Hk & _); [lia|].
      rewrite Hrun in Hk.
      pose proof (attempt_world_trace_lt (accounts_attempt address) 1000
                    (accounts_attempt_asks address) k 0 w) as Hlen.
      rewrite <- Hk in Hlen. cbn [snd] in Hlen. rewrite Heq in Hlen. lia.
  - cbn [db insertFetchLog fetch_logs]. eexists. rewrite Hdb. split; [reflexivity|].
    split; reflexivity.
Qed.

End FetcherPaths.

Lemma getSOLBalance_connections_witness :
  (let run := balance_operation (provider := scripted one_token_script) default_config "A"
                (boot empty_db) in
   fst run = Ok 2500000000%Z
   ∧ trace (snd run) = [EvGetBalance Primary "A"])
  ∧ (let run := balance_operation (provider := scripted primary_down) default_config "A"
                  (boot empty_db) in
     fst run = Ok 2500000000%Z
     ∧ trace (snd run) = [EvGetBalance Primary "A"; EvGetBalance Fallback "A"]).
Proof.
  split.
  - pose proof (getSOLBalance_connections (provider := scripted one_token_script)
                  default_config "A" (boot empty_db) ltac:(simpl; lia)) as [_ H].
    cbn in H. destruct H as (H1 & H2 & _). split; [exact H1 | exact H2].
  - pose proof (getSOLBalance_connections (provider := scripted primary_down)
                  default_config "A" (boot empty_db) ltac:(simpl; lia)) as [_ H].
    cbn in H. destruct H as (H1 & H2 & _). split; [exact H1 | exact H2].
Defined.

Lemma invalid_address_fails_fast_witness :
  is_throw (fst (getSOLBalance (provider := scripted twelve_script) default_config "bad"
                   (boot empty_db))) = true
  ∧ trace (snd (getSOLBalance (provider := scripted twelve_script) default_config "bad"
                  (boot empty_db))) = [].
Proof.
  destruct (invalid_address_fails_fast (provider := scripted twelve_script) default_config
              "bad" (boot empty_db) eq_refl) as (_ & (error & Hrun) & _).
  rewrite Hrun. split; reflexivity.
Defined.

Lemma getWalletData_invalid_address_witness :
  ∃ error w',
    getWalletData (provider := scripted twelve_script) default_config "bad" "id-bad"
      (boot empty_db) = (Throw error, w')
    ∧ trace w' = []
    ∧ length (fetch_logs (db w')) = 2.
Proof.
  destruct (getWalletData_invalid_address (provider := scripted twelve_script) default_config
              "bad" "id-bad" (boot empty_db) eq_refl)
    as (error & w' & Hrun & Htrace & _ & _ & (e1 & e2 & Hlogs & _) & _).
  exists error, w'. split; [exact Hrun|]. split; [exact Htrace|].
  rewrite Hlogs. reflexivity.
Defined.

Lemma getTokenAccounts_holdings_witness :
  ∃ tokens w',
    getTokenAccounts (provider := scripted one_token_script) default_config "A"
      (boot empty_db) = (Ok tokens, w')
    ∧ Forall (fun token => (0 < ta_amount token)%Qc) tokens
    ∧ length tokens = 1.
Proof.
  eexists _, _. split; [vm_compute; reflexivity|]. split; [|reflexivity].
  match goal with
  | |- Forall _ ?l =>
      destruct (getTokenAccounts_holdings (provider := scripted one_token_script)
                  default_config "A" (boot empty_db)
                  (snd (getTokenAccounts (provider := scripted one_token_script)
                          default_config "A" (boot empty_db)))
                  l ltac:(vm_compute; reflexivity)) as (_ & Hall & _)
  end.
  eapply Forall_impl; [exact Hall|]. intros token (Hpos & _). exact Hpos.
Defined.

Section MetadataTotal.

Context {Env : Type} {provider : Provider Env}.
Variable cfg : Config.

Lemma requests_fallback_events (cs : list (list string)) :
  length (requests (fallback_events cfg cs)) = length (concat cs).
Proof.
  induction cs as [|c cs IH]; [reflexivity|].
  cbn [fallback_events concat]. rewrite !requests_app, !length_app, IH.
  assert (Hc : length (requests (map (fun mint => EvFetchToken (token_url cfg mint)) c))
               = length c).
  { clear. induction c as [|x c IH]; [reflexivity|]. cbn. rewrite IH. reflexivity. }
  rewrite Hc. destruct cs; cbn; lia.
Qed.

Lemma response_delivered {A} (r : Result (Response A)) :
  response_failed r = false →
  ∃ response body, r = Ok response ∧ resp_ok response = true ∧ resp_json response = Ok body.
Proof.
  destruct r as [response|e]; [|discriminate]. cbn.
  destruct (resp_ok response) eqn:Hok; [|discriminate].
  destruct (resp_json response) as [body|e] eqn:Hjson; [|discriminate].
  intros _. exists response, body. auto.
Qed.

(** X7.  The metadata resolver is total and stays within its means.  For
    every list of mints and from every world, [getTokenMetadata] returns (it
    never raises); it leaves the cache store as it was and sends no price
    query; what it returns has entries only for requested mints, each with
    a symbol and a name that are not empty; and it makes at most
    [1 + length mints] requests: the catalog, then at worst one lookup per
    mint.  For no mint at all it returns the empty object with no request. *)
Theorem getTokenMetadata_total (mints : list string) (w : World Env) :
  ∃ metadata w',
    getTokenMetadata cfg mints w = (Ok metadata, w')
    ∧ db w' = db w
    ∧ price_queries (trace w') = price_queries (trace w)
    ∧ (∀ mint data, metadata !! mint = Some data →
         mint ∈ mints ∧ md_symbol data ≠ "" ∧ md_name data ≠ "")
    ∧ length (requests (trace w')) ≤ length (requests (trace w)) + 1 + length mints
    ∧ (mints = [] → metadata = ∅ ∧ w' = w).
Proof.
  destruct (getTokenMetadata_named cfg mints w) as (metadata & w' & Hrun & Hnamed).
  exists metadata, w'. split; [exact Hrun|].
  pose proof (getTokenMetadata_respects cfg eq mints w) as Hdb.
  pose proof (getTokenMetadata_no_price_query cfg mints w) as Hpq.
  unfold on_db, on_trace, same_price_queries in *. rewrite Hrun in Hdb, Hpq. cbn [snd] in *.
  split; [symmetry; exact Hdb|]. split; [exact Hpq|]. split; [exact Hnamed|].
  split.
  - destruct mints as [|m mints'] eqn:Hm.
    { cbn in Hrun. injection Hrun as _ <-. lia. }
    rewrite <- Hm in *. assert (Hne : mints ≠ []) by (rewrite Hm; discriminate).
    clear Hm.
    destruct (response_failed (fst (fetch_token_list (jupiterTokensApiUrl cfg) (env w))))
      eqn:Hfail.
    + rewrite (getTokenMetadata_fallback cfg mints w Hne Hfail) in Hrun.
      match type of Hrun with
      | run_chunks _ _ ?cs ?md ?w1 = _ =>
          destruct (fallback_chunks_run cfg cs md w1) as (outcomes & w2 & Hchunks & _ & _ & Htr & _)
      end.
      rewrite Hchunks in Hrun. injection Hrun as _ <-.
      rewrite Htr. cbn [trace]. rewrite !requests_app, !length_app, requests_fallback_events.
      rewrite chunks_concat by lia. cbn. lia.
    + destruct (response_delivered _ Hfail) as (response & allTokens & Hr & Hok & Hjson).
      destruct (fetch_token_list (jupiterTokensApiUrl cfg) (env w)) as [r e1] eqn:Hfetch.
      cbn [fst] in Hr. subst r.
      rewrite (getTokenMetadata_bulk cfg mints w response e1 allTokens Hne Hfetch Hok Hjson)
        in Hrun.
      injection Hrun as _ <-. cbn [trace]. rewrite requests_app, length_app. cbn. lia.
  - intros ->. cbn in Hrun. injection Hrun as <- <-. auto.
Qed.

End MetadataTotal.

Section SolPriceCache.

Context {Env : Type} {provider : Provider Env}.
Variable cfg : Config.

(** X8.  What [getSOLPrice] caches.  When the provider delivers a body, the
    price returned is the one read from it.  If that price is positive it
    is stored as the row of the native mint, source jupiter, stamped with
    the time of the answer, and a later call during a provider outage, as
    long as that row is the cached one, returns the same price.  A price
    that is not positive (an entry without a price reads as 0) is returned
    as it is and nothing is stored: the cached price is not used then. *)
Theorem getSOLPrice_caches (w : World Env) (response : Response PriceBody) (e1 : Env)
    (body : PriceBody) :
  fetch_price (sol_price_url cfg) (env w) = (Ok response, e1) →
  resp_ok response = true →
  resp_json response = Ok body →
  let run := getSOLPrice cfg w in
  fst run = Ok (sol_price_of body)
  ∧ ((0 < sol_price_of body)%Qc →
     cached_sol (db (snd run)) = Some (sol_price_row (sol_price_of body) (Date_now e1))
     ∧ ∀ w2, cached_sol (db w2) = cached_sol (db (snd run)) →
             response_failed (fst (fetch_price (sol_price_url cfg) (env w2))) = true →
             fst (getSOLPrice cfg w2) = Ok (sol_price_of body))
  ∧ (¬ (0 < sol_price_of body)%Qc → db (snd run) = db w).
Proof.
  intros Hfetch Hok Hjson run. subst run.
  assert (Hlater : (0 < sol_price_of body)%Qc →
            ∀ w2, cached_sol (db w2)
                  = Some (sol_price_row (sol_price_of body) (Date_now e1)) →
                  response_failed (fst (fetch_price (sol_price_url cfg) (env w2))) = true →
                  fst (getSOLPrice cfg w2) = Ok (sol_price_of body)).
  { intros Hpos w2 Hcached Hfail. rewrite (getSOLPrice_on_failure cfg w2 Hfail), Hcached.
    cbn [cached_or_default sol_price_row tp_price]. unfold num_or.
    destruct (decide (sol_price_of body = 0%Qc)) as [Hz|]; [|reflexivity].
    exfalso. apply Qclt_not_eq in Hpos. congruence. }
  assert (Hrun : getSOLPrice cfg w
                 = (Ok (sol_price_of body),
                    if decide (0 < sol_price_of body)%Qc
                    then Build_World
                           (upsertTokenPrice
                              (sol_price_row (sol_price_of body) (Date_now e1)) (db w))
                           e1 (trace w ++ [EvFetchPrice (sol_price_url cfg)])
                    else Build_World (db w) e1
                           (trace w ++ [EvFetchPrice (sol_price_url cfg)]))).
  { unfold getSOLPrice, try_catch, getSOLPrice_fetch, bind, call, lift.
    rewrite Hfetch, Hok, Hjson. cbn [negb].
    destruct (decide (0 < sol_price_of body)%Qc); reflexivity. }
  rewrite Hrun. cbn [fst snd]. split; [reflexivity|].
  destruct (decide (0 < sol_price_of body)%Qc) as [Hpos|Hneg].
  - split; [|intros Hno; contradiction]. intros _.
    assert (Hcached : cached_sol (upsertTokenPrice (sol_price_row (sol_price_of body)
                                                      (Date_now e1)) (db w))
                      = Some (sol_price_row (sol_price_of body) (Date_now e1))).
    { unfold cached_sol, getAllTokenPrices, upsertTokenPrice. cbn [token_prices].
      rewrite find_upsert_price. cbn [sol_price_row tp_mint].
      destruct (decide (SOL_MINT = SOL_MINT)); [reflexivity|contradiction]. }
    cbn [db]. split; [exact Hcached|].
    intros w2 Hsame Hfail. apply Hlater; [exact Hpos| |exact Hfail].
    rewrite Hsame. exact Hcached.
  - split; [intros Hpos; contradiction | reflexivity].
Qed.

End SolPriceCache.

Lemma getSOLPrice_caches_witness :
  let run := getSOLPrice (provider := scripted one_token_script) default_config
               (boot empty_db) in
  fst run = Ok (Qc_of_Z 150)
  ∧ (tp_price <$> cached_sol (db (snd run))) = Some (Qc_of_Z 150).
Proof.
  pose proof (getSOLPrice_caches (provider := scripted one_token_script) default_config
                (boot empty_db) _ _ _ eq_refl eq_refl eq_refl) as (Hrun & Hpos & _).
  split; [exact Hrun|].
  destruct Hpos as [Hcached _]; [vm_compute; reflexivity|].
  rewrite Hcached. reflexivity.
Defined.

Section PriceBatch.

Lemma filter_ne_notin (x : string) (l : list string) :
  x ∉ l → filter (fun y => y ≠ x) l = l.
Proof.
  induction l as [|a l IH]; intros Hnotin; [reflexivity|].
  rewrite filter_cons. apply not_elem_of_cons in Hnotin as [Hne Hnotin].
  destruct (decide (a ≠ x)) as [_|Heq]; [rewrite IH by exact Hnotin; reflexivity|].
  exfalso. apply Heq. congruence.
Qed.

Lemma uniq_NoDup_id (l : list string) : NoDup l → uniq l = l.
Proof.
  induction 1 as [|x l Hnotin Hnodup IH]; [reflexivity|].
  cbn [uniq]. rewrite IH, filter_ne_notin by exact Hnotin. reflexivity.
Qed.

Lemma uniq_snoc (l : list string) (x : string) :
  uniq (l ++ [x]) = if decide (x ∈ l) then uniq l else uniq l ++ [x].
Proof.
  induction l as [|a l IH]; [reflexivity|].
  cbn [app uniq]. rewrite IH.
  destruct (decide (x ∈ l)) as [Hin|Hnotin].
  - rewrite decide_True by (right; exact Hin). reflexivity.
  - rewrite filter_app. destruct (decide (x = a)) as [->|Hne].
    + rewrite decide_True by left.
      rewrite filter_cons, decide_False by (intros H; apply H; reflexivity).
      rewrite filter_nil, app_nil_r. reflexivity.
    + rewrite decide_False by (intros H; apply elem_of_cons in H as [?|?]; contradiction).
      rewrite filter_cons, decide_True by exact Hne. reflexivity.
Qed.

(** X9.  The mints of the batched price query: the requested mints in the
    order of the request, each once, at its first occurrence, followed by
    the native mint unless it was requested.  A request without repetition
    is queried as it is. *)
Theorem mintsWithSol_order (mints : list string) :
  mintsWithSol mints
  = (if decide (SOL_MINT ∈ mints) then uniq mints else uniq mints ++ [SOL_MINT])
  ∧ (NoDup mints → uniq mints = mints)
  ∧ uniq (uniq mints) = uniq mints
  ∧ length (mintsWithSol mints) ≤ S (length mints).
Proof.
  assert (Hlen : ∀ l, length (uniq l) ≤ length l).
  { induction l as [|a l IH]; [reflexivity|]. cbn [uniq length].
    pose proof (length_filter (fun y => y ≠ a) (uniq l)). lia. }
  unfold mintsWithSol. rewrite uniq_snoc.
  split; [reflexivity|]. split; [apply uniq_NoDup_id|].
  split; [apply uniq_NoDup_id, uniq_NoDup|].
  destruct (decide (SOL_MINT ∈ mints)); [|rewrite length_app; cbn [length]];
    specialize (Hlen mints); lia.
Qed.

End PriceBatch.

Global Instance wallets_kept_preorder : PreOrder wallets_kept.
Proof.
  split; [intros d; reflexivity|].
  intros a b c H1 H2. unfold wallets_kept in *. congruence.
Qed.

Section WalletRecords.

Context {Env : Type} {provider : Provider Env}.
Variable cfg : Config.

Lemma wallets_kept_log (entry : FetchLog) (d : Db) : wallets_kept d (insertFetchLog entry d).
Proof. reflexivity. Qed.

Lemma wallets_kept_price (row : TokenPrice) (d : Db) : wallets_kept d (upsertTokenPrice row d).
Proof. reflexivity. Qed.

(** The [try] block writes to the wallet table once, at its end. *)
Lemma getWalletData_try_wallets (address walletId : string) (w : World Env) :
  match getWalletData_try cfg address walletId w with
  | (Ok wd, w') =>
      wallet_balances (db w')
      = <[address := success_row address walletId (wd_solBalance wd) (wd_tokens wd)
                       (wd_lastUpdated wd)]> (wallet_balances (db w))
  | (Throw _, w') => wallet_balances (db w') = wallet_balances (db w)
  end.
Proof.
  unfold getWalletData_try. unfold bind at 1.
  assert (H1 : on_db wallets_kept w
                 (snd (promise_all2 (getSOLBalance cfg address)
                         (getTokenAccounts cfg address) w))).
  { rapply respects_promise_all2;
      [rapply getSOLBalance_respects | rapply getTokenAccounts_respects];
      apply wallets_kept_log. }
  destruct (promise_all2 (getSOLBalance cfg address) (getTokenAccounts cfg address) w)
    as [[fetched|e] w1]; cbn [snd] in H1; [|exact H1].
  unfold bind at 1.
  assert (H2 : on_db wallets_kept w1
                 (snd (promise_all2 (getTokenMetadata cfg (map ta_mint (snd fetched)))
                         (getTokenPrices cfg (map ta_mint (snd fetched))) w1))).
  { rapply respects_promise_all2;
      [rapply getTokenMetadata_respects | rapply getTokenPrices_respects];
      first [apply wallets_kept_log | apply wallets_kept_price]. }
  destruct (promise_all2 (getTokenMetadata cfg (map ta_mint (snd fetched)))
              (getTokenPrices cfg (map ta_mint (snd fetched))) w1)
    as [[resolved|e] w2]; cbn [snd] in H2;
    unfold on_db, wallets_kept in H1, H2; [|congruence].
  unfold bind, now, db_write, ret.
  cbn [db upsertWalletBalance wallet_balances wd_solBalance wd_tokens wd_lastUpdated
       success_row wb_wallet_address].
  congruence.
Qed.

Lemma getWalletData_wallets (address walletId : string) (w : World Env) :
  ∃ row,
    wallet_balances (db (snd (getWalletData cfg address walletId w)))
    = <[address := row]> (wallet_balances (db w))
    ∧ match fst (getWalletData cfg address walletId w) with
      | Ok wd =>
          row = success_row address walletId (wd_solBalance wd) (wd_tokens wd)
                  (wd_lastUpdated wd)
      | Throw error => ∃ t, row = error_row address walletId error t
      end.
Proof.
  pose proof (getWalletData_try_wallets address walletId w) as Htry.
  destruct (getWalletData_try cfg address walletId w) as [[wd|error] w1] eqn:Hrun.
  - rewrite (getWalletData_success cfg address walletId w w1 wd Hrun). cbn [fst snd].
    eexists. split; [exact Htry | reflexivity].
  - rewrite (getWalletData_failure cfg address walletId w w1 error Hrun). cbn [fst snd db].
    eexists. split; [|eexists; reflexivity].
    unfold upsertWalletBalance. cbn [wallet_balances error_row wb_wallet_address].
    rewrite Htry. reflexivity.
Qed.

(** X10.  The pipeline of one wallet changes one record.  Whatever happens,
    after [getWalletData] the wallet table is the one before with the
    record of [address] replaced: the records of all other addresses are
    untouched.  When the pipeline returns, the record has status success
    and the balance, holdings and time of the data returned; when it
    raises, the record has status error, the message of the error raised,
    balance 0 and no holdings. *)
Theorem getWalletData_record (address walletId : string) (w : World Env) :
  let run := getWalletData cfg address walletId w in
  (∃ row,
     wallet_balances (db (snd run)) = <[address := row]> (wallet_balances (db w))
     ∧ wb_wallet_address row = address
     ∧ wb_wallet_id row = walletId
     ∧ match fst run with
       | Ok wd =>
           wb_fetch_status row = StatusSuccess
           ∧ wb_error_message row = None
           ∧ wb_sol_balance row = wd_solBalance wd
           ∧ wb_tokens row = wd_tokens wd
           ∧ wb_last_updated row = wd_lastUpdated wd
       | Throw error =>
           wb_fetch_status row = StatusError
           ∧ wb_error_message row = Some (error_message error)
           ∧ wb_sol_balance row = 0%Qc
           ∧ wb_tokens row = []
       end)
  ∧ ∀ other, other ≠ address →
      getWalletBalance other (db (snd run)) = getWalletBalance other (db w).
Proof.
  intros run. subst run.
  destruct (getWalletData_wallets address walletId w) as (row & Hwallets & Hrow).
  split.
  - exists row. split; [exact Hwallets|].
    destruct (fst (getWalletData cfg address walletId w)) as [wd|error].
    + subst row. cbn. auto 10.
    + destruct Hrow as [t ->]. cbn. auto 10.
  - intros other Hne. unfold getWalletBalance. rewrite Hwallets.
    apply lookup_insert_ne. congruence.
Qed.

Lemma recorded_nil (d : Db) : recorded [] d d.
Proof.
  split; [|reflexivity]. intros wallet Hin. apply elem_of_nil in Hin. contradiction.
Qed.

Lemma recorded_app (b1 b2 : list Wallet) (d0 d1 d2 : Db) :
  recorded b1 d0 d1 → recorded b2 d1 d2 → recorded (b1 ++ b2) d0 d2.
Proof.
  intros [Hin1 Hout1] [Hin2 Hout2]. split.
  - intros wallet Hin.
    destruct (decide (wallet_address wallet ∈ map wallet_address b2)) as [Hb2|Hb2].
    + apply list_elem_of_fmap in Hb2 as (wallet2 & Haddr & Hin').
      destruct (Hin2 wallet2 Hin') as (row & wallet' & Hget & Hrow & Hst & Hw' & Ha & Hid).
      exists row, wallet'. rewrite Haddr.
      repeat split; try assumption. apply elem_of_app. right. exact Hw'.
    + assert (Hb1 : wallet ∈ b1).
      { apply elem_of_app in Hin as [H|H]; [exact H|].
        exfalso. apply Hb2. apply list_elem_of_fmap. exists wallet. auto. }
      destruct (Hin1 wallet Hb1) as (row & wallet' & Hget & Hrow & Hst & Hw' & Ha & Hid).
      exists row, wallet'. rewrite (Hout2 _ Hb2).
      repeat split; try assumption. apply elem_of_app. left. exact Hw'.
  - intros address Hnotin. rewrite map_app in Hnotin.
    apply not_elem_of_app in Hnotin as [Hn1 Hn2].
    rewrite (Hout2 _ Hn2). apply Hout1. exact Hn1.
Qed.

Lemma process_wallet_recorded (wallet : Wallet) (results : BatchResults) (w : World Env) :
  recorded [wallet] (db w) (db (snd (process_wallet cfg wallet results w))).
Proof.
  rewrite process_wallet_run.
  destruct (getWalletData_wallets (wallet_address wallet) (wallet_id wallet) w)
    as (row & Hwallets & Hrow).
  assert (Hdb : wallet_balances
                  (db (snd (match getWalletData cfg (wallet_address wallet)
                                    (wallet_id wallet) w with
                            | (Ok _, w') =>
                                (Ok {| successful := S (successful results);
                                       failed := failed results;
                                       errors := errors results |}, w')
                            | (Throw error, w') =>
                                (Ok {| successful := successful results;
                                       failed := S (failed results);
                                       errors := errors results
                                                 ++ [error_entry wallet error] |}, w')
                            end)))
                = <[wallet_address wallet := row]> (wallet_balances (db w))).
  { destruct (getWalletData cfg (wallet_address wallet) (wallet_id wallet) w)
      as [[wd|error] w1]; exact Hwallets. }
  assert (Hfields : wb_wallet_address row = wallet_address wallet
                    ∧ wb_fetch_status row ≠ StatusPending
                    ∧ wb_wallet_id row = wallet_id wallet).
  { destruct (fst (getWalletData cfg (wallet_address wallet) (wallet_id wallet) w)).
    - subst row. cbn. repeat split. discriminate.
    - destruct Hrow as [t ->]. cbn. repeat split. discriminate. }
  destruct Hfields as (Haddr & Hst & Hid).
  split.
  - intros wallet0 Hin. apply list_elem_of_singleton in Hin as ->.
    exists row, wallet. unfold getWalletBalance. rewrite Hdb, lookup_insert_eq.
    repeat split; try assumption. apply list_elem_of_singleton. reflexivity.
  - intros address Hnotin. unfold getWalletBalance. rewrite Hdb.
    apply lookup_insert_ne. intros Heq. apply Hnotin. cbn [map].
    apply list_elem_of_singleton. congruence.
Qed.

Lemma process_chunk_recorded : ∀ (batch : list Wallet) (results : BatchResults)
    (w : World Env),
  recorded batch (db w) (db (snd (process_chunk cfg batch results w))).
Proof.
  induction batch as [|wallet rest IH]; intros results w; [apply recorded_nil|].
  cbn [process_chunk]. unfold bind.
  pose proof (process_wallet_recorded wallet results w) as Hone.
  destruct (process_wallet_tally cfg wallet results w) as (results' & w' & Hrun & _).
  rewrite Hrun in Hone |- *. cbn [snd] in Hone.
  change (wallet :: rest) with ([wallet] ++ rest).
  eapply recorded_app; [exact Hone | apply IH].
Qed.

Lemma run_chunks_recorded : ∀ (cs : list (list Wallet)) (results : BatchResults)
    (w : World Env),
  recorded (concat cs) (db w)
    (db (snd (run_chunks (process_chunk cfg) 2000 cs results w))).
Proof.
  induction cs as [|c cs IH]; intros results w; [apply recorded_nil|].
  cbn [run_chunks concat]. unfold bind at 1.
  pose proof (process_chunk_recorded c results w) as Hc.
  destruct (process_chunk_tally cfg c results w) as (results' & w' & Hrun & _).
  rewrite Hrun in Hc |- *. cbn [snd] in Hc.
  eapply recorded_app; [exact Hc|].
  unfold bind. destruct cs as [|c' cs'].
  - unfold ret. apply IH.
  - cbn [sleep]. specialize (IH results' (snd (sleep 2000 w'))). exact IH.
Qed.

(** X11.  After a batch every wallet has its record.  For a batch size of
    at least 1, when [processWalletBatch] has gone through the list, every
    wallet of the list has a record in the store under its address, with
    status success or error (never pending) and the id of a wallet of the
    list with that address; the records of the addresses that are not in
    the list are as they were. *)
Theorem processWalletBatch_records (fuel : nat) (wallets : list Wallet) (batchSize : nat)
    (w : World Env) :
  0 < batchSize →
  length wallets < fuel →
  recorded wallets (db w) (db (snd (processWalletBatch cfg fuel wallets batchSize w))).
Proof.
  intros Hsize Hfuel. unfold processWalletBatch.
  rewrite (batch_loop_chunks cfg wallets batchSize Hsize) by (rewrite drop_0; exact Hfuel).
  rewrite drop_0.
  pose proof (run_chunks_recorded (chunks batchSize wallets)
                {| successful := 0; failed := 0; errors := [] |} w) as H.
  rewrite chunks_concat in H by exact Hsize.
  destruct (run_chunks (process_chunk cfg) 2000 (chunks batchSize wallets)
              {| successful := 0; failed := 0; errors := [] |} w) as [[r|e] w1]; exact H.
Qed.

Variable getStaleTokenPrices : Z → Z → Db → list TokenPrice.

(** X12.  Refreshing stale prices never fails.  [refreshStaleTokenPrices]
    returns whatever the provider does; with no stale row it does nothing
    at all; otherwise it leaves the world as one call of [getTokenPrices]
    for the mints of the stale rows leaves it, whose error, if any, is
    dropped: one price query, the wallet records untouched, the log
    extended.  The route [/tokens/prices/refresh] therefore always answers
    200 with "Token prices refresh initiated", also when the refresh
    failed. *)
Theorem refreshStaleTokenPrices_safe (w : World Env) :
  let stale := getStaleTokenPrices 30 (Date_now (env w)) (db w) in
  let run := refreshStaleTokenPrices cfg getStaleTokenPrices w in
  fst run = Ok tt
  ∧ snd run
    = (if length stale =? 0 then w else snd (getTokenPrices cfg (map tp_mint stale) w))
  ∧ wallets_kept (db w) (db (snd run))
  ∧ log_grows (db w) (db (snd run))
  ∧ price_queries (trace (snd run))
    = price_queries (trace w)
      ++ (if length stale =? 0 then [] else [price_url cfg (map tp_mint stale)])
  ∧ post_tokens_prices_refresh cfg getStaleTokenPrices w
    = (Ok (json_message "Token prices refresh initiated" (Date_now (env (snd run)))),
       snd run).
Proof.
  intros stale run.
  assert (Hrun : run
                 = (Ok tt, if length stale =? 0 then w
                           else snd (getTokenPrices cfg (map tp_mint stale) w))).
  { subst run stale. unfold refreshStaleTokenPrices, bind, now, db_read. cbn [fst snd].
    destruct (length (getStaleTokenPrices 30 (Date_now (env w)) (db w)) =? 0);
      [reflexivity|].
    unfold try_catch, bind, ret.
    destruct (getTokenPrices cfg _ w) as [[prices|error] w1]; reflexivity. }
  assert (Hpost : post_tokens_prices_refresh cfg getStaleTokenPrices w
                  = (Ok (json_message "Token prices refresh initiated"
                           (Date_now (env (snd run)))), snd run)).
  { unfold post_tokens_prices_refresh, try_catch, bind. fold run. rewrite Hrun.
    reflexivity. }
  rewrite Hpost. rewrite Hrun. cbn [fst snd].
  split; [reflexivity|]. split; [reflexivity|].
  destruct (length stale =? 0) eqn:Hlen.
  - split; [reflexivity|]. split; [reflexivity|].
    rewrite app_nil_r. auto.
  - split; [|split; [|split]].
    + rapply getTokenPrices_respects; first [apply wallets_kept_log | apply wallets_kept_price].
    + rapply getTokenPrices_respects; first [apply log_grows_insert | apply log_grows_price].
    + assert (Hne : map tp_mint stale ≠ []).
      { destruct stale; [discriminate Hlen | discriminate]. }
      destruct (getTokenPrices_run cfg (map tp_mint stale) w Hne)
        as (metadata & w2 & _ & Hq & Hout).
      rewrite Hout. rewrite <- Hq.
      destruct (fst (fetch_price (price_url cfg (map tp_mint stale)) (env w)))
        as [response|e]; cbn [prices_outcome]; [|reflexivity].
      destruct (resp_ok response); [|reflexivity].
      destruct (resp_json response) as [body|e]; [|reflexivity].
      cbv zeta. destruct (null_entry _); reflexivity.
    + reflexivity.
Qed.

End WalletRecords.

Lemma processWalletBatch_records_witness :
  let w' := snd (processWalletBatch (provider := scripted twelve_script) default_config 13
                   twelve_wallets 5 (boot empty_db)) in
  (wb_fetch_status <$> getWalletBalance "W01" (db w')) = Some StatusSuccess
  ∧ (wb_fetch_status <$> getWalletBalance "bad" (db w')) = Some StatusError
  ∧ recorded twelve_wallets empty_db (db w').
Proof.
  split; [vm_compute; reflexivity|]. split; [vm_compute; reflexivity|].
  apply (processWalletBatch_records (provider := scripted twelve_script) default_config 13
           twelve_wallets 5 (boot empty_db)); [lia | vm_compute; lia].
Defined.

Section BatchStore.

Context {Env : Type} {provider : Provider Env}.
Variable cfg : Config.

Lemma count_status_ext (st : FetchStatus) (d d' : Db) (batch : list Wallet) :
  (∀ wallet, wallet ∈ batch →
     getWalletBalance (wallet_address wallet) d'
     = getWalletBalance (wallet_address wallet) d) →
  count_status st d' batch = count_status st d batch.
Proof.
  unfold count_status, status_in.
  induction batch as [|wallet batch IH]; intros Hsame; [reflexivity|].
  rewrite !filter_cons, (Hsame wallet) by left.
  assert (Hrest : length (filter (fun wallet => wb_fetch_status
                                    <$> getWalletBalance (wallet_address wallet) d'
                                    = Some st) batch)
                  = length (filter (fun wallet => wb_fetch_status
                                      <$> getWalletBalance (wallet_address wallet) d
                                      = Some st) batch))
    by (apply IH; intros x Hx; apply Hsame; right; exact Hx).
  destruct (decide _); cbn [length]; rewrite Hrest; reflexivity.
Qed.

Lemma count_status_app (st : FetchStatus) (d : Db) (b1 b2 : list Wallet) :
  count_status st d (b1 ++ b2) = count_status st d b1 + count_status st d b2.
Proof. unfold count_status. rewrite filter_app, length_app. reflexivity. Qed.

Lemma counted_nil (results : BatchResults) (d : Db) : counted [] results results d d.
Proof. unfold counted, count_status. cbn. repeat split; lia. Qed.

Lemma counted_app (b1 b2 : list Wallet) (r0 r1 r2 : BatchResults) (d0 d1 d2 : Db) :
  NoDup (map wallet_address (b1 ++ b2)) →
  counted b1 r0 r1 d0 d1 → counted b2 r1 r2 d1 d2 → counted (b1 ++ b2) r0 r2 d0 d2.
Proof.
  intros Hnodup (Hs1 & Hf1 & Hout1) (Hs2 & Hf2 & Hout2).
  rewrite map_app in Hnodup. apply NoDup_app in Hnodup as (_ & Hdisjoint & _).
  assert (Hkept : ∀ wallet, wallet ∈ b1 →
            getWalletBalance (wallet_address wallet) d2
            = getWalletBalance (wallet_address wallet) d1).
  { intros wallet Hin. apply Hout2. apply Hdisjoint.
    apply list_elem_of_fmap. exists wallet. auto. }
  unfold counted. rewrite !count_status_app.
  rewrite (count_status_ext StatusSuccess d1 d2 b1 Hkept).
  rewrite (count_status_ext StatusError d1 d2 b1 Hkept).
  split; [lia|]. split; [lia|].
  intros address Hnotin. rewrite map_app in Hnotin.
  apply not_elem_of_app in Hnotin as [Hn1 Hn2].
  rewrite (Hout2 _ Hn2). apply Hout1. exact Hn1.
Qed.

Lemma process_wallet_counted (wallet : Wallet) (results : BatchResults) (w : World Env) :
  ∃ results' w',
    process_wallet cfg wallet results w = (Ok results', w')
    ∧ counted [wallet] results results' (db w) (db w').
Proof.
  rewrite process_wallet_run.
  destruct (getWalletData_wallets cfg (wallet_address wallet) (wallet_id wallet) w)
    as (row & Hwallets & Hrow).
  destruct (getWalletData cfg (wallet_address wallet) (wallet_id wallet) w)
    as [[wd|error] w1]; cbn [fst snd] in *; eexists _, _; (split; [reflexivity|]).
  - subst row. unfold counted, count_status, status_in, getWalletBalance.
    rewrite !filter_cons, !filter_nil, Hwallets, lookup_insert_eq.
    cbn [fmap option_map option_fmap success_row wb_fetch_status successful failed].
    repeat match goal with
           | |- context [decide ?P] =>
               destruct (decide P) as [?|?]; try discriminate; try (exfalso; congruence)
           end.
    cbn [length]. split; [lia|]. split; [lia|].
    intros address Hnotin. apply lookup_insert_ne. intros Heq. apply Hnotin.
    cbn [map]. apply list_elem_of_singleton. congruence.
  - destruct Hrow as [t ->]. unfold counted, count_status, status_in, getWalletBalance.
    rewrite !filter_cons, !filter_nil, Hwallets, lookup_insert_eq.
    cbn [fmap option_map option_fmap error_row wb_fetch_status successful failed].
    repeat match goal with
           | |- context [decide ?P] =>
               destruct (decide P) as [?|?]; try discriminate; try (exfalso; congruence)
           end.
    cbn [length]. split; [lia|]. split; [lia|].
    intros address Hnotin. apply lookup_insert_ne. intros Heq. apply Hnotin.
    cbn [map]. apply list_elem_of_singleton. congruence.
Qed.

Lemma process_chunk_counted : ∀ (batch : list Wallet) (results : BatchResults)
    (w : World Env),
  NoDup (map wallet_address batch) →
  ∃ results' w',
    process_chunk cfg batch results w = (Ok results', w')
    ∧ counted batch results results' (db w) (db w').
Proof.
  induction batch as [|wallet rest IH]; intros results w Hnodup.
  - exists results, w. split; [reflexivity | apply counted_nil].
  - cbn [process_chunk]. unfold bind.
    destruct (process_wallet_counted wallet results w) as (r1 & w1 & Hrun1 & Hc1).
    rewrite Hrun1.
    destruct (IH r1 w1) as (r2 & w2 & Hrun2 & Hc2).
    { cbn [map] in Hnodup. apply NoDup_cons in Hnodup as [_ H]. exact H. }
    exists r2, w2. split; [exact Hrun2|].
    change (wallet :: rest) with ([wallet] ++ rest).
    eapply counted_app; [exact Hnodup | exact Hc1 | exact Hc2].
Qed.

Lemma run_chunks_counted : ∀ (cs : list (list Wallet)) (results : BatchResults)
    (w : World Env),
  NoDup (map wallet_address (concat cs)) →
  ∃ results' w',
    run_chunks (process_chunk cfg) 2000 cs results w = (Ok results', w')
    ∧ counted (concat cs) results results' (db w) (db w').
Proof.
  induction cs as [|c cs IH]; intros results w Hnodup.
  - exists results, w. split; [reflexivity | apply counted_nil].
  - cbn [run_chunks concat] in *. unfold bind at 1.
    pose proof Hnodup as Hparts. rewrite map_app in Hparts.
    apply NoDup_app in Hparts as (Hc & _ & Hrest).
    destruct (process_chunk_counted c results w Hc) as (r1 & w1 & Hrun1 & Hc1).
    rewrite Hrun1. unfold bind.
    destruct cs as [|c' cs'].
    + unfold ret. destruct (IH r1 w1 Hrest) as (r2 & w2 & Hrun2 & Hc2).
      exists r2, w2. split; [exact Hrun2|].
      eapply counted_app; [exact Hnodup | exact Hc1 | exact Hc2].
    + cbn [sleep]. destruct (IH r1 (snd (sleep 2000 w1)) Hrest) as (r2 & w2 & Hrun2 & Hc2).
      exists r2, w2. split; [exact Hrun2|].
      eapply counted_app; [exact Hnodup | exact Hc1 | exact Hc2].
Qed.

(** X13.  The counts of a batch are the statuses in the store.  For a list
    of wallets with distinct addresses and a batch size of at least 1,
    [processWalletBatch] returns, and the counts it returns are the
    numbers of wallets of the list that the store records, after the run,
    as fetched with success and as failed. *)
Theorem processWalletBatch_store (fuel : nat) (wallets : list Wallet) (batchSize : nat)
    (w : World Env) :
  0 < batchSize →
  length wallets < fuel →
  NoDup (map wallet_address wallets) →
  ∃ results w',
    processWalletBatch cfg fuel wallets batchSize w = (Ok (Some results), w')
    ∧ successful results = count_status StatusSuccess (db w') wallets
    ∧ failed results = count_status StatusError (db w') wallets
    ∧ count_status StatusPending (db w') wallets = 0.
Proof.
  intros Hsize Hfuel Hnodup. unfold processWalletBatch.
  rewrite (batch_loop_chunks cfg wallets batchSize Hsize) by (rewrite drop_0; exact Hfuel).
  rewrite drop_0.
  destruct (run_chunks_counted (chunks batchSize wallets)
              {| successful := 0; failed := 0; errors := [] |} w)
    as (results & w' & Hrun & Hs & Hf & _).
  { rewrite chunks_concat by exact Hsize. exact Hnodup. }
  rewrite chunks_concat in Hs, Hf by exact Hsize.
  pose proof (run_chunks_recorded cfg (chunks batchSize wallets)
                {| successful := 0; failed := 0; errors := [] |} w) as Hrec.
  rewrite Hrun in Hrec |- *. cbn [snd] in Hrec. rewrite chunks_concat in Hrec by exact Hsize.
  exists results, w'. split; [reflexivity|]. split; [exact Hs|]. split; [exact Hf|].
  unfold count_status.
  destruct (filter _ wallets) as [|wallet l] eqn:Hfilter; [reflexivity|]. exfalso.
  assert (Hin : wallet ∈ filter (fun wallet => status_in (db w') wallet = Some StatusPending)
                           wallets) by (rewrite Hfilter; left).
  apply list_elem_of_filter in Hin as [Hst Hin].
  destruct Hrec as [Hall _].
  destruct (Hall wallet Hin) as (row & _ & Hget & _ & Hfinal & _).
  unfold status_in in Hst. rewrite Hget in Hst. cbn in Hst. congruence.
Qed.

End BatchStore.

Lemma processWalletBatch_store_witness :
  ∃ results w',
    processWalletBatch (provider := scripted twelve_script) default_config 13
      twelve_wallets 5 (boot empty_db) = (Ok (Some results), w')
    ∧ successful results = 11
    ∧ failed results = 1
    ∧ count_status StatusSuccess (db w') twelve_wallets = 11.
Proof.
  destruct (processWalletBatch_store (provider := scripted twelve_script) default_config 13
              twelve_wallets 5 (boot empty_db))
    as (results & w' & Hrun & Hs & Hf & _).
  - lia.
  - vm_compute. lia.
  - apply (bool_decide_unpack _). vm_compute. exact I.
  - exists results, w'. split; [exact Hrun|].
    assert (Hcomputed : processWalletBatch (provider := scripted twelve_script)
                          default_config 13 twelve_wallets 5 (boot empty_db)
                        = (Ok (Some results), w')) by exact Hrun.
    vm_compute in Hcomputed. injection Hcomputed as <- <-.
    split; [reflexivity|]. split; [reflexivity|]. vm_compute. reflexivity.
Defined.

(** * Properties of the HTTP API *)

Section MapFacts.

Context {V : Type}.

Lemma map_get_set (k k' : string) (v : V) (m : list (string * V)) :
  map_get k (map_set k' v m) = if decide (k' = k) then Some v else map_get k m.
Proof.
  induction m as [|[k0 v0] m IH]; cbn [map_set map_get].
  - destruct (decide (k' = k)); reflexivity.
  - destruct (decide (k0 = k')) as [->|Hne]; cbn [map_get].
    + destruct (decide (k' = k)); reflexivity.
    + destruct (decide (k0 = k)) as [->|Hk].
      * rewrite decide_False by congruence. reflexivity.
      * exact IH.
Qed.

Lemma map_get_None (k : string) (m : list (string * V)) :
  map_get k m = None ↔ k ∉ map fst m.
Proof.
  induction m as [|[k0 v0] m IH]; cbn [map_get map fst].
  - split; [intros _; apply not_elem_of_nil | reflexivity].
  - rewrite not_elem_of_cons. destruct (decide (k0 = k)) as [->|Hne].
    + split; [discriminate | intros [H _]; contradiction].
    + rewrite IH. split; [intros H; split; [congruence|exact H] | intros [_ H]; exact H].
Qed.

Lemma map_get_elem (k : string) (v : V) (m : list (string * V)) :
  NoDup (map fst m) → (k, v) ∈ m → map_get k m = Some v.
Proof.
  induction m as [|[k0 v0] m IH]; intros Hnodup Hin.
  - apply elem_of_nil in Hin. contradiction.
  - cbn [map fst] in Hnodup. apply NoDup_cons in Hnodup as [Hnotin Hnodup].
    cbn [map_get]. apply elem_of_cons in Hin as [Heq|Hin].
    + injection Heq as -> ->. rewrite decide_True by reflexivity. reflexivity.
    + destruct (decide (k0 = k)) as [->|Hne]; [|apply IH; assumption].
      exfalso. apply Hnotin. apply list_elem_of_fmap. exists (k, v). auto.
Qed.

Lemma map_set_keys (k : string) (v : V) (m : list (string * V)) :
  map fst (map_set k v m)
  = if decide (k ∈ map fst m) then map fst m else map fst m ++ [k].
Proof.
  induction m as [|[k0 v0] m IH]; cbn [map_set map fst].
  - rewrite decide_False by apply not_elem_of_nil. reflexivity.
  - destruct (decide (k0 = k)) as [->|Hne]; cbn [map fst].
    + rewrite decide_True by left. reflexivity.
    + rewrite IH. destruct (decide (k ∈ map fst m)) as [Hin|Hnotin].
      * rewrite decide_True by (right; exact Hin). reflexivity.
      * rewrite decide_False; [reflexivity|].
        intros H. apply elem_of_cons in H as [?|?]; [congruence|contradiction].
Qed.

Lemma map_set_NoDup (k : string) (v : V) (m : list (string * V)) :
  NoDup (map fst m) → NoDup (map fst (map_set k v m)).
Proof.
  intros Hnodup. rewrite map_set_keys.
  destruct (decide (k ∈ map fst m)) as [Hin|Hnotin]; [exact Hnodup|].
  apply NoDup_app. split; [exact Hnodup|]. split; [|apply NoDup_singleton].
  intros x Hx Hk. apply list_elem_of_singleton in Hk as ->. contradiction.
Qed.

Lemma filter_key (k : string) (m : list (string * V)) :
  NoDup (map fst m) →
  filter (fun entry => fst entry = k) m
  = match map_get k m with Some v => [(k, v)] | None => [] end.
Proof.
  induction m as [|[k0 v0] m IH]; intros Hnodup; [reflexivity|].
  cbn [map fst] in Hnodup. apply NoDup_cons in Hnodup as [Hnotin Hnodup].
  rewrite filter_cons. cbn [fst map_get].
  destruct (decide (k0 = k)) as [->|Hne].
  - rewrite IH by exact Hnodup.
    apply map_get_None in Hnotin. rewrite Hnotin. reflexivity.
  - apply IH. exact Hnodup.
Qed.



End MapFacts.

Section SortFacts.

Context {A : Type} (compare : A → A → Qc).

Lemma sort_insert_perm (x : A) (l : list A) : sort_insert compare x l ≡ₚ x :: l.
Proof.
  induction l as [|y l IH]; [reflexivity|]. cbn [sort_insert].
  destruct (decide (0 < compare x y)%Qc); [|reflexivity].
  rewrite IH. apply Permutation_swap.
Qed.

Lemma sort_perm (l : list A) : sort compare l ≡ₚ l.
Proof.
  induction l as [|x l IH]; [reflexivity|].
  cbn [sort foldr]. fold (sort compare l). rewrite sort_insert_perm, IH. reflexivity.
Qed.

End SortFacts.

Section AggregationFacts.

Lemma sum_amount_snoc (held : list TokenAccount) (token : TokenAccount) :
  sum_amount (held ++ [token]) = (sum_amount held + ta_amount token)%Qc.
Proof.
  unfold sum_amount. induction held as [|t held IH]; cbn [app map foldr].
  - ring.
  - rewrite IH. ring.
Qed.

Lemma sum_usd_snoc (held : list TokenAccount) (token : TokenAccount) :
  sum_usd (held ++ [token]) = (sum_usd held + usd_value token)%Qc.
Proof.
  unfold sum_usd. induction held as [|t held IH]; cbn [app map foldr].
  - ring.
  - rewrite IH. ring.
Qed.

Lemma sum_usd_app (l1 l2 : list TokenAccount) :
  sum_usd (l1 ++ l2) = (sum_usd l1 + sum_usd l2)%Qc.
Proof.
  unfold sum_usd. induction l1 as [|t l1 IH]; cbn [app map foldr].
  - ring.
  - rewrite IH. ring.
Qed.

Lemma aggregate_wallets_holdings (allBalances : list WalletBalance) :
  aggregate_wallets allBalances
  = fold_left aggregate_token (successful_holdings allBalances) [].
Proof.
  unfold aggregate_wallets. generalize (@nil (string * AggregatedToken)) as tokenMap.
  induction allBalances as [|wallet rest IH]; intros tokenMap; [reflexivity|].
  cbn [fold_left successful_holdings flat_map]. rewrite fold_left_app, IH.
  destruct (wb_fetch_status wallet); reflexivity.
Qed.

Lemma aggregate_snoc (held : list TokenAccount) (token : TokenAccount) :
  fold_left aggregate_token (held ++ [token]) []
  = aggregate_token (fold_left aggregate_token held []) token.
Proof. rewrite fold_left_app. reflexivity. Qed.

Lemma aggregate_NoDup (held : list TokenAccount) :
  NoDup (map fst (fold_left aggregate_token held [])).
Proof.
  induction held as [|token held IH] using rev_ind; [apply NoDup_nil; exact I|].
  rewrite aggregate_snoc. unfold aggregate_token. apply map_set_NoDup. exact IH.
Qed.

(** The entry of a mint after the holdings [tokens] were aggregated. *)
Lemma aggregate_lookup (mint : string) (tokens : list TokenAccount) :
  match holdings_of mint tokens with
  | [] => map_get mint (fold_left aggregate_token tokens []) = None
  | _ :: _ =>
      ∃ entry,
        map_get mint (fold_left aggregate_token tokens []) = Some entry
        ∧ totals_of mint (holdings_of mint tokens) entry
        ∧ priced_by None entry
  end.
Proof.
  induction tokens as [|token tokens IH] using rev_ind; [reflexivity|].
  rewrite aggregate_snoc. unfold holdings_of in *. rewrite filter_app.
  set (tokenMap := fold_left aggregate_token tokens []) in *.
  unfold aggregate_token. rewrite map_get_set.
  rewrite filter_cons, filter_nil.
  destruct (decide (ta_mint token = mint)) as [Hmint|Hne].
  - rewrite Hmint.
    destruct (filter (fun t => ta_mint t = mint) tokens) as [|first held] eqn:Hheld.
    + rewrite IH. cbn [app from_option]. eexists. split; [reflexivity|].
      unfold totals_of, priced_by, sum_amount, sum_usd.
      cbn [at_mint at_totalAmount at_totalValue at_walletCount at_symbol at_name at_price
           at_priceChange24h at_imageUrl map foldr length head mbind option_bind].
      rewrite num_or_zero, usd_or_zero_value.
      repeat split; try reflexivity; try exact Hmint; ring.
    + destruct IH as (entry & Hget & (Hm & Hamount & Hvalue & Hcount & Hsym & Hname) & Hprice).
      rewrite Hget. cbn [from_option id]. eexists. split; [reflexivity|].
      unfold totals_of, priced_by.
      cbn [at_mint at_totalAmount at_totalValue at_walletCount at_symbol at_name at_price
           at_priceChange24h at_imageUrl].
      rewrite sum_amount_snoc, sum_usd_snoc, length_app, num_or_zero, usd_or_zero_value.
      rewrite Hamount, Hvalue, Hcount. cbn [length app head] in *.
      repeat split; try assumption; try reflexivity; try lia; apply Hprice.
  - rewrite app_nil_r. exact IH.
Qed.

Lemma aggregate_entry_mint (tokens : list TokenAccount) (entry : string * AggregatedToken) :
  entry ∈ fold_left aggregate_token tokens [] → at_mint (snd entry) = fst entry.
Proof.
  destruct entry as [mint token]. intros Hin.
  apply (map_get_elem _ _ _ (aggregate_NoDup tokens)) in Hin.
  pose proof (aggregate_lookup mint tokens) as Hlookup.
  destruct (holdings_of mint tokens); [congruence|].
  destruct Hlookup as (entry & Hget & (Hm & _) & _).
  rewrite Hin in Hget. injection Hget as <-. exact Hm.
Qed.

Lemma add_price_data_totals (priceMap : list (string * TokenPrice))
    (entry : string * AggregatedToken) :
  at_mint (add_price_data priceMap entry) = at_mint (snd entry)
  ∧ at_totalAmount (add_price_data priceMap entry) = at_totalAmount (snd entry)
  ∧ at_totalValue (add_price_data priceMap entry) = at_totalValue (snd entry)
  ∧ at_walletCount (add_price_data priceMap entry) = at_walletCount (snd entry)
  ∧ at_symbol (add_price_data priceMap entry) = at_symbol (snd entry)
  ∧ at_name (add_price_data priceMap entry) = at_name (snd entry).
Proof.
  unfold add_price_data. destruct (map_get (fst entry) priceMap); cbn; auto 10.
Qed.

Lemma filter_mint_entries (priceMap : list (string * TokenPrice)) (mint : string)
    (tokenMap : list (string * AggregatedToken)) :
  (∀ entry, entry ∈ tokenMap → at_mint (snd entry) = fst entry) →
  filter (fun token => at_mint token = mint) (map (add_price_data priceMap) tokenMap)
  = map (add_price_data priceMap) (filter (fun entry => fst entry = mint) tokenMap).
Proof.
  induction tokenMap as [|entry tokenMap IH]; intros Hmint; [reflexivity|].
  cbn [map]. rewrite !filter_cons.
  destruct (add_price_data_totals priceMap entry) as (Hm & _).
  rewrite Hm, (Hmint entry) by left.
  rewrite IH by (intros e He; apply Hmint; right; exact He).
  destruct (decide (fst entry = mint)); reflexivity.
Qed.


Lemma aggregated_filter (allBalances : list WalletBalance) (tokenPrices : list TokenPrice)
    (mint : string) :
  filter (fun token => at_mint token = mint) (aggregated_tokens allBalances tokenPrices)
  = match map_get mint (fold_left aggregate_token (successful_holdings allBalances) []) with
    | Some entry =>
        [add_price_data (new_Map (map (fun p => (tp_mint p, p)) tokenPrices)) (mint, entry)]
    | None => []
    end.
Proof.
  unfold aggregated_tokens.
  set (priceMap := new_Map (map (fun p => (tp_mint p, p)) tokenPrices)).
  rewrite aggregate_wallets_holdings.
  set (tokens := successful_holdings allBalances).
  assert (Hperm : filter (fun token => at_mint token = mint)
                    (sort by_total_value
                       (map (add_price_data priceMap) (fold_left aggregate_token tokens [])))
                  ≡ₚ map (add_price_data priceMap)
                       (filter (fun entry => fst entry = mint)
                          (fold_left aggregate_token tokens []))).
  { rewrite sort_perm. rewrite filter_mint_entries; [reflexivity|].
    intros entry. apply aggregate_entry_mint. }
  rewrite (filter_key mint _ (aggregate_NoDup tokens)) in Hperm.
  destruct (map_get mint (fold_left aggregate_token tokens [])) as [entry|];
    cbn [map] in Hperm.
  - apply Permutation_singleton_r in Hperm. exact Hperm.
  - apply Permutation_nil_r in Hperm. exact Hperm.
Qed.


Lemma by_total_value_pos (x y : AggregatedToken) :
  (0 < by_total_value x y)%Qc ↔ (at_totalValue x < at_totalValue y)%Qc.
Proof. unfold by_total_value. symmetry. apply Qclt_minus_iff. Qed.

Lemma sort_insert_descending (x : AggregatedToken) (l : list AggregatedToken) :
  StronglySorted descending l → StronglySorted descending (sort_insert by_total_value x l).
Proof.
  induction l as [|y l IH]; intros Hsorted.
  - cbn. constructor; [constructor|constructor].
  - apply StronglySorted_inv in Hsorted as [Hl Hy]. cbn [sort_insert].
    destruct (decide (0 < by_total_value x y)%Qc) as [Hlt|Hge].
    + constructor; [apply IH; exact Hl|].
      rewrite sort_insert_perm. constructor; [|exact Hy].
      unfold descending. apply Qclt_le_weak, by_total_value_pos. exact Hlt.
    + assert (Hxy : descending x y).
      { unfold descending. apply Qcnot_lt_le. intros H. apply Hge, by_total_value_pos. exact H. }
      constructor; [constructor; assumption|].
      constructor; [exact Hxy|].
      eapply Forall_impl; [exact Hy|]. intros z Hz. unfold descending in *.
      eapply Qcle_trans; eassumption.
Qed.

Lemma sort_descending (l : list AggregatedToken) :
  StronglySorted descending (sort by_total_value l).
Proof.
  induction l as [|x l IH]; [constructor|].
  cbn [sort foldr]. apply sort_insert_descending. exact IH.
Qed.

Lemma aggregate_keys (tokens : list TokenAccount) (mint : string) :
  mint ∈ map fst (fold_left aggregate_token tokens []) ↔ mint ∈ map ta_mint tokens.
Proof.
  pose proof (aggregate_lookup mint tokens) as Hlookup.
  pose proof (map_get_None mint (fold_left aggregate_token tokens [])) as Hnone.
  assert (Hheld : holdings_of mint tokens = [] ↔ mint ∉ map ta_mint tokens).
  { unfold holdings_of. split.
    - intros Hnil Hin. apply list_elem_of_fmap in Hin as (token & -> & Hin).
      assert (Hin' : token ∈ filter (fun t => ta_mint t = ta_mint token) tokens)
        by (apply list_elem_of_filter; auto).
      rewrite Hnil in Hin'. apply elem_of_nil in Hin'. exact Hin'.
    - intros Hnotin. destruct (filter _ tokens) as [|t held] eqn:Hf; [reflexivity|].
      exfalso. apply Hnotin.
      assert (Hin : t ∈ filter (fun t => ta_mint t = mint) tokens) by (rewrite Hf; left).
      apply list_elem_of_filter in Hin as [<- Hin]. apply list_elem_of_fmap. eauto. }
  destruct (holdings_of mint tokens) as [|first held].
  - split; intros Hin; exfalso.
    + apply Hnone in Hlookup. contradiction.
    + apply Hheld in Hin; [exact Hin | reflexivity].
  - destruct Hlookup as (entry & Hget & _).
    split; intros _.
    + destruct (decide (mint ∈ map ta_mint tokens)) as [Hin|Hnotin]; [exact Hin|].
      apply Hheld in Hnotin. discriminate.
    + destruct (decide (mint ∈ map fst (fold_left aggregate_token tokens [])))
        as [Hin|Hnotin]; [exact Hin|].
      apply Hnone in Hnotin. congruence.
Qed.

Lemma priced_mints (priceMap : list (string * TokenPrice))
    (tokenMap : list (string * AggregatedToken)) :
  (∀ entry, entry ∈ tokenMap → at_mint (snd entry) = fst entry) →
  map at_mint (map (add_price_data priceMap) tokenMap) = map fst tokenMap.
Proof.
  induction tokenMap as [|entry tokenMap IH]; intros Hmint; [reflexivity|].
  cbn [map]. destruct (add_price_data_totals priceMap entry) as (Hm & _).
  rewrite Hm, (Hmint entry) by left.
  rewrite IH by (intros e He; apply Hmint; right; exact He). reflexivity.
Qed.

End AggregationFacts.

Section HolderFacts.

Variables (mint : string) (price : Qc).

Lemma accumulate_snoc (xs : list Qc) (x : Qc) :
  accumulate (xs ++ [x]) = (accumulate xs + x)%Qc.
Proof. unfold accumulate. rewrite fold_left_app. reflexivity. Qed.

Lemma accumulate_zero (xs : list Qc) :
  Forall (fun x => x = 0%Qc) xs → accumulate xs = 0%Qc.
Proof.
  unfold accumulate. generalize 0%Qc at 2 3 as total.
  induction xs as [|x xs IH]; intros total Hall; [reflexivity|].
  inversion Hall as [|? ? Hx Hrest]; subst. cbn [fold_left].
  rewrite Qcplus_0_r. apply IH. exact Hrest.
Qed.

Lemma add_holder_inv (acc : Holdings) (wallet : WalletBalance) :
  holders_inv price acc → holders_inv price (add_holder mint price acc wallet).
Proof.
  intros (Hamount & Hvalue & Hall). unfold add_holder.
  destruct (wb_fetch_status wallet); try (repeat split; assumption).
  destruct (List.find _ (wb_tokens wallet)) as [token|]; [|repeat split; assumption].
  destruct (decide (0 < ta_amount token)%Qc) as [Hpos|]; [|repeat split; assumption].
  unfold holders_inv. cbn [hs_holders hs_totalAmount hs_totalValue].
  rewrite !map_app. cbn [map h_balance h_value]. rewrite !accumulate_snoc.
  split; [rewrite Hamount; reflexivity|].
  split; [rewrite Hvalue; reflexivity|].
  apply Forall_app. split; [exact Hall|]. constructor; [|constructor].
  cbn. auto.
Qed.

Lemma add_holder_addresses (acc : Holdings) (wallet : WalletBalance) :
  map h_address (hs_holders (add_holder mint price acc wallet))
  = map h_address (hs_holders acc)
  ∨ (wb_fetch_status wallet = StatusSuccess
     ∧ map h_address (hs_holders (add_holder mint price acc wallet))
       = map h_address (hs_holders acc) ++ [wb_wallet_address wallet]).
Proof.
  unfold add_holder.
  destruct (wb_fetch_status wallet); try (left; reflexivity).
  destruct (List.find _ (wb_tokens wallet)) as [token|]; [|left; reflexivity].
  destruct (decide (0 < ta_amount token)%Qc); [|left; reflexivity].
  right. split; [reflexivity|]. cbn [hs_holders]. rewrite map_app. reflexivity.
Qed.

Lemma find_holders_fold (allBalances : list WalletBalance) : ∀ acc,
  holders_inv price acc →
  let found := fold_left (add_holder mint price) allBalances acc in
  holders_inv price found
  ∧ ∃ new, map h_address (hs_holders found) = map h_address (hs_holders acc) ++ new
           ∧ new `sublist_of` map wb_wallet_address (fetched_ok allBalances).
Proof.
  induction allBalances as [|wallet rest IH]; intros acc Hinv.
  - cbn. split; [exact Hinv|]. exists []. rewrite app_nil_r. split; [reflexivity|].
    constructor.
  - cbn [fold_left].
    destruct (IH (add_holder mint price acc wallet) (add_holder_inv acc wallet Hinv))
      as (Hinv' & new & Hnew & Hsub).
    split; [exact Hinv'|].
    unfold fetched_ok in *. rewrite filter_cons.
    destruct (add_holder_addresses acc wallet) as [Hsame|[Hok Hadd]].
    + exists new. split; [rewrite Hnew, Hsame; reflexivity|].
      destruct (decide (wb_fetch_status wallet = StatusSuccess)); [|exact Hsub].
      cbn [map]. apply sublist_cons. exact Hsub.
    + exists (wb_wallet_address wallet :: new).
      split; [rewrite Hnew, Hadd, <- app_assoc; reflexivity|].
      rewrite decide_True by exact Hok. cbn [map]. apply sublist_skip. exact Hsub.
Qed.

End HolderFacts.

Section HolderTotals.

Lemma find_filter_NoDup (mint : string) (tokens : list TokenAccount) :
  NoDup (map ta_mint tokens) →
  holdings_of mint tokens
  = match List.find (fun t => bool_decide (ta_mint t = mint)) tokens with
    | Some token => [token]
    | None => []
    end.
Proof.
  unfold holdings_of. induction tokens as [|t tokens IH]; intros Hnodup; [reflexivity|].
  cbn [map] in Hnodup. apply NoDup_cons in Hnodup as [Hnotin Hnodup].
  rewrite filter_cons. cbn [List.find].
  destruct (decide (ta_mint t = mint)) as [Hm|Hne].
  - rewrite bool_decide_true by exact Hm.
    assert (Hnone : filter (fun t => ta_mint t = mint) tokens = []).
    { destruct (filter _ tokens) as [|t' held] eqn:Hf; [reflexivity|].
      exfalso. apply Hnotin.
      assert (Hin : t' ∈ filter (fun t => ta_mint t = mint) tokens) by (rewrite Hf; left).
      apply list_elem_of_filter in Hin as [Hm' Hin]. apply list_elem_of_fmap.
      exists t'. split; [congruence|exact Hin]. }
    rewrite Hnone. reflexivity.
  - rewrite bool_decide_false by exact Hne. apply IH. exact Hnodup.
Qed.

Lemma sum_amount_app (l1 l2 : list TokenAccount) :
  sum_amount (l1 ++ l2) = (sum_amount l1 + sum_amount l2)%Qc.
Proof.
  unfold sum_amount. induction l1 as [|t l1 IH]; cbn [app map foldr].
  - ring.
  - rewrite IH. ring.
Qed.

Lemma successful_holdings_cons (wallet : WalletBalance) (rest : list WalletBalance) :
  successful_holdings (wallet :: rest)
  = match wb_fetch_status wallet with
    | StatusSuccess => wb_tokens wallet
    | _ => []
    end ++ successful_holdings rest.
Proof. reflexivity. Qed.

Lemma find_holders_holdings (mint : string) (price : Qc) (allBalances : list WalletBalance) :
  one_account_per_mint allBalances →
  ∀ acc,
    let found := fold_left (add_holder mint price) allBalances acc in
    hs_totalAmount found
    = (hs_totalAmount acc
       + sum_amount (holdings_of mint (successful_holdings allBalances)))%Qc
    ∧ length (hs_holders found)
      = length (hs_holders acc)
        + length (holdings_of mint (successful_holdings allBalances)).
Proof.
  induction 1 as [|wallet rest [Hnodup Hpos] _ IH]; intros acc.
  - cbn. split; [ring|lia].
  - cbn [fold_left]. rewrite successful_holdings_cons.
    destruct (IH (add_holder mint price acc wallet)) as [Ha Hl]. cbn zeta in Ha, Hl.
    rewrite Ha, Hl. unfold holdings_of in *. rewrite filter_app, sum_amount_app, length_app.
    unfold add_holder.
    destruct (wb_fetch_status wallet);
      try (rewrite filter_nil; change (sum_amount []) with 0%Qc; cbn [length];
           split; [ring|lia]).
    fold (holdings_of mint (wb_tokens wallet)).
    rewrite (find_filter_NoDup mint (wb_tokens wallet) Hnodup).
    destruct (List.find _ (wb_tokens wallet)) as [token|] eqn:Hfind;
      [|change (sum_amount []) with 0%Qc; cbn [length]; split; [ring|lia]].
    apply find_some in Hfind as [Hin _]. apply list_elem_of_In in Hin.
    rewrite Forall_forall in Hpos. specialize (Hpos token Hin).
    rewrite decide_True by exact Hpos.
    cbn [hs_totalAmount hs_holders]. rewrite length_app.
    change (sum_amount [token]) with (ta_amount token + 0)%Qc. cbn [length].
    split; [ring|lia].
Qed.

(** X15.  The two token routes agree on amounts.  When no wallet in the
    store holds a mint in more than one token account and every holding
    has a positive amount, the entry of a mint in [/tokens/aggregated] has
    the total amount and the wallet count that [/tokens/holders/:mint]
    reports as total amount and holder count. *)
Theorem token_routes_agree (mint : string) (allBalances : list WalletBalance)
    (tokenPrices : list TokenPrice) (combinedPNL : CombinedPNL) (token : AggregatedToken) :
  one_account_per_mint allBalances →
  token ∈ aggregated_tokens allBalances tokenPrices →
  at_mint token = mint →
  let answer := token_holders mint allBalances tokenPrices combinedPNL in
  at_totalAmount token = th_totalAmount answer
  ∧ at_walletCount token = th_holderCount answer.
Proof.
  intros Hone Hin Hmint answer. subst answer. unfold token_holders.
  cbn [th_totalAmount th_holderCount]. unfold find_holders.
  set (price := price_or_zero _).
  destruct (find_holders_holdings mint price allBalances Hone
              {| hs_holders := []; hs_totalAmount := 0%Qc; hs_totalValue := 0%Qc |})
    as [Ha Hl]. cbn zeta in Ha, Hl. rewrite Ha, Hl. cbn [hs_totalAmount hs_holders length].
  assert (Hfil : token ∈ filter (fun t => at_mint t = mint)
                           (aggregated_tokens allBalances tokenPrices))
    by (apply list_elem_of_filter; auto).
  rewrite aggregated_filter in Hfil.
  pose proof (aggregate_lookup mint (successful_holdings allBalances)) as Hlookup.
  destruct (holdings_of mint (successful_holdings allBalances)) as [|first held].
  - rewrite Hlookup in Hfil. apply elem_of_nil in Hfil. contradiction.
  - destruct Hlookup as (entry & Hget & (_ & Hamount & _ & Hcount & _) & _).
    rewrite Hget in Hfil. apply list_elem_of_singleton in Hfil as ->.
    destruct (add_price_data_totals (new_Map (map (fun p => (tp_mint p, p)) tokenPrices))
                (mint, entry)) as (_ & Hsame & _ & Hsamec & _).
    cbn [snd] in *. rewrite Hsame, Hsamec, Hamount, Hcount. split; [ring|lia].
Qed.

End HolderTotals.

Lemma token_routes_agree_witness :
  ∃ token,
    filter (fun t => at_mint t = "M1") (aggregated_tokens two_records []) = [token]
    ∧ at_totalAmount token = th_totalAmount (token_holders "M1" two_records []
                                               {| topGainers := []; topLosers := [] |})
    ∧ at_walletCount token = 1.
Proof.
  eexists. split; [vm_compute; reflexivity|].
  match goal with
  | |- at_totalAmount ?t = _ ∧ _ =>
      pose proof (token_routes_agree "M1" two_records []
                    {| topGainers := []; topLosers := [] |} t) as H
  end.
  destruct H as [Ha Hc].
  - unfold one_account_per_mint. apply (bool_decide_unpack _). vm_compute. exact I.
  - vm_compute. right. left.
  - reflexivity.
  - split; [exact Ha | reflexivity].
Defined.

Section RouteFacts.

Context {Env : Type} {provider : Provider Env}.
Variable cfg : Config.




Lemma get_wallets_balance_run (address : string) (w : World Env) :
  get_wallets_balance address w
  = (Ok (if decide (address = "") then
           {| reply_status := 500; reply_success := false; reply_data := None;
              reply_error := Some "Invalid wallet address"; reply_message := None;
              reply_timestamp := Some (Date_now (env w)) |}
         else if PublicKey_valid address then
           match getWalletBalance address (db w) with
           | Some balance => json_data (wallet_view balance) (Date_now (env w))
           | None => json_error "Wallet not found" 404
           end
         else
           {| reply_status := 500; reply_success := false; reply_data := None;
              reply_error := Some "Invalid wallet address"; reply_message := None;
              reply_timestamp := Some (Date_now (env w)) |}),
     w).
Proof.
  unfold get_wallets_balance, try_catch, validateWalletAddress.
  destruct (decide (address = "")) as [Hempty|Hne]; [reflexivity|].
  unfold bind. rewrite isValidSolanaAddress_run.
  destruct (PublicKey_valid address); [|reflexivity].
  unfold ret, db_read, now. cbn [negb].
  destruct (getWalletBalance address (db w)); reflexivity.
Qed.

(** X17.  What the pipeline stored is what [/wallets/balance/:address]
    serves.  For an address that is not empty, which is what the router
    hands to the handler: after [getWalletData] for the address, whatever
    its outcome, the handler leaves the world as it is and, for an address
    that is a public key, answers 200 with the record of the address:
    status success with the balance and holdings the pipeline returned, or
    status error with the message of the error the pipeline raised.  For an
    address that is not a public key it answers 500 with "Invalid wallet
    address", although the pipeline stored an error record for it; and for
    a valid address without a record it answers 404. *)
Theorem wallet_served (address walletId : string) (w : World Env) :
  address ≠ "" →
  let fetched := getWalletData cfg address walletId w in
  let served := get_wallets_balance address (snd fetched) in
  snd served = snd fetched
  ∧ (∃ reply,
       fst served = Ok reply
       ∧ if PublicKey_valid address then
           reply_status reply = 200%Z
           ∧ ∃ view,
               reply_data reply = Some view
               ∧ wv_walletAddress view = address
               ∧ wv_walletId view = walletId
               ∧ match fst fetched with
                 | Ok wd =>
                     wv_fetchStatus view = StatusSuccess
                     ∧ wv_errorMessage view = None
                     ∧ wv_solBalance view = wd_solBalance wd
                     ∧ wv_tokens view = wd_tokens wd
                 | Throw error =>
                     wv_fetchStatus view = StatusError
                     ∧ wv_errorMessage view = Some (error_message error)
                     ∧ wv_tokens view = []
                 end
         else
           reply_status reply = 500%Z
           ∧ reply_data reply = None
           ∧ reply_error reply = Some "Invalid wallet address"
           ∧ is_Some (getWalletBalance address (db (snd fetched))))
  ∧ ∀ w0,
      PublicKey_valid address = true →
      getWalletBalance address (db w0) = None →
      get_wallets_balance address w0 = (Ok (json_error "Wallet not found" 404), w0).
Proof.
  intros Hne fetched served. subst served. rewrite get_wallets_balance_run. cbn [fst snd].
  split; [reflexivity|]. split.
  - eexists. split; [reflexivity|].
    destruct (getWalletData_wallets cfg address walletId w) as (row & Hwallets & Hrow).
    fold fetched in Hwallets, Hrow.
    assert (Hget : getWalletBalance address (db (snd fetched)) = Some row).
    { unfold getWalletBalance. rewrite Hwallets. apply lookup_insert_eq. }
    rewrite Hget, decide_False by exact Hne.
    destruct (PublicKey_valid address) eqn:Hvalid.
    + split; [reflexivity|]. exists (wallet_view row). split; [reflexivity|].
      destruct (fst fetched) as [wd|error].
      * subst row. cbn. auto 10.
      * destruct Hrow as [t ->]. cbn. auto 10.
    + cbn. eauto 10.
  - intros w0 Hvalid Hnone. rewrite get_wallets_balance_run.
    rewrite decide_False by exact Hne. rewrite Hvalid, Hnone. reflexivity.
Qed.

Variable getCombinedPNL : Db → CombinedPNL.

(** X18.  The order and the extent of [/tokens/aggregated].  The route
    never raises and leaves the world as it was: it answers 200 from the
    cache store alone.  Its entries are sorted by total value, largest
    first; there is one entry per mint held by a wallet fetched with
    success and no other.  The SOL price it reports is the cached price of
    the native mint, or 150 when there is none or it is 0. *)
Theorem aggregated_sorted (w : World Env) :
  ∃ data,
    get_tokens_aggregated w = (Ok (json_data data (Date_now (env w))), w)
    ∧ StronglySorted descending (ag_tokens data)
    ∧ NoDup (map at_mint (ag_tokens data))
    ∧ (∀ mint, mint ∈ map at_mint (ag_tokens data)
               ↔ mint ∈ map ta_mint (successful_holdings (getAllWalletBalances (db w))))
    ∧ ag_solPrice data = cached_or_default (cached_sol (db w)).
Proof.
  eexists. split; [reflexivity|]. cbn [ag_tokens ag_solPrice].
  unfold aggregated_tokens.
  set (priceMap := new_Map (map (fun p => (tp_mint p, p)) (getAllTokenPrices (db w)))).
  rewrite aggregate_wallets_holdings.
  set (held := successful_holdings (getAllWalletBalances (db w))).
  assert (Hmints : map at_mint
                     (sort by_total_value
                        (map (add_price_data priceMap) (fold_left aggregate_token held [])))
                   ≡ₚ map fst (fold_left aggregate_token held [])).
  { rewrite sort_perm. rewrite priced_mints; [reflexivity|].
    intros entry. apply aggregate_entry_mint. }
  split; [apply sort_descending|]. split; [|split].
  - rewrite Hmints. apply aggregate_NoDup.
  - intros mint. rewrite Hmints. apply aggregate_keys.
  - reflexivity.
Qed.

(** X19.  The totals of [/tokens/holders/:mint].  The route never raises
    and leaves the world as it was.  In its answer the total amount is the
    balances of the holders and the total value is their values, each
    added from 0 in the order of the holders, as the loop adds them; every
    holder has a positive balance and a value of balance times price, the
    holder count is the number of holders, and the holders are wallets
    fetched with success, in the order of the table, each record at most
    once.  The price is that of the first row of the price table for the
    mint; without such a row, or when its price is 0, the price is 0 and so
    are all the values. *)
Theorem token_holders_totals (mint : string) (w : World Env) :
  ∃ answer,
    get_tokens_holders getCombinedPNL mint w
    = (Ok (json_data answer (Date_now (env w))), w)
    ∧ th_totalAmount answer = accumulate (map h_balance (th_holders answer))
    ∧ th_totalValue answer = accumulate (map h_value (th_holders answer))
    ∧ Forall
        (fun holder =>
           (0 < h_balance holder)%Qc
           ∧ h_value holder = (h_balance holder * th_price answer)%Qc)
        (th_holders answer)
    ∧ th_holderCount answer = length (th_holders answer)
    ∧ map h_address (th_holders answer)
      `sublist_of` map wb_wallet_address (fetched_ok (getAllWalletBalances (db w)))
    ∧ th_price answer = price_or_zero (find_price mint (db w))
    ∧ (th_price answer = 0%Qc →
       th_totalValue answer = 0%Qc
       ∧ Forall (fun holder => h_value holder = 0%Qc) (th_holders answer)).
Proof.
  eexists. split; [reflexivity|].
  unfold token_holders.
  cbn [th_totalValue th_totalAmount th_price th_holders th_holderCount].
  set (price := price_or_zero _).
  assert (Hinit : holders_inv price
                    {| hs_holders := []; hs_totalAmount := 0%Qc; hs_totalValue := 0%Qc |}).
  { unfold holders_inv. cbn. split; [reflexivity|]. split; [reflexivity|constructor]. }
  destruct (find_holders_fold mint price (getAllWalletBalances (db w)) _ Hinit)
    as ((Hamount & Hvalue & Hall) & new & Hnew & Hsub).
  fold (find_holders mint price (getAllWalletBalances (db w))) in *.
  split; [exact Hamount|]. split; [exact Hvalue|]. split; [exact Hall|].
  split; [reflexivity|]. split; [rewrite Hnew; exact Hsub|]. split; [reflexivity|].
  intros Hzero.
  assert (Hzeros : Forall (fun holder => h_value holder = 0%Qc)
                     (hs_holders (find_holders mint price (getAllWalletBalances (db w))))).
  { eapply Forall_impl; [exact Hall|]. intros holder [_ Hv]. rewrite Hv, Hzero. ring. }
  split; [|exact Hzeros].
  rewrite Hvalue. apply accumulate_zero. apply Forall_fmap.
  eapply Forall_impl; [exact Hzeros|]. intros holder Hv. exact Hv.
Qed.

End RouteFacts.

(** X17 on two addresses: W01 is fetched and served with its record; "bad"
    is no public key, its error record is stored and the handler answers
    500. *)
Lemma wallet_served_witness :
  (∃ reply,
     fst (get_wallets_balance (provider := scripted twelve_script) "W01"
            (snd (getWalletData (provider := scripted twelve_script) default_config
                    "W01" "id-W01" (boot empty_db))))
     = Ok reply
     ∧ reply_status reply = 200%Z
     ∧ (wv_fetchStatus <$> reply_data reply) = Some StatusSuccess)
  ∧ (∃ reply,
       fst (get_wallets_balance (provider := scripted twelve_script) "bad"
              (snd (getWalletData (provider := scripted twelve_script) default_config
                      "bad" "id-bad" (boot empty_db))))
       = Ok reply
       ∧ reply_status reply = 500%Z
       ∧ reply_error reply = Some "Invalid wallet address").
Proof.
  split.
  - destruct (wallet_served (provider := scripted twelve_script) default_config
                "W01" "id-W01" (boot empty_db) ltac:(discriminate))
      as (_ & (reply & Hrun & Hreply) & _).
    exists reply. split; [exact Hrun|].
    change (PublicKey_valid "W01") with true in Hreply. cbv iota in Hreply.
    destruct Hreply as (Hstatus & view & Hview & _ & _ & Hfetched).
    split; [exact Hstatus|]. rewrite Hview. cbn [fmap option_fmap option_map].
    f_equal.
    destruct (fst (getWalletData (provider := scripted twelve_script) default_config
                     "W01" "id-W01" (boot empty_db))) as [wd|error] eqn:Hfst.
    + apply Hfetched.
    + exfalso. vm_compute in Hfst. discriminate.
  - destruct (wallet_served (provider := scripted twelve_script) default_config
                "bad" "id-bad" (boot empty_db) ltac:(discriminate))
      as (_ & (reply & Hrun & Hreply) & _).
    exists reply. split; [exact Hrun|].
    change (PublicKey_valid "bad") with false in Hreply. cbv iota in Hreply.
    destruct Hreply as (Hstatus & _ & Herror & _).
    split; [exact Hstatus | exact Herror].
Defined.
